(** * A shallow embedding of the mini-git core and its properties

    The Python sources modelled here are [hash_object.py] (the
    content-addressed object store), [tree.py] (the directory tree of a
    snapshot), [commit.py] (commits and the walks along parent links),
    [diff.py] (the LCS line diff) and [merge.py] (the whole-file three-way
    merge).  The first half of the file holds the model, one module per
    source file, followed by the notions the statements need; the second
    half holds the proofs. *)

From Stdlib Require Import String Ascii ZArith Lia.
From stdpp Require Import gmap strings list.
From Equations Require Import Equations.

(** * Common Python notions *)

Module py.

(** The exceptions that the modelled code lets escape, the first two with
    the hash that was asked for.  [LoadsError] is an exception raised
    inside [pickle.loads], by the name of its class: UnpicklingError,
    EOFError for an empty file, and so on. *)
Inductive exn :=
  | FileNotFoundError (obj_hash : string)
  | IsADirectoryError (obj_hash : string)
  | AttributeError
  | LoadsError (class_name : string).

(** The outcome of a call that may raise. *)
Inductive result (A : Type) :=
  | Ok (a : A)
  | Raise (e : exn).
Arguments Ok {A} a.
Arguments Raise {A} e.

(** [bytes] *)
Definition bytes := string.

(** [s[:n]] and [s[n:]] on a [str]. *)
Fixpoint str_take (n : nat) (s : string) : string :=
  match n, s with
  | S n', String c s' => String c (str_take n' s')
  | _, _ => EmptyString
  end.

Fixpoint str_drop (n : nat) (s : string) : string :=
  match n, s with
  | S n', String _ s' => str_drop n' s'
  | _, _ => s
  end.

(** Truth value of an [Optional[str]] and of an [Optional[int]]. *)
Definition truthy_str (s : option string) : bool :=
  match s with
  | Some s => negb (String.eqb s "")
  | None => false
  end.

Definition truthy_int (n : option Z) : bool :=
  match n with
  | Some n => negb (n =? 0)%Z
  | None => false
  end.

(** A hash as the store is meant to be asked for one: letters and digits
    only, as a hex digest is.  For such a hash [obj_hash[:2]] and
    [obj_hash[2:]] are each the name of one directory entry or empty, and
    the model of the objects directory below is exact; a hash with a
    separator or a dot in it would lead [os.path.join] elsewhere. *)
Definition is_alnum (c : ascii) : bool :=
  let n := nat_of_ascii c in
  ((48 <=? n)%nat && (n <=? 57)%nat) || ((65 <=? n)%nat && (n <=? 90)%nat)
  || ((97 <=? n)%nat && (n <=? 122)%nat).

Fixpoint is_name (s : string) : bool :=
  match s with
  | EmptyString => true
  | String c rest => is_alnum c && is_name rest
  end.

(** [sep.join(parts)] *)
Fixpoint str_join (sep : string) (parts : list string) : string :=
  match parts with
  | [] => EmptyString
  | [x] => x
  | x :: rest => (x ++ sep ++ str_join sep rest)%string
  end.

(** The line feed character as a [str]. *)
Definition newline : string := String (ascii_of_nat 10) EmptyString.

End py.

(** * hash_object.py: the content-addressed object store *)

Module hash_object.
Import py.

(** What the interpreter supplies: [pickle.dumps]; [pickle.loads], which
    raises on bytes that are no pickle, [pickle_error] naming the class of
    what it raises then; and the hex digest of SHA-1, which has 40
    characters: of that length the model uses that it is more than the two
    characters of a subdirectory name. *)
Class Codec (Obj : Type) := {
  pickle_dumps : Obj -> bytes;
  pickle_loads : bytes -> option Obj;
  pickle_error : bytes -> string;
  sha1_hexdigest : bytes -> string;
  sha1_hexdigest_long : forall content, 2 < String.length (sha1_hexdigest content)
}.

(** The objects directory: the subdirectories that exist in it and the
    files in them, a file being named by its subdirectory and its name
    there.  [store_object] makes the subdirectory before it writes the
    file. *)
Record HashObject := mkHashObject {
  subdirs : gset string;
  files : gmap (string * string) bytes
}.

(** [HashObject(objects_dir)] on a fresh directory. *)
Definition HashObject_init : HashObject := mkHashObject ∅ ∅.

Section store.
Context {Obj : Type} `{!Codec Obj}.

Definition hash_content (content : bytes) : string := sha1_hexdigest content.

(** [os.path.join(os.path.join(objects_dir, obj_hash[:2]), obj_hash[2:])] *)
Definition obj_path (obj_hash : string) : string * string :=
  (str_take 2 obj_hash, str_drop 2 obj_hash).

(** [os.path.exists(obj_path)].  With an empty file name the path is the
    subdirectory itself, and the objects directory when the subdirectory
    name is empty too: it exists once it has been made.  Any other path
    exists when there is a file of that name. *)
Definition path_exists (st : HashObject) (path : string * string) : bool :=
  if String.eqb (snd path) ""
  then String.eqb (fst path) "" || bool_decide (fst path ∈ subdirs st)
  else bool_decide (is_Some (files st !! path)).

(** [store_object]: returns the hash and the store after the call.
    [os.makedirs(subdir, exist_ok=True)] comes first; the file is written
    only if there is none at [obj_path]. *)
Definition store_object (st : HashObject) (obj : Obj) : string * HashObject :=
  let serialized := pickle_dumps obj in
  let obj_hash := hash_content serialized in
  let subdir := str_take 2 obj_hash in
  let st := mkHashObject ({[subdir]} ∪ subdirs st) (files st) in
  let path := obj_path obj_hash in
  if negb (path_exists st path)
  then (obj_hash, mkHashObject (subdirs st) (<[path := serialized]> (files st)))
  else (obj_hash, st).

(** [retrieve_object]: reads only.  A path that is a directory passes the
    existence test, and [open] raises [IsADirectoryError] on it; what
    [pickle.loads] raises escapes as it is. *)
Definition retrieve_object (st : HashObject) (obj_hash : string) : result Obj :=
  let path := obj_path obj_hash in
  if negb (path_exists st path) then Raise (FileNotFoundError obj_hash)
  else if String.eqb (snd path) "" then Raise (IsADirectoryError obj_hash)
  else
    match files st !! path with
    | Some serialized =>
        match pickle_loads serialized with
        | Some obj => Ok obj
        | None => Raise (LoadsError (pickle_error serialized))
        end
    | None => Raise (FileNotFoundError obj_hash)
    end.

Definition object_exists (st : HashObject) (obj_hash : string) : bool :=
  path_exists st (obj_path obj_hash).

End store.

End hash_object.

(** * tree.py: the directory tree of one snapshot *)

Module tree.

(** A Python [dict] with [str] keys, in insertion order: assigning to a key
    that is present replaces the value where it stands, assigning to a new
    key appends. *)
Fixpoint dict_get {V} (key : string) (d : list (string * V)) : option V :=
  match d with
  | [] => None
  | (k, v) :: d' => if String.eqb k key then Some v else dict_get key d'
  end.

Fixpoint dict_set {V} (key : string) (value : V) (d : list (string * V))
    : list (string * V) :=
  match d with
  | [] => [(key, value)]
  | (k, v) :: d' =>
      if String.eqb k key then (k, value) :: d' else (k, v) :: dict_set key value d'
  end.

#[local] Unset Elimination Schemes.

(** [class TreeNode] *)
Inductive TreeNode := mkTreeNode {
  name : string;
  is_file : bool;
  content_hash : option string;
  children : list (string * TreeNode)
}.

Definition add_child (node child : TreeNode) : TreeNode :=
  mkTreeNode (name node) (is_file node) (content_hash node)
    (dict_set (name child) child (children node)).

Definition get_child (node : TreeNode) (child_name : string) : option TreeNode :=
  dict_get child_name (children node).

(** The dictionary [to_dict] returns: the keys 'name' and 'is_file' are
    always there, 'content_hash' only for a file, 'children' only for a
    directory. *)
Inductive NodeDict := mkNodeDict {
  d_name : string;
  d_is_file : bool;
  d_content_hash : option (option string);
  d_children : option (list (string * NodeDict))
}.

#[local] Set Elimination Schemes.

Fixpoint to_dict (node : TreeNode) : NodeDict :=
  match node with
  | mkTreeNode n f h cs =>
      if f then mkNodeDict n f (Some h) None
      else mkNodeDict n f None
             (Some (map (fun kc => (fst kc, to_dict (snd kc))) cs))
  end.

(** [from_dict]: [data.get('content_hash')] is [None] without the key;
    the children are re-added one by one, each under its own name. *)
Fixpoint from_dict (data : NodeDict) : TreeNode :=
  match data with
  | mkNodeDict n f h cs =>
      let node := mkTreeNode n f (mjoin h) [] in
      if f then node
      else
        match cs with
        | None => node
        | Some items =>
            foldl (fun node child_data => add_child node (from_dict (snd child_data)))
                  node items
        end
  end.

(** [class DirectoryTree] *)
Record DirectoryTree := mkDirectoryTree { root : TreeNode }.

Definition DirectoryTree_init : DirectoryTree :=
  mkDirectoryTree (mkTreeNode "." false None []).

(** [str.split(sep)] for a one-character separator. *)
Fixpoint split_from (sep : ascii) (cur : string) (s : string) : list string :=
  match s with
  | EmptyString => [cur]
  | String c s' =>
      if Ascii.eqb c sep then cur :: split_from sep EmptyString s'
      else split_from sep (cur ++ String c EmptyString) s'
  end.

Definition split (s : string) (sep : ascii) : list string := split_from sep EmptyString s.

(** The [for part in parts[:-1]] loop of [add_file] followed by the final
    [add_child]: the node reached is changed in place, which here means the
    parent holds the changed child under the key it was found under. *)
Fixpoint add_file_at (current : TreeNode) (dirs : list string)
    (file_node : TreeNode) : TreeNode :=
  match dirs with
  | [] => add_child current file_node
  | part :: rest =>
      let child :=
        match get_child current part with
        | Some child => child
        | None => mkTreeNode part false None []
        end in
      mkTreeNode (name current) (is_file current) (content_hash current)
        (dict_set part (add_file_at child rest file_node) (children current))
  end.

Definition add_file (t : DirectoryTree) (path content_hash : string) : DirectoryTree :=
  let parts := split path "/" in
  let file_node := mkTreeNode (List.last parts ""%string) true (Some content_hash) [] in
  mkDirectoryTree (add_file_at (root t) (removelast parts) file_node).

(** The [for part in parts] loop of [get_file_hash]. *)
Fixpoint descend (current : TreeNode) (parts : list string) : option TreeNode :=
  match parts with
  | [] => Some current
  | part :: rest =>
      match get_child current part with
      | None => None
      | Some child => descend child rest
      end
  end.

Definition get_file_hash (t : DirectoryTree) (path : string) : option string :=
  match descend (root t) (split path "/") with
  | None => None
  | Some node => if is_file node then content_hash node else None
  end.

(** The helper [dfs] of [list_all_files]; the result is what it appends to
    [files], in order. *)
Fixpoint dfs (node : TreeNode) (path : string) : list string :=
  match node with
  | mkTreeNode _ f _ cs =>
      if f then [path]
      else
        flat_map (fun kc =>
                    dfs (snd kc)
                        (if String.eqb path "" then fst kc
                         else (path ++ "/" ++ fst kc)%string)) cs
  end.

Definition list_all_files (t : DirectoryTree) : list string := dfs (root t) "".

Definition DirectoryTree_to_dict (t : DirectoryTree) : NodeDict := to_dict (root t).

Definition DirectoryTree_from_dict (data : NodeDict) : DirectoryTree :=
  mkDirectoryTree (from_dict data).

(** The loop of [Repository.commit] that builds the tree of a snapshot from
    the staged (path, hash) pairs. *)
Definition build (files : list (string * string)) : DirectoryTree :=
  foldl (fun t ph => add_file t (fst ph) (snd ph)) DirectoryTree_init files.

End tree.

(** * commit.py: commits and the walk along parent links *)

Module commit.
Import py hash_object.

(** [class Commit]; [hash] is set once the commit is stored or fetched.
    The timestamp is kept as its ISO text. *)
Record Commit := mkCommit {
  tree_hash : string;
  parent_hash : option string;
  message : string;
  author : string;
  timestamp : string;
  hash : option string
}.

(** The objects the repository pickles: file contents, the dict of a tree
    and commits. *)
Inductive pyobj :=
  | PyBytes (content : bytes)
  | PyTreeDict (data : tree.NodeDict)
  | PyCommit (c : Commit).

Definition set_hash (c : Commit) (commit_hash : string) : Commit :=
  mkCommit (tree_hash c) (parent_hash c) (message c) (author c) (timestamp c)
    (Some commit_hash).

Section history.
Context `{!Codec pyobj}.

(** [create_commit]; [now] is what [datetime.now()] returns.  The commit is
    pickled before its [hash] is set. *)
Definition create_commit (st : HashObject) (now : string)
    (tree_hash : string) (parent_hash : option string) (message author : string)
    : string * HashObject :=
  let commit := mkCommit tree_hash parent_hash message author now None in
  store_object st (PyCommit commit).

(** [get_commit]: setting [hash] on what is not a commit raises. *)
Definition get_commit (st : HashObject) (commit_hash : string) : result Commit :=
  match retrieve_object st commit_hash with
  | Raise e => Raise e
  | Ok (PyCommit c) => Ok (set_hash c commit_hash)
  | Ok _ => Raise AttributeError
  end.

(** The loops below follow parent links for as long as the store leads
    them on; [fuel] bounds the number of turns, and [None] is the answer of
    a loop that was stopped by it. *)

(** The [while current_hash is not None] loop of [get_commit_history]. *)
Fixpoint history_loop (fuel : nat) (st : HashObject) (max_count : option Z)
    (current_hash : option string) (count : Z) (history : list Commit)
    : option (result (list Commit)) :=
  match current_hash with
  | None => Some (Ok history)
  | Some h =>
      if truthy_int max_count && bool_decide (default 0%Z max_count <= count)%Z
      then Some (Ok history)
      else
        match fuel with
        | 0 => None
        | S fuel =>
            match get_commit st h with
            | Raise e => Some (Raise e)
            | Ok commit =>
                history_loop fuel st max_count (parent_hash commit)
                  (count + 1)%Z (history ++ [commit])
            end
        end
  end.

Definition get_commit_history (fuel : nat) (st : HashObject)
    (commit_hash : string) (max_count : option Z) : option (result (list Commit)) :=
  history_loop fuel st max_count (Some commit_hash) 0%Z [].

(** The first [while current] loop of [find_common_ancestor]. *)
Fixpoint ancestors_loop (fuel : nat) (st : HashObject)
    (current : option string) (ancestors1 : gset string)
    : option (result (gset string)) :=
  match current with
  | Some h =>
      if truthy_str current then
        match fuel with
        | 0 => None
        | S fuel =>
            let ancestors1 := {[h]} ∪ ancestors1 in
            match get_commit st h with
            | Raise e => Some (Raise e)
            | Ok commit => ancestors_loop fuel st (parent_hash commit) ancestors1
            end
        end
      else Some (Ok ancestors1)
  | None => Some (Ok ancestors1)
  end.

(** The second [while current] loop of [find_common_ancestor]. *)
Fixpoint search_loop (fuel : nat) (st : HashObject)
    (ancestors1 : gset string) (current : option string)
    : option (result (option string)) :=
  match current with
  | Some h =>
      if truthy_str current then
        match fuel with
        | 0 => None
        | S fuel =>
            if bool_decide (h ∈ ancestors1) then Some (Ok (Some h))
            else
              match get_commit st h with
              | Raise e => Some (Raise e)
              | Ok commit => search_loop fuel st ancestors1 (parent_hash commit)
              end
        end
      else Some (Ok None)
  | None => Some (Ok None)
  end.

Definition find_common_ancestor (fuel : nat) (st : HashObject)
    (commit1_hash commit2_hash : string) : option (result (option string)) :=
  match ancestors_loop fuel st (Some commit1_hash) ∅ with
  | None => None
  | Some (Raise e) => Some (Raise e)
  | Some (Ok ancestors1) => search_loop fuel st ancestors1 (Some commit2_hash)
  end.

(** The [while current] loop of [get_commit_count]. *)
Fixpoint count_loop (fuel : nat) (st : HashObject)
    (current : option string) (count : Z) : option (result Z) :=
  match current with
  | Some h =>
      if truthy_str current then
        match fuel with
        | 0 => None
        | S fuel =>
            match get_commit st h with
            | Raise e => Some (Raise e)
            | Ok commit => count_loop fuel st (parent_hash commit) (count + 1)%Z
            end
        end
      else Some (Ok count)
  | None => Some (Ok count)
  end.

Definition get_commit_count (fuel : nat) (st : HashObject)
    (commit_hash : string) : option (result Z) :=
  count_loop fuel st (Some commit_hash) 0%Z.

End history.

End commit.

(** * diff.py: line diff by longest-common-subsequence dynamic programming *)

Module diff.

(** A Python [str] is a [string]: a sequence of code points, here the ones
    below 256.  Lists of lines are [list string]. *)

(** [class DiffLine]: [line_type] is ["+"], ["-"] or [" "]. *)
Record DiffLine := mkDiffLine {
  line_type : string;
  content : string;
  line_num : nat
}.

(** [l[i]] on a list of lines and [dp[i][j]] on the table.  Every index the
    two loops below use is in range (the loop guards and short-circuit
    tests see to it), so the value chosen out of range is never observed. *)
Definition getitem (l : list string) (i : nat) : string := default ""%string (l !! i).

Definition cell (dp : list (list nat)) (i j : nat) : nat :=
  default 0 (dp !! i ≫= (.!! j)).

(** [dp[i][j] = v] *)
Definition setitem2 (dp : list (list nat)) (i j v : nat) : list (list nat) :=
  alter (<[j := v]>) i dp.

(** Body of the inner loop of [compute_lcs_length]. *)
Definition lcs_step (text1 text2 : list string) (i j : nat)
    (dp : list (list nat)) : list (list nat) :=
  if String.eqb (getitem text1 (i - 1)) (getitem text2 (j - 1))
  then setitem2 dp i j (cell dp (i - 1) (j - 1) + 1)
  else setitem2 dp i j (Nat.max (cell dp (i - 1) j) (cell dp i (j - 1))).

(** [compute_lcs_length]: the table starts as (m+1) rows of (n+1) zeros and
    is filled row by row, [i] over [range(1, m + 1)], [j] over
    [range(1, n + 1)]. *)
Definition compute_lcs_length (text1 text2 : list string) : list (list nat) :=
  let m := length text1 in
  let n := length text2 in
  let dp := replicate (m + 1) (replicate (n + 1) 0) in
  foldl (fun dp i => foldl (fun dp j => lcs_step text1 text2 i j dp) dp (seq 1 n))
        dp (seq 1 m).

Definition inspect {A} (a : A) : {b | a = b} := exist _ a eq_refl.

(** The [while i > 0 or j > 0] loop of [backtrack_diff]; [diff.append] adds
    at the end.  It terminates because [i + j] drops at every turn. *)
Equations? backtrack_loop (text1 text2 : list string) (dp : list (list nat))
    (i j : nat) (diff : list DiffLine) : list DiffLine by wf (i + j) lt :=
  backtrack_loop text1 text2 dp i j diff
    with inspect ((0 <? i)%nat || (0 <? j)%nat) := {
    | exist _ false _ := diff
    | exist _ true _
        with inspect ((0 <? i)%nat && (0 <? j)%nat &&
                      String.eqb (getitem text1 (i - 1)) (getitem text2 (j - 1))) := {
      | exist _ true _ :=
          backtrack_loop text1 text2 dp (i - 1) (j - 1)
            (diff ++ [mkDiffLine " " (getitem text1 (i - 1)) i])
      | exist _ false _
          with inspect ((0 <? j)%nat &&
                        ((i =? 0)%nat ||
                         (cell dp (i - 1) j <=? cell dp i (j - 1))%nat)) := {
        | exist _ true _ :=
            backtrack_loop text1 text2 dp i (j - 1)
              (diff ++ [mkDiffLine "+" (getitem text2 (j - 1)) 0])
        | exist _ false _ :=
            backtrack_loop text1 text2 dp (i - 1) j
              (diff ++ [mkDiffLine "-" (getitem text1 (i - 1)) i]) } } }.
Proof.
  all: destruct i, j; simpl in *; try discriminate; lia.
Qed.

Definition backtrack_diff (text1 text2 : list string)
    (dp : list (list nat)) : list DiffLine :=
  reverse (backtrack_loop text1 text2 dp (length text1) (length text2) []).

(** [str.splitlines()]: the line boundaries among the code points below 256
    are \n, \r, \r\n, \v, \f, \x1c, \x1d, \x1e and \x85; a boundary at the
    very end opens no further line. *)
Definition is_linebreak (c : ascii) : bool :=
  let n := nat_of_ascii c in
  (n =? 10)%nat || (n =? 11)%nat || (n =? 12)%nat || (n =? 13)%nat ||
  (n =? 28)%nat || (n =? 29)%nat || (n =? 30)%nat || (n =? 133)%nat.

Fixpoint splitlines_from (cur : string) (s : string) : list string :=
  match s with
  | EmptyString => if String.eqb cur "" then [] else [cur]
  | String c s' =>
      if is_linebreak c then
        cur :: match s' with
               | String c' s'' =>
                   if ((nat_of_ascii c =? 13)%nat && (nat_of_ascii c' =? 10)%nat)%bool
                   then splitlines_from "" s''
                   else splitlines_from "" s'
               | EmptyString => []
               end
      else splitlines_from (cur ++ String c "") s'
  end.

Definition splitlines (s : string) : list string := splitlines_from "" s.

(** [compute_diff]: [text.splitlines() if text else []] on both sides, then
    the table, then the backtracking. *)
Definition compute_diff (text1 text2 : string) : list DiffLine :=
  let lines1 := if String.eqb text1 "" then [] else splitlines text1 in
  let lines2 := if String.eqb text2 "" then [] else splitlines text2 in
  let dp := compute_lcs_length lines1 lines2 in
  backtrack_diff lines1 lines2 dp.

(** [diff_stats] counts additions and deletions. *)
Definition count_type (ty : string) (d : list DiffLine) : nat :=
  length (filter (fun l => line_type l = ty) d).

Definition diff_stats (d : list DiffLine) : nat * nat :=
  (count_type "+" d, count_type "-" d).

(** [DiffLine.__str__] *)
Definition DiffLine_str (l : DiffLine) : string :=
  (line_type l ++ " " ++ content l)%string.

(** [format_diff]: the fixed text for an empty diff, else the lines joined
    by line feeds. *)
Definition format_diff (d : list DiffLine) : string :=
  match d with
  | [] => "No changes"%string
  | _ :: _ => py.str_join py.newline (map DiffLine_str d)
  end.

(** [has_changes]: is there a line with type '+' or '-'. *)
Definition has_changes (d : list DiffLine) : bool :=
  existsb (fun l => String.eqb (line_type l) "+" || String.eqb (line_type l) "-") d.

End diff.

(** * merge.py: whole-file three-way merge *)

Module merge.

(** [class MergeConflict] *)
Record MergeConflict := mkMergeConflict {
  file_path : string;
  base : string;
  ours : string;
  theirs : string
}.

(** [class MergeResult]: the list of conflicts, the dict of merged files
    (path to content) and the success flag. *)
Record MergeResult := mkMergeResult {
  conflicts : list MergeConflict;
  merged_files : gmap string string;
  success : bool
}.

Definition MergeResult_init : MergeResult := mkMergeResult [] ∅ true.

Definition add_conflict (r : MergeResult) (conflict : MergeConflict) : MergeResult :=
  mkMergeResult (conflicts r ++ [conflict]) (merged_files r) false.

Definition add_merged_file (r : MergeResult) (path content : string) : MergeResult :=
  mkMergeResult (conflicts r) (<[path := content]> (merged_files r)) (success r).

Definition has_conflicts (r : MergeResult) : bool := (0 <? length (conflicts r))%nat.

(** [three_way_merge(base, ours, theirs) -> (merged_content, has_conflict)] *)
Definition three_way_merge (base ours theirs : string) : string * bool :=
  if String.eqb ours theirs then (ours, false)
  else if String.eqb ours base then (theirs, false)
  else if String.eqb theirs base then (ours, false)
  else (""%string, true).

(** [merge_files]: [None] is an absent file; the result is
    [(merged_content, conflict)]. *)
Definition merge_files (file_path : string)
    (base_content ours_content theirs_content : option string)
    : option string * option MergeConflict :=
  match base_content with
  | None =>
      match ours_content, theirs_content with
      | None, _ => (theirs_content, None)
      | Some _, None => (ours_content, None)
      | Some ours, Some theirs =>
          if String.eqb ours theirs then (ours_content, None)
          else (None, Some (mkMergeConflict file_path "" ours theirs))
      end
  | Some base =>
      match ours_content, theirs_content with
      | None, None => (None, None)
      | None, Some theirs =>
          if String.eqb theirs base then (None, None)
          else (None, Some (mkMergeConflict file_path base "" theirs))
      | Some ours, None =>
          if String.eqb ours base then (None, None)
          else (None, Some (mkMergeConflict file_path base ours ""))
      | Some ours, Some theirs =>
          let '(merged, has_conflict) := three_way_merge base ours theirs in
          if has_conflict
          then (None, Some (mkMergeConflict file_path base ours theirs))
          else (Some merged, None)
      end
  end.

(** Body of the [for path in all_paths] loop of [perform_merge].  A
    [MergeConflict] object is always truthy, so [if conflict] tests for
    [None]; [merged_content is not None] lets the empty string through. *)
Definition merge_path (base_files ours_files theirs_files : gmap string string)
    (result : MergeResult) (path : string) : MergeResult :=
  let '(merged_content, conflict) :=
    merge_files path (base_files !! path) (ours_files !! path) (theirs_files !! path) in
  match conflict with
  | Some c => add_conflict result c
  | None =>
      match merged_content with
      | Some content => add_merged_file result path content
      | None => result
      end
  end.

Definition all_paths (base_files ours_files theirs_files : gmap string string)
    : gset string :=
  dom base_files ∪ dom ours_files ∪ dom theirs_files.

(** [perform_merge] with the paths of the set taken in the order [order]:
    Python fixes no iteration order for a set. *)
Definition perform_merge_in (order : list string)
    (base_files ours_files theirs_files : gmap string string) : MergeResult :=
  foldl (merge_path base_files ours_files theirs_files) MergeResult_init order.

(** [order] is one way to iterate over [all_paths]. *)
Definition iterates (order : list string) (paths : gset string) : Prop :=
  NoDup order /\ forall p, p ∈ order <-> p ∈ paths.

(** [perform_merge] in the order [elements] happens to give. *)
Definition perform_merge (base_files ours_files theirs_files : gmap string string)
    : MergeResult :=
  perform_merge_in (elements (all_paths base_files ours_files theirs_files))
    base_files ours_files theirs_files.

End merge.

(** * The merge state machine as the specification words it *)

Module merge_spec.

Inductive verdict :=
  | Take (content : string)
  | Drop
  | Conflict.

(** The eight rules; for three absent sides the specification has no rule. *)
Definition state_machine (base ours theirs : option string) : option verdict :=
  match base, ours, theirs with
  (* 1. absent base, both present and equal: take; 3. different: conflict *)
  | None, Some o, Some t => if decide (o = t) then Some (Take o) else Some Conflict
  (* 2. absent base, only one present: take the present one *)
  | None, Some o, None => Some (Take o)
  | None, None, Some t => Some (Take t)
  | None, None, None => None
  (* 4. base present, both absent: drop *)
  | Some b, None, None => Some Drop
  (* 5. ours absent, theirs == base: drop; 6. theirs != base: conflict *)
  | Some b, None, Some t => if decide (t = b) then Some Drop else Some Conflict
  (* 7. the same with ours and theirs swapped *)
  | Some b, Some o, None => if decide (o = b) then Some Drop else Some Conflict
  (* 8. all three present *)
  | Some b, Some o, Some t =>
      if decide (o = t) then Some (Take o)
      else if decide (o = b) then Some (Take t)
      else if decide (t = b) then Some (Take o)
      else Some Conflict
  end.

(** How a result of [merge_files] reads as a verdict. *)
Definition verdict_of (r : option string * option merge.MergeConflict) : option verdict :=
  match r with
  | (Some content, None) => Some (Take content)
  | (None, None) => Some Drop
  | (None, Some _) => Some Conflict
  | (Some _, Some _) => None
  end.

End merge_spec.

(** * staging.py: the staging area and the status of files *)

Module staging.
Import py tree.

(** [file_path.replace('\\', '/')]: the backslash is the character 92. *)
Fixpoint normalize (file_path : string) : string :=
  match file_path with
  | EmptyString => EmptyString
  | String c rest =>
      String (if Ascii.eqb c "092" then "/"%char else c) (normalize rest)
  end.

(** [del d[key]] on a dict that holds [key]: the other entries keep their
    order. *)
Fixpoint dict_del {V} (key : string) (d : list (string * V)) : list (string * V) :=
  match d with
  | [] => []
  | (k, v) :: d' => if String.eqb k key then d' else (k, v) :: dict_del key d'
  end.

(** [class StagingArea]: [staged_files] maps a path to a content hash and
    keeps the order in which the paths were first staged. *)
Record StagingArea := mkStagingArea {
  staged_files : list (string * string)
}.

Definition StagingArea_init : StagingArea := mkStagingArea [].

Definition add_file (s : StagingArea) (file_path content_hash : string) : StagingArea :=
  let normalized_path := normalize file_path in
  mkStagingArea (dict_set normalized_path content_hash (staged_files s)).

Definition remove_file (s : StagingArea) (file_path : string) : StagingArea :=
  let normalized_path := normalize file_path in
  match dict_get normalized_path (staged_files s) with
  | Some _ => mkStagingArea (dict_del normalized_path (staged_files s))
  | None => s
  end.

Definition get_file_hash (s : StagingArea) (file_path : string) : option string :=
  let normalized_path := normalize file_path in
  dict_get normalized_path (staged_files s).

Definition is_staged (s : StagingArea) (file_path : string) : bool :=
  let normalized_path := normalize file_path in
  match dict_get normalized_path (staged_files s) with
  | Some _ => true
  | None => false
  end.

Definition get_staged_files (s : StagingArea) : list (string * string) :=
  staged_files s.

Definition clear (s : StagingArea) : StagingArea := mkStagingArea [].

Definition is_empty (s : StagingArea) : bool := (length (staged_files s) =? 0)%nat.

Definition get_file_count (s : StagingArea) : nat := length (staged_files s).

(** The dict of six lists that [FileStatus.get_status] returns. *)
Record Status := mkStatus {
  staged_new : list string;
  staged_modified : list string;
  staged_deleted : list string;
  not_staged_modified : list string;
  not_staged_deleted : list string;
  untracked : list string
}.

Definition Status_init : Status := mkStatus [] [] [] [] [] [].

(** Body of the [for path in all_paths] loop of [get_status].  [!=] between
    two optional hashes is inequality of the options. *)
Definition status_path (working_files staged_files committed_files : gmap string string)
    (status : Status) (path : string) : Status :=
  let working_hash := working_files !! path in
  let staged_hash := staged_files !! path in
  let committed_hash := committed_files !! path in
  match staged_hash with
  | Some sh =>
      let status :=
        match committed_hash with
        | None =>
            mkStatus (staged_new status ++ [path]) (staged_modified status)
              (staged_deleted status) (not_staged_modified status)
              (not_staged_deleted status) (untracked status)
        | Some ch =>
            if negb (String.eqb sh ch)
            then mkStatus (staged_new status) (staged_modified status ++ [path])
                   (staged_deleted status) (not_staged_modified status)
                   (not_staged_deleted status) (untracked status)
            else status
        end in
      match working_hash with
      | None =>
          mkStatus (staged_new status) (staged_modified status)
            (staged_deleted status) (not_staged_modified status)
            (not_staged_deleted status ++ [path]) (untracked status)
      | Some wh =>
          if negb (String.eqb wh sh)
          then mkStatus (staged_new status) (staged_modified status)
                 (staged_deleted status) (not_staged_modified status ++ [path])
                 (not_staged_deleted status) (untracked status)
          else status
      end
  | None =>
      match committed_hash with
      | Some ch =>
          match working_hash with
          | None =>
              mkStatus (staged_new status) (staged_modified status)
                (staged_deleted status) (not_staged_modified status)
                (not_staged_deleted status ++ [path]) (untracked status)
          | Some wh =>
              if negb (String.eqb wh ch)
              then mkStatus (staged_new status) (staged_modified status)
                     (staged_deleted status) (not_staged_modified status ++ [path])
                     (not_staged_deleted status) (untracked status)
              else status
          end
      | None =>
          match working_hash with
          | Some _ =>
              mkStatus (staged_new status) (staged_modified status)
                (staged_deleted status) (not_staged_modified status)
                (not_staged_deleted status) (untracked status ++ [path])
          | None => status
          end
      end
  end.

Definition all_paths (working_files staged_files committed_files : gmap string string)
    : gset string :=
  dom working_files ∪ dom staged_files ∪ dom committed_files.

(** [FileStatus.get_status] with the paths of the set taken in the order
    [order]. *)
Definition get_status_in (order : list string)
    (working_files staged_files committed_files : gmap string string) : Status :=
  foldl (status_path working_files staged_files committed_files) Status_init order.

(** [get_status] in the order [elements] happens to give. *)
Definition get_status (working_files staged_files committed_files : gmap string string)
    : Status :=
  get_status_in (elements (all_paths working_files staged_files committed_files))
    working_files staged_files committed_files.

End staging.

(** * branch.py: branches and the current branch *)

Module branch.

(** [class Branch] *)
Record Branch := mkBranch {
  name : string;
  commit_hash : string
}.

Definition update (b : Branch) (commit_hash : string) : Branch :=
  mkBranch (name b) commit_hash.

(** [class BranchManager] *)
Record BranchManager := mkBranchManager {
  branches : gmap string Branch;
  current_branch : option string
}.

Definition BranchManager_init : BranchManager := mkBranchManager ∅ None.

Definition branch_exists (m : BranchManager) (name : string) : bool :=
  bool_decide (is_Some (branches m !! name)).

(** The methods that change the manager return their answer and the manager
    after the call. *)
Definition create_branch (m : BranchManager) (name commit_hash : string)
    : bool * BranchManager :=
  if bool_decide (is_Some (branches m !! name)) then (false, m)
  else (true, mkBranchManager (<[name := mkBranch name commit_hash]> (branches m))
                (current_branch m)).

Definition delete_branch (m : BranchManager) (name : string) : bool * BranchManager :=
  if negb (bool_decide (is_Some (branches m !! name)))
     || bool_decide (Some name = current_branch m)
  then (false, m)
  else (true, mkBranchManager (delete name (branches m)) (current_branch m)).

Definition get_branch (m : BranchManager) (name : string) : option Branch :=
  branches m !! name.

(** [update_branch]: [branch.update] changes the object that the dict holds
    under [name]. *)
Definition update_branch (m : BranchManager) (name commit_hash : string)
    : bool * BranchManager :=
  match get_branch m name with
  | None => (false, m)
  | Some branch =>
      (true, mkBranchManager (<[name := update branch commit_hash]> (branches m))
               (current_branch m))
  end.

Definition switch_branch (m : BranchManager) (name : string) : bool * BranchManager :=
  if negb (bool_decide (is_Some (branches m !! name))) then (false, m)
  else (true, mkBranchManager (branches m) (Some name)).

Definition get_current_branch (m : BranchManager) : option string := current_branch m.

Definition get_current_commit (m : BranchManager) : option string :=
  match current_branch m with
  | None => None
  | Some current =>
      match get_branch m current with
      | Some branch => Some (commit_hash branch)
      | None => None
      end
  end.

End branch.

(** * repository.py: the repository over the store, the branches and the
      staging area *)

Module repository.
Import py hash_object commit.

(** The components of an initialised [Repository]; of [config] the code
    reads the author only. *)
Record Repository := mkRepository {
  hash_object : HashObject;
  branch_manager : branch.BranchManager;
  staging_area : staging.StagingArea;
  config_author : option string
}.

Section repository.
Context `{!Codec pyobj}.

(** [init] on a directory that holds no repository yet. *)
Definition init (author : string) : Repository :=
  let branch_manager := branch.BranchManager_init in
  let branch_manager := snd (branch.create_branch branch_manager "main" "") in
  let branch_manager := snd (branch.switch_branch branch_manager "main") in
  mkRepository HashObject_init branch_manager staging.StagingArea_init (Some author).

(** [commit]: [now] is what [datetime.now()] returns in [create_commit].
    The answer is the commit hash, or [None] when nothing is staged. *)
Definition commit (repo : Repository) (now message : string)
    : option string * Repository :=
  if staging.is_empty (staging_area repo) then (None, repo)
  else
    let tree := tree.build (staging.get_staged_files (staging_area repo)) in
    let '(tree_hash, st) :=
      store_object (hash_object repo) (PyTreeDict (tree.DirectoryTree_to_dict tree)) in
    let parent_hash := branch.get_current_commit (branch_manager repo) in
    let parent_hash :=
      match parent_hash with
      | Some h => if String.eqb h "" then None else parent_hash
      | None => None
      end in
    let author := default "Unknown"%string (config_author repo) in
    let '(commit_hash, st) := create_commit st now tree_hash parent_hash message author in
    let current_branch := branch.get_current_branch (branch_manager repo) in
    let branch_manager :=
      match current_branch with
      | Some current => snd (branch.update_branch (branch_manager repo) current commit_hash)
      | None => branch_manager repo
      end in
    (Some commit_hash,
     mkRepository st branch_manager (staging.clear (staging_area repo))
       (config_author repo)).

(** [log] *)
Definition log (fuel : nat) (repo : Repository) (max_count : option Z)
    : option (result (list Commit)) :=
  match branch.get_current_commit (branch_manager repo) with
  | None => Some (Ok [])
  | Some current_commit =>
      if String.eqb current_commit "" then Some (Ok [])
      else get_commit_history fuel (hash_object repo) current_commit max_count
  end.

(** [branch(branch_name)] with [delete=False]: a new branch at the current
    commit. *)
Definition create_branch (repo : Repository) (branch_name : string) : bool * Repository :=
  match branch.get_current_commit (branch_manager repo) with
  | None => (false, repo)
  | Some current_commit =>
      if String.eqb current_commit "" then (false, repo)
      else
        let '(success, branch_manager) :=
          branch.create_branch (branch_manager repo) branch_name current_commit in
        (success,
         mkRepository (hash_object repo) branch_manager (staging_area repo)
           (config_author repo))
  end.

(** [checkout]: the staging area is cleared when the switch succeeds. *)
Definition checkout (repo : Repository) (branch_name : string) : bool * Repository :=
  if negb (branch.branch_exists (branch_manager repo) branch_name) then (false, repo)
  else
    let '(success, branch_manager) :=
      branch.switch_branch (branch_manager repo) branch_name in
    if success
    then (true, mkRepository (hash_object repo) branch_manager
                  (staging.clear (staging_area repo)) (config_author repo))
    else (false, repo).

End repository.

End repository.

(** * Notions used to state the properties of the tree *)

Module tree_spec.
Import tree.

(** The components of [q] are those of [p] followed by at least one more. *)
Definition strictly_extends (q p : list string) : Prop :=
  exists rest, rest <> [] /\ q = p ++ rest.

(** No path of the list is, component by component, a proper prefix of
    another one. *)
Definition prefix_free (paths : list string) : Prop :=
  forall p q, p ∈ paths -> q ∈ paths ->
    ~ strictly_extends (split q "/") (split p "/").

#[local] Unset Elimination Schemes.

(** Every children dict has distinct keys and holds each child under the
    child's own name, as [add_child] leaves it. *)
Inductive keyed : TreeNode -> Prop :=
  | keyed_node n f h cs :
      NoDup (map fst cs) ->
      Forall (fun kc => fst kc = name (snd kc) /\ keyed (snd kc)) cs ->
      keyed (mkTreeNode n f h cs).

(** A snapshot in which files are leaves and directories carry no hash. *)
Inductive well_formed : TreeNode -> Prop :=
  | well_formed_file n h : well_formed (mkTreeNode n true h [])
  | well_formed_dir n cs :
      NoDup (map fst cs) ->
      Forall (fun kc => fst kc = name (snd kc) /\ well_formed (snd kc)) cs ->
      well_formed (mkTreeNode n false None cs).

#[local] Set Elimination Schemes.

(** What survives serialization: the children of a file node and the hash
    of a directory node do not. *)
Fixpoint prune (node : TreeNode) : TreeNode :=
  match node with
  | mkTreeNode n f h cs =>
      if f then mkTreeNode n f h []
      else mkTreeNode n f None (map (fun kc => (fst kc, prune (snd kc))) cs)
  end.

(** The walk of [add_file] along [dirs] starting at [current] never goes
    through a file node. *)
Fixpoint passable (current : TreeNode) (dirs : list string) : Prop :=
  is_file current = false /\
  match dirs with
  | [] => True
  | part :: rest =>
      match get_child current part with
      | None => True
      | Some child => passable child rest
      end
  end.

(** Every file node of the tree sits at the components of one of [paths]. *)
Definition files_at (t : DirectoryTree) (paths : list string) : Prop :=
  forall parts node,
    descend (root t) parts = Some node -> is_file node = true ->
    exists p, p ∈ paths /\ split p "/" = parts.

(** The string has no [sep] in it, as every component that [split] gives. *)
Fixpoint free_of (sep : ascii) (s : string) : bool :=
  match s with
  | EmptyString => true
  | String c s' => negb (Ascii.eqb c sep) && free_of sep s'
  end.

(** Induction over a tree and all the nodes below it. *)

Fixpoint TreeNode_ind (P : TreeNode -> Prop)
    (step : forall n f h cs, Forall (fun kc => P (snd kc)) cs -> P (mkTreeNode n f h cs))
    (t : TreeNode) : P t :=
  match t with
  | mkTreeNode n f h cs =>
      step n f h cs
        ((fix all (cs : list (string * TreeNode)) : Forall (fun kc => P (snd kc)) cs :=
            match cs with
            | [] => @List.Forall_nil _ _
            | kc :: cs' => @List.Forall_cons _ _ kc cs' (TreeNode_ind P step (snd kc)) (all cs')
            end) cs)
  end.

End tree_spec.

(** * Notions used to state the properties of the store and of the walks *)

Module commit_spec.
Import py hash_object commit.

Section chains.
Context `{!Codec pyobj}.

(** The commits met from [current] to the root, child first: every hash on
    the way is a non-empty hash under which the store holds a commit, and
    the last commit has a null parent. *)
Inductive chain (st : HashObject) : option string -> list Commit -> Prop :=
  | chain_root : chain st None []
  | chain_link h c cs :
      h <> ""%string ->
      get_commit st h = Ok c ->
      chain st (parent_hash c) cs ->
      chain st (Some h) (c :: cs).


End chains.

(** The hashes of a list of fetched commits. *)
Definition ids (cs : list Commit) : list string := omap hash cs.

(** Walking along [l2], the first hash that lies in [l1]. *)
Definition first_shared (l1 l2 : list string) : option string :=
  List.find (fun h => bool_decide (h ∈ l1)) l2.

(** What the test on [max_count] lets [get_commit_history] return of a
    chain when [count] commits are already taken: 0 and [None] are both no
    limit. *)
Definition limited (max_count : option Z) (count : Z) (cs : list Commit) : list Commit :=
  if truthy_int max_count
  then take (Z.to_nat (default 0%Z max_count - count)) cs
  else cs.

(** Every file of the store is named by the hash of its content. *)
Definition content_addressed `{!Codec Obj} (st : HashObject) : Prop :=
  forall path content,
    files st !! path = Some content -> path = obj_path (hash_content content).

(** The store holds no other payload under the identifier of [payload]. *)
Definition no_collision `{!Codec Obj} (st : HashObject) (payload : bytes) : Prop :=
  forall content,
    files st !! obj_path (hash_content payload) = Some content -> content = payload.

End commit_spec.

(** * A small concrete interpreter, to run the model on examples *)

Module example.
Import py hash_object commit.

(** Four commits A <- B <- C <- D, pickled as their message and hashed by
    doubling that letter and appending 00 (000 stands for the empty
    content, so that every digest is longer than a subdirectory name). *)
Definition digest (content : bytes) : string :=
  match content with
  | EmptyString => "000"%string
  | String c rest => String c (rest ++ String c rest ++ "00")%string
  end.

Definition digest_long (content : bytes) : 2 < String.length (digest content).
Proof.
  destruct content as [|c [|c' [|c'' rest]]];
    cbv [digest String.append String.length]; lia.
Qed.

Definition commit_of (content : bytes) : option Commit :=
  if String.eqb content "A" then Some (mkCommit "t0" None "A" "me" "d0" None)
  else if String.eqb content "B" then Some (mkCommit "t1" (Some (digest "A")) "B" "me" "d1" None)
  else if String.eqb content "C" then Some (mkCommit "t2" (Some (digest "B")) "C" "me" "d2" None)
  else if String.eqb content "D" then Some (mkCommit "t3" (Some (digest "C")) "D" "me" "d3" None)
  else None.

#[export] Instance codec : Codec pyobj := {|
  pickle_dumps obj :=
    match obj with
    | PyCommit c => message c
    | PyBytes content => content
    | PyTreeDict _ => ""%string
    end;
  pickle_loads content :=
    match commit_of content with
    | Some c => Some (PyCommit c)
    | None => Some (PyBytes content)
    end;
  pickle_error content :=
    if String.eqb content "" then "EOFError"%string else "UnpicklingError"%string;
  sha1_hexdigest := digest;
  sha1_hexdigest_long := digest_long
|}.

(** The store after committing A, B, C and D in turn. *)
Definition store_A : HashObject :=
  snd (create_commit HashObject_init "d0" "t0" None "A" "me").
Definition store_AB : HashObject :=
  snd (create_commit store_A "d1" "t1" (Some (digest "A")) "B" "me").
Definition store_ABC : HashObject :=
  snd (create_commit store_AB "d2" "t2" (Some (digest "B")) "C" "me").
Definition store_ABCD : HashObject :=
  snd (create_commit store_ABC "d3" "t3" (Some (digest "C")) "D" "me").


(** The four commits as [get_commit] hands them out. *)
Definition commit_A : Commit := mkCommit "t0" None "A" "me" "d0" (Some "AA00"%string).
Definition commit_B : Commit :=
  mkCommit "t1" (Some "AA00"%string) "B" "me" "d1" (Some "BB00"%string).
Definition commit_C : Commit :=
  mkCommit "t2" (Some "BB00"%string) "C" "me" "d2" (Some "CC00"%string).
Definition commit_D : Commit :=
  mkCommit "t3" (Some "CC00"%string) "D" "me" "d3" (Some "DD00"%string).

End example.

(** * The diff engine as the specification words it *)

Module diff_spec.
Import diff.

(** The table of the specification: cell (i, j) by the standard recurrence
    (match: diagonal + 1; mismatch: max of the up and left neighbours). *)
Fixpoint lcs_cell (a b : list string) (i j : nat) {struct i} : nat :=
  match i with
  | 0 => 0
  | S i' =>
      (fix row (j : nat) : nat :=
         match j with
         | 0 => 0
         | S j' =>
             if String.eqb (getitem a i') (getitem b j')
             then lcs_cell a b i' j' + 1
             else Nat.max (lcs_cell a b i' (S j')) (row j')
         end) j
  end.

(** The whole (m+1) x (n+1) table of the specification. *)
Definition spec_table (a b : list string) : list (list nat) :=
  (fun i => (fun j => lcs_cell a b i j) <$> seq 0 (length b + 1)) <$> seq 0 (length a + 1).

(** A table of (m+1) rows of (n+1) cells. *)
Definition table_dims (m n : nat) (dp : list (list nat)) : Prop :=
  length dp = m + 1 /\ forall r row, dp !! r = Some row -> length row = n + 1.

(** Loop invariant of [compute_lcs_length]: the shape of the table, and the
    cells done before the loops reach cell (i, j). *)
Definition filled_before (a b : list string) (i j : nat) (dp : list (list nat)) : Prop :=
  table_dims (length a) (length b) dp /\
  forall r c, r <= length a -> c <= length b ->
    r = 0 \/ c = 0 \/ r < i \/ (r = i /\ c < j) ->
    cell dp r c = lcs_cell a b r c.

(** Backtracking from cell (i, j) as the specification words it, in the
    order the steps are taken: unchanged and a diagonal step on a match,
    else added when the left neighbour is at least the up neighbour, else
    removed.  On the border only one direction is left. *)
Fixpoint spec_backtrack (a b : list string) (i j : nat) {struct i} : list DiffLine :=
  match i with
  | 0 =>
      (fix adds (j : nat) : list DiffLine :=
         match j with
         | 0 => []
         | S j' => mkDiffLine "+" (getitem b j') 0 :: adds j'
         end) j
  | S i' =>
      (fix row (j : nat) : list DiffLine :=
         match j with
         | 0 => mkDiffLine "-" (getitem a i') (S i') :: spec_backtrack a b i' 0
         | S j' =>
             if String.eqb (getitem a i') (getitem b j')
             then mkDiffLine " " (getitem a i') (S i') :: spec_backtrack a b i' j'
             else if (lcs_cell a b i' (S j') <=? lcs_cell a b (S i') j')%nat
             then mkDiffLine "+" (getitem b j') 0 :: row j'
             else mkDiffLine "-" (getitem a i') (S i') :: spec_backtrack a b i' (S j')
         end) j
  end.

(** The lines of a text, as [compute_diff] takes them. *)
Definition lines_of (text : string) : list string :=
  if String.eqb text "" then [] else splitlines text.

(** Projections of an edit script. *)
Definition removed_plus_unchanged (d : list DiffLine) : list string :=
  content <$> filter (fun l => line_type l = "-"%string \/ line_type l = " "%string) d.

Definition added_plus_unchanged (d : list DiffLine) : list string :=
  content <$> filter (fun l => line_type l = "+"%string \/ line_type l = " "%string) d.

Definition unchanged_lines (d : list DiffLine) : list string :=
  content <$> filter (fun l => line_type l = " "%string) d.

(** [n] is the length of a longest common subsequence of [a] and [b]. *)
Definition is_lcs_length (a b : list string) (n : nat) : Prop :=
  (exists s, sublist s a /\ sublist s b /\ length s = n) /\
  (forall s, sublist s a -> sublist s b -> length s <= n).

(** Swapping the added and removed labels of a script. *)
Definition swap_label (l : DiffLine) : DiffLine :=
  if String.eqb (line_type l) "+" then mkDiffLine "-" (content l) (line_num l)
  else if String.eqb (line_type l) "-" then mkDiffLine "+" (content l) (line_num l)
  else l.

(** A line of a script without its line number. *)
Definition labelled (l : DiffLine) : string * string := (line_type l, content l).

(** A line feed, to write texts of several lines. *)
Definition LF : string := String (ascii_of_nat 10) EmptyString.

End diff_spec.

(** * Further notions for the properties of the whole modules *)

Module extra_spec.
Import py hash_object tree diff merge.

(** Storing a list of objects one after the other. *)
Definition store_all `{!Codec Obj} (st : HashObject) (objs : list Obj) : HashObject :=
  foldl (fun st obj => snd (store_object st obj)) st objs.

(** The hash [get_file_hash] reads off the node reached from [current]. *)
Definition file_hash_at (current : TreeNode) (parts : list string) : option string :=
  match descend current parts with
  | None => None
  | Some node => if is_file node then content_hash node else None
  end.

(** The path [dfs] has in hand at the node reached through the components
    [parts] from a node that it entered with [path]. *)
Fixpoint dfs_path (path : string) (parts : list string) : string :=
  match parts with
  | [] => path
  | part :: rest =>
      dfs_path (if String.eqb path "" then part else (path ++ "/" ++ part)%string) rest
  end.

(** The removed and unchanged lines of a script, each with the number the
    script gives it. *)
Definition old_numbered (d : list DiffLine) : list (string * nat) :=
  (fun l => (content l, line_num l)) <$>
  filter (fun l => line_type l = "-"%string \/ line_type l = " "%string) d.

(** A conflict with its two sides exchanged. *)
Definition swap_sides (c : MergeConflict) : MergeConflict :=
  mkMergeConflict (file_path c) (base c) (theirs c) (ours c).

(** The calls that change a [BranchManager], and the manager reached from
    a fresh one by a sequence of such calls. *)
Inductive branch_call :=
  | CreateBranch (name commit_hash : string)
  | DeleteBranch (name : string)
  | UpdateBranch (name commit_hash : string)
  | SwitchBranch (name : string).

Definition do_branch_call (m : branch.BranchManager) (c : branch_call)
    : branch.BranchManager :=
  match c with
  | CreateBranch name commit_hash => snd (branch.create_branch m name commit_hash)
  | DeleteBranch name => snd (branch.delete_branch m name)
  | UpdateBranch name commit_hash => snd (branch.update_branch m name commit_hash)
  | SwitchBranch name => snd (branch.switch_branch m name)
  end.

Definition after_branch_calls (calls : list branch_call) : branch.BranchManager :=
  foldl do_branch_call branch.BranchManager_init calls.

(** The current branch, when there is one, is a branch of the manager, and
    every branch is filed under its own name. *)
Definition branch_consistent (m : branch.BranchManager) : Prop :=
  (forall b, branch.current_branch m = Some b -> is_Some (branch.branches m !! b)) /\
  (forall n br, branch.branches m !! n = Some br -> branch.name br = n).

End extra_spec.

(** * A second small interpreter, for a repository with one staged file *)

Module example_repo.
Import py hash_object commit.

(** The dict of the tree that holds the file a.txt alone. *)
Definition staged_tree : tree.NodeDict :=
  tree.DirectoryTree_to_dict (tree.build [("a.txt", "h1")]%string).

(** A pickle that tells trees, commits and file contents apart by a first
    letter; the one tree it knows is [staged_tree], and commits are root
    commits of that tree.  The empty content is no pickle: on it
    [pickle.loads] raises EOFError. *)
Definition codec : Codec pyobj := {|
  pickle_dumps obj :=
    match obj with
    | PyCommit c => String "C" (message c)
    | PyBytes content => String "B" content
    | PyTreeDict _ => "T"%string
    end;
  pickle_loads content :=
    match content with
    | EmptyString => None
    | String tag rest =>
        if Ascii.eqb tag "T" then Some (PyTreeDict staged_tree)
        else if Ascii.eqb tag "C"
        then Some (PyCommit (mkCommit "TT00" None rest "me" "d0" None))
        else Some (PyBytes rest)
    end;
  pickle_error content := "EOFError"%string;
  sha1_hexdigest := example.digest;
  sha1_hexdigest_long := example.digest_long
|}.

(** A fresh repository of the author me, with a.txt staged. *)
Definition repo_staged : repository.Repository :=
  let repo := repository.init "me" in
  repository.mkRepository (repository.hash_object repo)
    (repository.branch_manager repo)
    (staging.add_file (repository.staging_area repo) "a.txt" "h1")
    (repository.config_author repo).

End example_repo.

(** * Proofs about the object store *)

Module hash_object_proofs.
Import py hash_object commit_spec.

Lemma str_take_drop n s : (str_take n s ++ str_drop n s)%string = s.
Proof.
  revert s. induction n as [|n IH]; intros [|c s]; simpl; try done.
  change (String c (str_take n s ++ str_drop n s) = String c s). by rewrite IH.
Qed.

Lemma obj_path_inj h h' : obj_path h = obj_path h' -> h = h'.
Proof.
  intros H.
  assert (str_take 2 h = str_take 2 h') as Ht by exact (f_equal fst H).
  assert (str_drop 2 h = str_drop 2 h') as Hd by exact (f_equal snd H).
  by rewrite <- (str_take_drop 2 h), <- (str_take_drop 2 h'), Ht, Hd.
Qed.

Section store.
Context {Obj : Type} `{!Codec Obj}.

Lemma path_exists_file st path :
  snd path <> ""%string ->
  path_exists st path = bool_decide (is_Some (files st !! path)).
Proof. intros Hne. unfold path_exists. by apply String.eqb_neq in Hne as ->. Qed.

Lemma path_exists_true st path :
  snd path <> ""%string -> path_exists st path = true <-> is_Some (files st !! path).
Proof. intros Hne. rewrite path_exists_file by done. apply bool_decide_eq_true. Qed.

Lemma path_exists_false st path :
  snd path <> ""%string -> path_exists st path = false <-> files st !! path = None.
Proof.
  intros Hne. rewrite path_exists_file by done.
  rewrite bool_decide_eq_false. by rewrite eq_None_not_Some.
Qed.



Lemma str_drop_long n s : n < String.length s -> str_drop n s <> ""%string.
Proof.
  revert s. induction n as [|n IH]; intros [|c s]; simpl; try lia; [done|].
  intros Hn. apply IH. lia.
Qed.


(** The path of a digest is the path of a file. *)
Lemma digest_path content : snd (obj_path (hash_content content)) <> ""%string.
Proof. apply str_drop_long, sha1_hexdigest_long. Qed.

Lemma store_object_hash st obj : fst (store_object st obj) = hash_content (pickle_dumps obj).
Proof. unfold store_object. cbv zeta. by destruct (negb _). Qed.

Lemma store_object_files st obj :
  files (snd (store_object st obj)) =
  match files st !! obj_path (hash_content (pickle_dumps obj)) with
  | Some _ => files st
  | None => <[obj_path (hash_content (pickle_dumps obj)) := pickle_dumps obj]> (files st)
  end.
Proof.
  unfold store_object. cbv zeta. rewrite path_exists_file by apply digest_path. simpl.
  destruct (files st !! obj_path (hash_content (pickle_dumps obj))) as [content|] eqn:Hf.
  - rewrite bool_decide_eq_true_2 by eauto. done.
  - rewrite bool_decide_eq_false_2 by (by intros [? ?]). done.
Qed.

Lemma store_object_subdirs st obj :
  subdirs (snd (store_object st obj)) =
  {[str_take 2 (hash_content (pickle_dumps obj))]} ∪ subdirs st.
Proof. unfold store_object. cbv zeta. by destruct (negb _). Qed.

Lemma HashObject_eq st st' :
  subdirs st = subdirs st' -> files st = files st' -> st = st'.
Proof. destruct st, st'; simpl; by intros -> ->. Qed.

(** C6.  Storing the same payload bytes a second time returns the same
    identifier and leaves the store as the first call left it: nothing is
    written.  In a store whose files are named by the hash of their content
    and that holds no colliding payload, the store then holds the payload
    under that identifier, and under no other name. *)
Theorem store_object_twice (st : HashObject) (obj obj' : Obj) :
  pickle_dumps obj' = pickle_dumps obj ->
  let r1 := store_object st obj in
  let r2 := store_object (snd r1) obj' in
  fst r2 = fst r1 /\
  snd r2 = snd r1 /\
  (content_addressed st -> no_collision st (pickle_dumps obj) ->
   files (snd r2) !! obj_path (fst r1) = Some (pickle_dumps obj) /\
   forall path, files (snd r2) !! path = Some (pickle_dumps obj) ->
                path = obj_path (fst r1)).
Proof.
  intros Hsame. cbv zeta.
  assert (snd (store_object (snd (store_object st obj)) obj') = snd (store_object st obj))
    as Hst.
  { apply HashObject_eq.
    - rewrite !store_object_subdirs, Hsame.
      by rewrite (assoc_L (∪)), (idemp_L (∪)).
    - rewrite (store_object_files (snd _)), Hsame, store_object_files.
      destruct (files st !! _) as [content|] eqn:Hf; [by rewrite Hf|].
      by rewrite lookup_insert_eq. }
  split_and!.
  - by rewrite !store_object_hash, Hsame.
  - exact Hst.
  - intros Hca Hnc. rewrite Hst, store_object_hash, store_object_files.
    destruct (files st !! _) as [content|] eqn:Hf.
    + split; [by rewrite Hf, (Hnc _ Hf)|]. intros path Hp. by apply Hca in Hp.
    + split; [by rewrite lookup_insert_eq|]. intros path.
      destruct (decide (obj_path (hash_content (pickle_dumps obj)) = path)) as [<-|Hne];
        [done|].
      rewrite lookup_insert_ne by done. intros Hp. by apply Hca in Hp.
Qed.

(** [retrieve_object] returns the unpickled content of the file when there
    is one, raises [FileNotFoundError] when the existence test fails and
    [IsADirectoryError] when the path that exists is a directory. *)
Lemma retrieve_object_present st obj_hash content :
  str_drop 2 obj_hash <> ""%string ->
  files st !! obj_path obj_hash = Some content ->
  retrieve_object st obj_hash =
  match pickle_loads content with
  | Some obj => Ok obj
  | None => Raise (LoadsError (pickle_error content))
  end.
Proof.
  intros Hne Hf. unfold retrieve_object. cbv zeta.
  assert (path_exists st (obj_path obj_hash) = true) as ->
    by (apply path_exists_true; eauto).
  cbn [negb]. change (snd (obj_path obj_hash)) with (str_drop 2 obj_hash).
  apply String.eqb_neq in Hne as ->. by rewrite Hf.
Qed.

Lemma retrieve_object_absent st obj_hash :
  path_exists st (obj_path obj_hash) = false ->
  retrieve_object st obj_hash = Raise (FileNotFoundError obj_hash).
Proof. intros Hf. unfold retrieve_object. cbv zeta. by rewrite Hf. Qed.

Lemma retrieve_object_directory st obj_hash :
  str_drop 2 obj_hash = ""%string ->
  path_exists st (obj_path obj_hash) = true ->
  retrieve_object st obj_hash = Raise (IsADirectoryError obj_hash).
Proof.
  intros He Hf. unfold retrieve_object. cbv zeta. rewrite Hf. cbn [negb].
  change (snd (obj_path obj_hash)) with (str_drop 2 obj_hash). by rewrite He.
Qed.


Lemma retrieve_object_Ok st obj_hash obj :
  retrieve_object st obj_hash = Ok obj ->
  str_drop 2 obj_hash <> ""%string /\
  exists content, files st !! obj_path obj_hash = Some content /\
                  pickle_loads content = Some obj.
Proof.
  destruct (path_exists st (obj_path obj_hash)) eqn:Hex.
  - destruct (String.eqb_spec (str_drop 2 obj_hash) "") as [He|Hne].
    + by rewrite retrieve_object_directory.
    + apply path_exists_true in Hex as [content Hf]; [|done].
      rewrite (retrieve_object_present _ _ _ Hne Hf).
      destruct (pickle_loads content) as [obj'|] eqn:Hl; [|done].
      intros [= ->]. split; [done|]. by exists content.
  - by rewrite (retrieve_object_absent _ _ Hex).
Qed.

End store.

End hash_object_proofs.

(** * Proofs about the walks along parent links *)

Module commit_proofs.
Import py hash_object commit commit_spec hash_object_proofs.

Section walks.
Context `{!Codec pyobj}.

Lemma get_commit_hash st h c : get_commit st h = Ok c -> hash c = Some h.
Proof.
  unfold get_commit. destruct (retrieve_object st h) as [[| |c']|]; try done.
  by intros [= <-].
Qed.


(** A commit is fetched from a file only. *)
Lemma get_commit_file st h c :
  get_commit st h = Ok c ->
  str_drop 2 h <> ""%string /\ is_Some (files st !! obj_path h).
Proof.
  unfold get_commit. destruct (retrieve_object st h) as [obj|e] eqn:Hr; [|done].
  intros _. apply retrieve_object_Ok in Hr as (Hne & content & Hf & _). eauto.
Qed.

Lemma get_commit_present st h c : get_commit st h = Ok c -> is_Some (files st !! obj_path h).
Proof. by intros [_ ?]%get_commit_file. Qed.


Lemma truthy_str_Some h : h <> ""%string -> truthy_str (Some h) = true.
Proof. intros Hne. simpl. by apply String.eqb_neq in Hne as ->. Qed.

Lemma ids_cons st h c cs : get_commit st h = Ok c -> ids (c :: cs) = h :: ids cs.
Proof. intros Hg. unfold ids. simpl. by rewrite (get_commit_hash _ _ _ Hg). Qed.

Lemma chain_ids_present st cur cs h :
  chain st cur cs -> h ∈ ids cs -> is_Some (files st !! obj_path h).
Proof.
  induction 1 as [|h' c cs Hne Hg Hch IH]; [by intros ?%elem_of_nil|].
  rewrite (ids_cons _ _ _ _ Hg). intros [->|Hin]%elem_of_cons; [|by apply IH].
  by eapply get_commit_present.
Qed.


(** ** [get_commit_history] and [get_commit_count] on a complete chain *)

Lemma limited_cons max_count count c cs :
  (truthy_int max_count && bool_decide (default 0 max_count <= count)%Z) = false ->
  limited max_count count (c :: cs) = c :: limited max_count (count + 1) cs.
Proof.
  unfold limited. destruct (truthy_int max_count); simpl; [|done].
  intros Hlt%bool_decide_eq_false.
  replace (Z.to_nat (default 0%Z max_count - count))
    with (S (Z.to_nat (default 0%Z max_count - (count + 1)))) by lia.
  done.
Qed.

Lemma limited_stop max_count count cs :
  (truthy_int max_count && bool_decide (default 0 max_count <= count)%Z) = true ->
  limited max_count count cs = [].
Proof.
  unfold limited. destruct (truthy_int max_count); simpl; [|done].
  intros Hle%bool_decide_eq_true.
  replace (Z.to_nat (default 0%Z max_count - count)) with 0 by lia.
  done.
Qed.

Lemma history_loop_chain st max_count cur cs :
  chain st cur cs ->
  forall fuel count history, length cs <= fuel ->
  history_loop fuel st max_count cur count history =
  Some (Ok (history ++ limited max_count count cs)).
Proof.
  induction 1 as [|h c cs Hne Hg Hch IH]; intros fuel count history Hfuel.
  - destruct fuel; simpl; unfold limited; destruct (truthy_int max_count);
      by rewrite ?take_nil, app_nil_r.
  - destruct fuel as [|fuel]; [simpl in Hfuel; lia|]. simpl.
    destruct (truthy_int max_count && bool_decide (default 0 max_count <= count)%Z)
      eqn:Hstop.
    + by rewrite limited_stop, app_nil_r.
    + rewrite Hg, IH by (simpl in Hfuel; lia).
      by rewrite limited_cons, <- app_assoc.
Qed.

Lemma count_loop_chain st cur cs :
  chain st cur cs ->
  forall fuel count, length cs <= fuel ->
  count_loop fuel st cur count = Some (Ok (count + Z.of_nat (length cs))%Z).
Proof.
  induction 1 as [|h c cs Hne Hg Hch IH]; intros fuel count Hfuel.
  - destruct fuel; simpl; do 2 f_equal; lia.
  - destruct fuel as [|fuel]; [simpl in Hfuel; lia|].
    cbn [count_loop]. rewrite truthy_str_Some, Hg, IH by (done || simpl in Hfuel; lia).
    do 2 f_equal. simpl. lia.
Qed.

(** On a chain of N commits, [get_commit_history] returns the first
    [max_count] of them when [max_count] is a positive number, and all N
    when it is [None] (or 0); [get_commit_count] returns N. *)
Lemma get_commit_history_chain st h cs fuel max_count :
  chain st (Some h) cs -> length cs <= fuel ->
  get_commit_history fuel st h max_count = Some (Ok (limited max_count 0 cs)).
Proof. intros Hch Hfuel. unfold get_commit_history. by rewrite (history_loop_chain _ _ _ cs). Qed.

Lemma get_commit_history_positive_limit st h cs fuel (L : Z) :
  chain st (Some h) cs -> length cs <= fuel -> (0 < L)%Z ->
  exists commits,
    get_commit_history fuel st h (Some L) = Some (Ok commits) /\
    commits = take (Z.to_nat L) cs /\
    Z.of_nat (length commits) = Z.min L (Z.of_nat (length cs)).
Proof.
  intros Hch Hfuel HL. exists (take (Z.to_nat L) cs). split_and!; [|done|].
  - rewrite (get_commit_history_chain _ _ cs) by done. unfold limited. simpl.
    destruct (Z.eqb_spec L 0); [lia|]. simpl. by rewrite Z.sub_0_r.
  - rewrite length_take. lia.
Qed.

Lemma get_commit_history_no_limit st h cs fuel :
  chain st (Some h) cs -> length cs <= fuel ->
  get_commit_history fuel st h None = Some (Ok cs).
Proof. intros Hch Hfuel. by rewrite (get_commit_history_chain _ _ cs). Qed.

Lemma get_commit_count_chain st h cs fuel :
  chain st (Some h) cs -> length cs <= fuel ->
  get_commit_count fuel st h = Some (Ok (Z.of_nat (length cs))).
Proof.
  intros Hch Hfuel. unfold get_commit_count. by rewrite (count_loop_chain _ _ cs).
Qed.

(** With the limit 0 the whole chain comes back. *)
Lemma get_commit_history_zero_limit st h cs fuel :
  chain st (Some h) cs -> length cs <= fuel ->
  get_commit_history fuel st h (Some 0%Z) = Some (Ok cs).
Proof. intros Hch Hfuel. by rewrite (get_commit_history_chain _ _ cs). Qed.

(** ** [find_common_ancestor] on complete chains *)

Lemma ancestors_loop_chain st cur cs :
  chain st cur cs ->
  forall fuel acc, length cs <= fuel ->
  ancestors_loop fuel st cur acc = Some (Ok (list_to_set (ids cs) ∪ acc)).
Proof.
  induction 1 as [|h c cs Hne Hg Hch IH]; intros fuel acc Hfuel.
  - destruct fuel; simpl; by rewrite (left_id_L ∅ (∪)).
  - destruct fuel as [|fuel]; [simpl in Hfuel; lia|].
    cbn [ancestors_loop]. rewrite truthy_str_Some, Hg, IH by (done || simpl in Hfuel; lia).
    rewrite (ids_cons _ _ _ _ Hg). simpl. do 2 f_equal.
    rewrite (comm_L (∪) {[h]} (list_to_set (ids cs))).
    by rewrite <- (assoc_L (∪)).
Qed.

Lemma search_loop_chain st anc cur cs :
  chain st cur cs ->
  forall fuel, length cs <= fuel ->
  search_loop fuel st anc cur =
  Some (Ok (List.find (fun h => bool_decide (h ∈ anc)) (ids cs))).
Proof.
  induction 1 as [|h c cs Hne Hg Hch IH]; intros fuel Hfuel.
  - by destruct fuel.
  - destruct fuel as [|fuel]; [simpl in Hfuel; lia|].
    cbn [search_loop]. rewrite truthy_str_Some by done.
    rewrite (ids_cons _ _ _ _ Hg). simpl.
    destruct (bool_decide (h ∈ anc)); [done|].
    rewrite Hg. apply IH. simpl in Hfuel. lia.
Qed.

Lemma find_ext_in {A} (f g : A -> bool) (l : list A) :
  (forall x, f x = g x) -> List.find f l = List.find g l.
Proof. intros Hfg. induction l as [|x l IH]; simpl; [done|]. by rewrite Hfg, IH. Qed.

Lemma first_shared_None l1 l2 :
  first_shared l1 l2 = None <-> forall h, h ∈ l1 -> h ∉ l2.
Proof.
  unfold first_shared. induction l2 as [|x l2 IH]; simpl.
  - split; [|done]. intros _ h _. apply not_elem_of_nil.
  - case_bool_decide as Hx.
    + split; [done|]. intros H. exfalso. apply (H x Hx). by left.
    + rewrite IH. split.
      * intros H h Hh [->|Hin]%elem_of_cons; [done|]. by apply (H h).
      * intros H h Hh Hin. apply (H h Hh). by right.
Qed.

Lemma first_shared_head l1 h l2 : h ∈ l1 -> first_shared l1 (h :: l2) = Some h.
Proof. intros Hh. unfold first_shared. simpl. by rewrite bool_decide_eq_true_2. Qed.

Lemma find_common_ancestor_chain st h1 h2 cs1 cs2 fuel :
  chain st (Some h1) cs1 -> chain st (Some h2) cs2 ->
  length cs1 <= fuel -> length cs2 <= fuel ->
  find_common_ancestor fuel st h1 h2 = Some (Ok (first_shared (ids cs1) (ids cs2))).
Proof.
  intros Hc1 Hc2 Hf1 Hf2. unfold find_common_ancestor.
  rewrite (ancestors_loop_chain _ _ cs1), (search_loop_chain _ _ _ cs2) by done.
  do 2 f_equal. apply find_ext_in. intros h.
  apply bool_decide_ext. rewrite elem_of_union, elem_of_list_to_set.
  split; [intros [?|?%elem_of_empty]; done|by left].
Qed.

(** C3.  For two hashes whose parent chains end at null parents,
    [find_common_ancestor] gathers the hashes of the whole first chain, the
    first hash itself among them, walks the second chain from its head and
    returns the first hash it meets that is among the gathered ones; it
    returns none exactly when the chains share no commit.  In particular,
    when the second hash lies on the first chain (as C does for D in
    A <- B <- C <- D), the answer is the second hash. *)
Theorem find_common_ancestor_spec (st : HashObject) (h1 h2 : string)
    (cs1 cs2 : list Commit) (fuel : nat) :
  chain st (Some h1) cs1 -> chain st (Some h2) cs2 ->
  length cs1 <= fuel -> length cs2 <= fuel ->
  head (ids cs1) = Some h1 /\
  find_common_ancestor fuel st h1 h2 = Some (Ok (first_shared (ids cs1) (ids cs2))) /\
  (find_common_ancestor fuel st h1 h2 = Some (Ok None) <->
   forall h, h ∈ ids cs1 -> h ∉ ids cs2) /\
  (h2 ∈ ids cs1 -> find_common_ancestor fuel st h1 h2 = Some (Ok (Some h2))).
Proof.
  intros Hc1 Hc2 Hf1 Hf2.
  pose proof (find_common_ancestor_chain _ _ _ _ _ _ Hc1 Hc2 Hf1 Hf2) as Hfca.
  split_and!.
  - inversion Hc1 as [|h c cs Hne Hg Hch]; subst. by rewrite (ids_cons _ _ _ _ Hg).
  - done.
  - rewrite Hfca, <- first_shared_None. split; [by intros [= ->]|by intros ->].
  - intros Hin. rewrite Hfca.
    inversion Hc2 as [|h c cs Hne Hg Hch]; subst.
    by rewrite (ids_cons _ _ _ _ Hg), first_shared_head.
Qed.

(** ** The walks on a chain that runs into a missing hash *)







End walks.

(** ** The walks run on the example store *)

Import example.

Lemma chain_D : chain store_ABCD (Some "DD00"%string) [commit_D; commit_C; commit_B; commit_A].
Proof.
  repeat (eapply (chain_link store_ABCD); [done|by vm_compute|]).
  apply chain_root.
Qed.

Lemma chain_C : chain store_ABCD (Some "CC00"%string) [commit_C; commit_B; commit_A].
Proof.
  repeat (eapply (chain_link store_ABCD); [done|by vm_compute|]).
  apply chain_root.
Qed.

Lemma chain_A : chain store_A (Some "AA00"%string) [commit_A].
Proof.
  repeat (eapply (chain_link store_A); [done|by vm_compute|]).
  apply chain_root.
Qed.


Lemma store_object_twice_witness :
  let obj := PyCommit (mkCommit "t1" (Some "AA00"%string) "B" "me" "d1" None) in
  let r1 := store_object store_A obj in
  let r2 := store_object (snd r1) obj in
  content_addressed store_A /\
  no_collision store_A (pickle_dumps obj) /\
  fst r1 = "BB00"%string /\
  fst r2 = fst r1 /\
  snd r2 = snd r1 /\
  files (snd r2) !! obj_path (fst r1) = Some (pickle_dumps obj).
Proof.
  cbv zeta.
  assert (content_addressed store_A) as Hca.
  { intros path content. unfold store_A, create_commit.
    rewrite store_object_files. simpl. rewrite lookup_empty.
    rewrite lookup_insert_Some, lookup_empty. by intros [[<- <-]|[_ ?]]. }
  assert (no_collision store_A
            (pickle_dumps (PyCommit (mkCommit "t1" (Some "AA00"%string) "B" "me" "d1" None))))
    as Hnc.
  { intros content. unfold store_A, create_commit.
    rewrite store_object_files. simpl. rewrite lookup_empty.
    rewrite lookup_insert_Some, lookup_empty. by intros [[? _]|[_ ?]]. }
  pose proof (store_object_twice store_A
                (PyCommit (mkCommit "t1" (Some "AA00"%string) "B" "me" "d1" None))
                (PyCommit (mkCommit "t1" (Some "AA00"%string) "B" "me" "d1" None))
                eq_refl) as (H1 & H2 & H3).
  destruct (H3 Hca Hnc) as [H4 _].
  split_and!; [exact Hca|exact Hnc|reflexivity|exact H1|exact H2|exact H4].
Defined.

Lemma find_common_ancestor_spec_witness :
  chain store_ABCD (Some "DD00"%string) [commit_D; commit_C; commit_B; commit_A] /\
  chain store_ABCD (Some "CC00"%string) [commit_C; commit_B; commit_A] /\
  find_common_ancestor 4 store_ABCD "DD00" "CC00" = Some (Ok (Some "CC00"%string)).
Proof.
  split; [exact chain_D|]. split; [exact chain_C|].
  refine (proj2 (proj2 (proj2
    (find_common_ancestor_spec store_ABCD "DD00" "CC00" _ _ 4 chain_D chain_C _ _))) _).
  - simpl. lia.
  - simpl. lia.
  - vm_compute. right. left.
Defined.

(** C4 fails at the limit 0: on the store that holds the single root commit
    A, [get_commit_history] with [max_count = 0] returns that commit, one
    commit where min(0, 1) = 0 are due; the test [if max_count and ...]
    takes 0 for no limit. *)
Theorem get_commit_history_limit_zero :
  chain store_A (Some "AA00"%string) [commit_A] /\
  (forall fuel, get_commit_history (S fuel) store_A "AA00" (Some 0%Z)
                = Some (Ok [commit_A])) /\
  get_commit_count 1 store_A "AA00" = Some (Ok 1%Z).
Proof.
  split; [exact chain_A|]. split.
  - intros fuel. apply get_commit_history_zero_limit; [exact chain_A|simpl; lia].
  - reflexivity.
Qed.



End commit_proofs.
(** * Proofs about the tree *)

Module tree_proofs.
Import tree tree_spec.

(** ** Dictionaries *)

Section dict.
Context {V : Type}.
Implicit Types d : list (string * V).

Lemma dict_get_set_eq key v d : dict_get key (dict_set key v d) = Some v.
Proof.
  induction d as [|[k w] d IH]; simpl.
  - by rewrite String.eqb_refl.
  - destruct (String.eqb_spec k key) as [->|Hne]; simpl.
    + by rewrite String.eqb_refl.
    + by apply String.eqb_neq in Hne as ->.
Qed.

Lemma dict_get_set_ne key key' v d :
  key <> key' -> dict_get key' (dict_set key v d) = dict_get key' d.
Proof.
  intros Hne. induction d as [|[k w] d IH]; simpl.
  - by apply String.eqb_neq in Hne as ->.
  - destruct (String.eqb_spec k key) as [->|Hk]; simpl; [|by rewrite IH].
    by apply String.eqb_neq in Hne as ->.
Qed.

Lemma dict_get_None key d : key ∉ map fst d -> dict_get key d = None.
Proof.
  induction d as [|[k w] d IH]; simpl; [done|].
  intros [Hk Hd]%not_elem_of_cons.
  apply not_eq_sym, String.eqb_neq in Hk as ->. by apply IH.
Qed.

Lemma dict_get_Some key v d : dict_get key d = Some v -> (key, v) ∈ d.
Proof.
  induction d as [|[k w] d IH]; simpl; [done|].
  destruct (String.eqb_spec k key) as [->|Hk].
  - intros [= ->]. by left.
  - intros H. right. by apply IH.
Qed.

Lemma dict_set_fresh key v d : key ∉ map fst d -> dict_set key v d = d ++ [(key, v)].
Proof.
  induction d as [|[k w] d IH]; simpl; [done|].
  intros [Hk Hd]%not_elem_of_cons.
  apply not_eq_sym, String.eqb_neq in Hk as ->. by rewrite IH.
Qed.

Lemma dict_set_keys_present key v w d :
  dict_get key d = Some w -> map fst (dict_set key v d) = map fst d.
Proof.
  induction d as [|[k u] d IH]; simpl; [done|].
  destruct (String.eqb_spec k key) as [->|Hk]; simpl; [done|].
  intros H. by rewrite IH.
Qed.

Lemma dict_get_is_None key d : dict_get key d = None -> key ∉ map fst d.
Proof.
  induction d as [|[k w] d IH]; simpl; [intros _; apply not_elem_of_nil|].
  destruct (String.eqb_spec k key) as [->|Hk]; [done|].
  intros H. apply not_elem_of_cons. split; [done|by apply IH].
Qed.

Lemma dict_set_NoDup key v d : NoDup (map fst d) -> NoDup (map fst (dict_set key v d)).
Proof.
  intros Hd. destruct (dict_get key d) as [w|] eqn:Hg.
  - by rewrite (dict_set_keys_present _ _ _ _ Hg).
  - apply dict_get_is_None in Hg. rewrite dict_set_fresh, map_app by done.
    apply NoDup_app. split_and!; [done| |apply NoDup_singleton].
    intros k Hk ->%list_elem_of_singleton. done.
Qed.

Lemma dict_set_Forall (P : string * V -> Prop) key v d :
  Forall P d -> P (key, v) -> Forall P (dict_set key v d).
Proof.
  intros Hd Hv. induction Hd as [|[k w] d Hk Hd IH]; simpl.
  - by constructor.
  - destruct (String.eqb_spec k key) as [->|Hne]; by constructor.
Qed.

(** Replacing the value of a key that is present leaves the image of the
    dict under [F] alone when the old and the new pair have the same image. *)
Lemma dict_set_map_same {B} (F : string * V -> B) key v w d :
  dict_get key d = Some w -> F (key, v) = F (key, w) ->
  map F (dict_set key v d) = map F d.
Proof.
  intros Hg HF. induction d as [|[k u] d IH]; simpl in *; [done|].
  destruct (String.eqb_spec k key) as [->|Hk]; simpl.
  - injection Hg as ->. by rewrite HF.
  - by rewrite IH.
Qed.

End dict.

Lemma dict_get_map {V W} (g : V -> W) key (d : list (string * V)) :
  dict_get key (map (fun kc => (fst kc, g (snd kc))) d) = g <$> dict_get key d.
Proof.
  induction d as [|[k w] d IH]; simpl; [done|].
  by destruct (String.eqb k key).
Qed.

(** ** Serialization *)

Lemma name_prune t : name (prune t) = name t.
Proof. by destruct t as [n [] h cs]. Qed.

Lemma foldl_add_child n (nodes : list TreeNode) :
  forall acc,
  NoDup (map fst acc ++ map name nodes) ->
  foldl add_child (mkTreeNode n false None acc) nodes =
  mkTreeNode n false None (acc ++ map (fun c => (name c, c)) nodes).
Proof.
  induction nodes as [|c nodes IH]; intros acc Hnd; simpl.
  - by rewrite app_nil_r.
  - unfold add_child at 2. simpl.
    apply NoDup_app in Hnd as (Hacc & Hdisj & Hnodes).
    apply NoDup_cons in Hnodes as [Hc Hnodes].
    rewrite dict_set_fresh.
    2:{ intros Hin. apply (Hdisj _ Hin). by left. }
    rewrite IH.
    + by rewrite <- app_assoc.
    + rewrite map_app. simpl. rewrite <- app_assoc. simpl.
      apply NoDup_app. split_and!; [done| |by apply NoDup_cons].
      intros k Hk. apply Hdisj. done.
Qed.

(** Deserializing what [to_dict] wrote gives back the tree without what
    [to_dict] leaves out. *)
Lemma from_dict_to_dict t : keyed t -> from_dict (to_dict t) = prune t.
Proof.
  induction t as [n f h cs IH] using TreeNode_ind. intros Hk.
  inversion Hk as [n' f' h' cs' Hnd Hcs]; subst.
  destruct f; simpl; [done|].
  assert (forall acc,
    foldl (fun node child_data => add_child node (from_dict (snd child_data)))
      acc (map (fun kc => (fst kc, to_dict (snd kc))) cs)
    = foldl add_child acc (map (fun kc => prune (snd kc)) cs)) as ->.
  { clear Hnd Hk. induction cs as [|kc cs IHcs]; intros acc; simpl; [done|].
    apply Forall_cons in IH as [IH1 IH2]. apply Forall_cons in Hcs as [[_ Hk1] Hk2].
    rewrite IH1 by done. apply IHcs; done. }
  assert (map name (map (fun kc => prune (snd kc)) cs) = map fst cs) as Hnames.
  { rewrite map_map. apply map_ext_Forall.
    eapply Forall_impl; [exact Hcs|]. intros [k c] [Hkc _]. simpl in *.
    by rewrite name_prune. }
  rewrite foldl_add_child by (simpl; by rewrite Hnames).
  simpl. f_equal. rewrite map_map. apply map_ext_Forall.
  eapply Forall_impl; [exact Hcs|]. intros [k c] [Hkc _]. simpl in *.
  by rewrite name_prune, Hkc.
Qed.

Lemma well_formed_keyed t : well_formed t -> keyed t.
Proof.
  induction t as [n f h cs IH] using TreeNode_ind. intros Hwf.
  inversion Hwf as [|n' cs' Hnd Hcs]; subst.
  - constructor; [apply NoDup_nil_2|constructor].
  - constructor; [done|].
    rewrite Forall_forall in IH, Hcs |- *. intros kc Hin.
    destruct (Hcs _ Hin). split; [done|]. by apply IH.
Qed.

Lemma prune_well_formed t : well_formed t -> prune t = t.
Proof.
  induction t as [n f h cs IH] using TreeNode_ind. intros Hwf.
  inversion Hwf as [|n' cs' Hnd Hcs]; subst; simpl; [done|].
  f_equal. rewrite <- (map_id cs) at 2. apply map_ext_Forall.
  rewrite Forall_forall in IH, Hcs |- *. intros [k c] Hin.
  destruct (Hcs _ Hin). simpl. f_equal. by apply (IH (k, c)).
Qed.

(** On a well-formed snapshot, deserializing the serialized tree gives the
    very same tree. *)
Lemma from_dict_to_dict_well_formed t : well_formed t -> from_dict (to_dict t) = t.
Proof.
  intros Hwf. rewrite from_dict_to_dict by by apply well_formed_keyed.
  by apply prune_well_formed.
Qed.

(** ** [add_file] *)

Lemma name_add_file_at cur dirs fnode : name (add_file_at cur dirs fnode) = name cur.
Proof. by destruct dirs. Qed.

Lemma is_file_add_file_at cur dirs fnode :
  is_file (add_file_at cur dirs fnode) = is_file cur.
Proof. by destruct dirs. Qed.

Lemma content_hash_add_file_at cur dirs fnode :
  content_hash (add_file_at cur dirs fnode) = content_hash cur.
Proof. by destruct dirs. Qed.

Lemma split_from_nonempty sep s : forall cur, split_from sep cur s <> [].
Proof.
  induction s as [|c s IH]; intros cur; simpl; [done|].
  destruct (Ascii.eqb c sep); [done|apply IH].
Qed.

Lemma split_parts path :
  removelast (split path "/") ++ [List.last (split path "/") ""%string] = split path "/".
Proof. symmetry. apply app_removelast_last, split_from_nonempty. Qed.

Lemma passable_fresh part dirs : passable (mkTreeNode part false None []) dirs.
Proof. destruct dirs; simpl; done. Qed.

Lemma well_formed_child cs part child :
  Forall (fun kc => fst kc = name (snd kc) /\ well_formed (snd kc)) cs ->
  dict_get part cs = Some child ->
  part = name child /\ well_formed child.
Proof.
  intros Hcs Hg%dict_get_Some. rewrite Forall_forall in Hcs. by apply (Hcs (part, child)).
Qed.

Lemma add_file_at_well_formed fnode dirs :
  well_formed fnode ->
  forall cur, well_formed cur -> passable cur dirs ->
  well_formed (add_file_at cur dirs fnode).
Proof.
  intros Hf. induction dirs as [|part rest IH]; intros cur Hwf Hp.
  - destruct Hp as [Hdir _].
    inversion Hwf as [|n cs Hnd Hcs]; subst; [done|]. simpl.
    constructor; [by apply dict_set_NoDup|by apply dict_set_Forall].
  - destruct Hp as [Hdir Hp].
    inversion Hwf as [|n cs Hnd Hcs]; subst; [done|]. simpl.
    unfold get_child in *. simpl in *.
    constructor; [by apply dict_set_NoDup|].
    apply dict_set_Forall; [done|]. simpl. rewrite name_add_file_at.
    destruct (dict_get part cs) as [child|] eqn:Hg.
    + destruct (well_formed_child _ _ _ Hcs Hg) as [-> Hc]. split; [done|]. by apply IH.
    + split; [done|]. apply IH; [|apply passable_fresh].
      constructor; [apply NoDup_nil_2|constructor].
Qed.

(** A file node of the tree after [add_file] is the new leaf or was a file
    node at the same place before. *)
Lemma descend_add_file_at_file fnode dirs :
  [] = children fnode ->
  forall cur parts node,
  descend (add_file_at cur dirs fnode) parts = Some node ->
  is_file node = true ->
  parts = dirs ++ [name fnode] \/
  exists node', descend cur parts = Some node' /\ is_file node' = true.
Proof.
  intros Hleaf. induction dirs as [|part rest IH]; intros cur parts node.
  - destruct parts as [|k parts]; simpl.
    + intros [= <-] Hfile. right. exists cur. by destruct cur.
    + unfold get_child. simpl.
      destruct (decide (name fnode = k)) as [<-|Hne].
      * rewrite dict_get_set_eq. destruct parts as [|k' parts]; [by left|].
        simpl. unfold get_child. by rewrite <- Hleaf.
      * rewrite dict_get_set_ne by done. intros Hd Hfile. right. eauto.
  - destruct parts as [|k parts]; simpl.
    + intros [= <-] Hfile. right. exists cur. by destruct cur.
    + unfold get_child. simpl.
      destruct (decide (part = k)) as [<-|Hne].
      * rewrite dict_get_set_eq. intros Hd Hfile.
        destruct (IH _ _ _ Hd Hfile) as [->|(node' & Hd' & Hfile')]; [by left|].
        right. destruct (dict_get part (children cur)) as [child|]; [eauto|].
        destruct parts as [|k' parts]; simpl in Hd'; [|done].
        injection Hd' as <-. done.
      * rewrite dict_get_set_ne by done. intros Hd Hfile. right. eauto.
Qed.

Lemma passable_no_file_prefix dirs :
  forall cur,
  (forall pre node, pre `prefix_of` dirs -> descend cur pre = Some node ->
                    is_file node = false) ->
  passable cur dirs.
Proof.
  induction dirs as [|part rest IH]; intros cur H.
  - split; [|done]. by apply (H []); [apply prefix_nil|].
  - split; [by apply (H []); [apply prefix_nil|]|].
    destruct (get_child cur part) as [child|] eqn:Hg; [|done].
    apply IH. intros pre node Hpre Hd.
    apply (H (part :: pre)); [by apply prefix_cons|]. simpl. by rewrite Hg.
Qed.

Lemma build_snoc files path h :
  build (files ++ [(path, h)]) = add_file (build files) path h.
Proof. unfold build. by rewrite foldl_app. Qed.

(** A tree built from prefix-free paths is a well-formed snapshot whose
    file nodes sit at those paths. *)
Lemma build_well_formed files :
  prefix_free (map fst files) ->
  well_formed (root (build files)) /\ files_at (build files) (map fst files).
Proof.
  induction files as [|[q h] files IH] using rev_ind; intros Hpf.
  - split.
    + constructor; [apply NoDup_nil_2|constructor].
    + intros [|k parts] node; simpl; [|done]. by intros [= <-].
  - rewrite build_snoc, map_app in *. simpl in *.
    destruct IH as [Hwf Hat].
    { intros p p' Hp Hp'. apply Hpf; apply elem_of_app; by left. }
    assert (passable (root (build files)) (removelast (split q "/"))) as Hpass.
    { apply passable_no_file_prefix. intros pre node [k Hk] Hd.
      destruct (is_file node) eqn:Hfile; [|done]. exfalso.
      destruct (Hat _ _ Hd Hfile) as (p & Hp & Hsplit).
      apply (Hpf p q);
        [apply elem_of_app; by left
        |apply elem_of_app; right; by apply list_elem_of_singleton|].
      exists (k ++ [List.last (split q "/") ""%string]). split; [by destruct k|].
      by rewrite Hsplit, app_assoc, <- Hk, split_parts. }
    split.
    + simpl. apply add_file_at_well_formed; [constructor|done..].
    + intros parts node Hd Hfile. simpl in Hd.
      pose proof (fun H => descend_add_file_at_file _ _ H _ _ _ Hd Hfile) as Hcase.
      simpl in Hcase. destruct (Hcase eq_refl) as [->|(node' & Hd' & Hfile')].
      * exists q. simpl. rewrite split_parts.
        split; [|done]. apply elem_of_app; right; by apply list_elem_of_singleton.
      * destruct (Hat _ _ Hd' Hfile') as (p & Hp & Hsplit).
        exists p. split; [|done]. apply elem_of_app. by left.
Qed.

(** C5.  For a tree built from (path, hash) pairs none of whose paths is a
    proper prefix of another, deserializing the serialized tree gives the
    same tree: the same [list_all_files], the same [get_file_hash] for every
    path, and the same serialized form when serialized again. *)
Theorem tree_roundtrip (files : list (string * string)) :
  prefix_free (map fst files) ->
  let t := build files in
  let t' := DirectoryTree_from_dict (DirectoryTree_to_dict t) in
  list_all_files t' = list_all_files t /\
  (forall path, get_file_hash t' path = get_file_hash t path) /\
  DirectoryTree_to_dict t' = DirectoryTree_to_dict t /\
  t' = t.
Proof.
  intros Hpf. cbv zeta. destruct (build_well_formed files Hpf) as [Hwf _].
  assert (DirectoryTree_from_dict (DirectoryTree_to_dict (build files)) = build files) as ->.
  { unfold DirectoryTree_from_dict, DirectoryTree_to_dict.
    rewrite from_dict_to_dict_well_formed by done. by destruct (build files). }
  done.
Qed.

Lemma tree_roundtrip_witness :
  let files := [("a/b", "h1"); ("c", "h2")]%string in
  prefix_free (map fst files) /\
  list_all_files (DirectoryTree_from_dict (DirectoryTree_to_dict (build files)))
    = list_all_files (build files).
Proof.
  assert (prefix_free (map fst [("a/b", "h1"); ("c", "h2")]%string)) as Hpf.
  { intros p q Hp Hq (rest & Hne & Heq). simpl in Hp, Hq.
    apply elem_of_cons in Hp as [->|Hp]; [|apply list_elem_of_singleton in Hp as ->];
      (apply elem_of_cons in Hq as [->|Hq]; [|apply list_elem_of_singleton in Hq as ->]);
      vm_compute in Heq; congruence. }
  split; [exact Hpf|]. apply (tree_roundtrip _ Hpf).
Defined.

(** ** A leaf added below a file node *)

Lemma descend_add_file_at_new fnode dirs :
  forall cur, descend (add_file_at cur dirs fnode) (dirs ++ [name fnode]) = Some fnode.
Proof.
  induction dirs as [|part rest IH]; intros cur; simpl; unfold get_child; simpl;
    by rewrite dict_get_set_eq.
Qed.

Lemma get_file_hash_add_file t path h : get_file_hash (add_file t path h) path = Some h.
Proof.
  unfold get_file_hash, add_file. cbv zeta. simpl.
  pose proof (descend_add_file_at_new
                (mkTreeNode (List.last (split path "/") ""%string) true (Some h) [])
                (removelast (split path "/")) (root t)) as Hd.
  simpl in Hd. rewrite split_parts in Hd. by rewrite Hd.
Qed.

Lemma descend_add_file_at_through fnode rest pre :
  forall cur f,
  descend cur pre = Some f ->
  descend (add_file_at cur (pre ++ rest) fnode) pre = Some (add_file_at f rest fnode).
Proof.
  induction pre as [|part pre IH]; intros cur f; simpl.
  - by intros [= ->].
  - unfold get_child. simpl. rewrite dict_get_set_eq.
    destruct (dict_get part (children cur)) as [child|]; [|done]. apply IH.
Qed.

Lemma dfs_add_file_at_hidden fnode rest pre :
  forall cur f path,
  descend cur pre = Some f -> is_file f = true ->
  dfs (add_file_at cur (pre ++ rest) fnode) path = dfs cur path.
Proof.
  induction pre as [|part pre IH]; intros cur f path; simpl.
  - intros [= ->] Hfile.
    pose proof (is_file_add_file_at f rest fnode) as Hf. rewrite Hfile in Hf.
    destruct (add_file_at f rest fnode), f; simpl in *. by rewrite Hf, Hfile.
  - unfold get_child. destruct cur as [n fl h cs]. simpl.
    destruct (dict_get part cs) as [child|] eqn:Hg; [|done]. intros Hd Hfile.
    destruct fl; [done|]. rewrite !flat_map_concat_map. f_equal.
    apply (dict_set_map_same _ _ _ child); [done|]. simpl. by eapply IH.
Qed.

Lemma to_dict_add_file_at_hidden fnode rest pre :
  forall cur f,
  descend cur pre = Some f -> is_file f = true ->
  to_dict (add_file_at cur (pre ++ rest) fnode) = to_dict cur.
Proof.
  induction pre as [|part pre IH]; intros cur f; simpl.
  - intros [= ->] Hfile.
    pose proof (is_file_add_file_at f rest fnode) as Hf.
    pose proof (name_add_file_at f rest fnode) as Hn.
    pose proof (content_hash_add_file_at f rest fnode) as Hh.
    rewrite Hfile in Hf.
    destruct (add_file_at f rest fnode), f; simpl in *. by rewrite Hf, Hfile, Hn, Hh.
  - unfold get_child. destruct cur as [n fl h cs]. simpl.
    destruct (dict_get part cs) as [child|] eqn:Hg; [|done]. intros Hd Hfile.
    destruct fl; [done|]. do 2 f_equal.
    apply (dict_set_map_same _ _ _ child); [done|]. simpl. f_equal. by eapply IH.
Qed.

Lemma descend_prune_hidden rest pre :
  rest <> [] ->
  forall cur f,
  descend cur pre = Some f -> is_file f = true ->
  descend (prune cur) (pre ++ rest) = None.
Proof.
  intros Hrest. induction pre as [|part pre IH]; intros cur f; simpl.
  - intros [= ->] Hfile. destruct f as [n fl h cs]. simpl in Hfile. subst fl.
    by destruct rest.
  - unfold get_child. destruct cur as [n fl h cs]. simpl.
    destruct fl; [done|]. simpl. rewrite dict_get_map.
    destruct (dict_get part cs) as [child|]; [|done]. simpl. apply IH.
Qed.

Lemma add_file_at_keyed fnode dirs :
  keyed fnode -> forall cur, keyed cur -> keyed (add_file_at cur dirs fnode).
Proof.
  intros Hf. induction dirs as [|part rest IH]; intros cur Hk;
    inversion Hk as [n f h cs Hnd Hcs]; subst; simpl.
  - constructor; [by apply dict_set_NoDup|by apply dict_set_Forall].
  - constructor; [by apply dict_set_NoDup|].
    apply dict_set_Forall; [done|]. simpl. rewrite name_add_file_at.
    unfold get_child. simpl.
    destruct (dict_get part cs) as [child|] eqn:Hg.
    + apply dict_get_Some in Hg. rewrite Forall_forall in Hcs.
      destruct (Hcs _ Hg) as [Hn Hc]. split; [done|]. by apply IH.
    + split; [done|]. apply IH. constructor; [apply NoDup_nil_2|constructor].
Qed.

Lemma build_keyed files : keyed (root (build files)).
Proof.
  induction files as [|[q h] files IH] using rev_ind.
  - constructor; [apply NoDup_nil_2|constructor].
  - rewrite build_snoc. simpl. apply add_file_at_keyed; [|done].
    constructor; [apply NoDup_nil_2|constructor].
Qed.

End tree_proofs.
(** * Proofs about the diff engine *)

Module diff_proofs.
Import diff diff_spec.

Lemma lcs_cell_0_r a b i : lcs_cell a b i 0 = 0.
Proof. by destruct i. Qed.

Lemma lcs_cell_S a b i j :
  lcs_cell a b (S i) (S j) =
  if String.eqb (getitem a i) (getitem b j)
  then lcs_cell a b i j + 1
  else Nat.max (lcs_cell a b i (S j)) (lcs_cell a b (S i) j).
Proof. reflexivity. Qed.

(** ** The table filled by the loops is the table of the recurrence *)

Lemma foldl_seq_invariant {A} (f : A -> nat -> A) (P : nat -> A -> Prop) k :
  forall s x,
  P s x ->
  (forall j y, s <= j < s + k -> P j y -> P (S j) (f y j)) ->
  P (s + k) (foldl f x (seq s k)).
Proof.
  induction k as [|k IH]; intros s x Hx Hstep; simpl.
  - by rewrite Nat.add_0_r.
  - replace (s + S k) with (S s + k) by lia.
    apply IH.
    + apply Hstep; [lia | done].
    + intros j y Hj. apply Hstep. lia.
Qed.

Lemma cell_setitem2_eq m n dp i j v :
  table_dims m n dp -> i <= m -> j <= n -> cell (setitem2 dp i j v) i j = v.
Proof.
  intros [Hlen Hrow] Hi Hj. unfold cell, setitem2.
  destruct (lookup_lt_is_Some_2 dp i) as [row Hr]; [lia|].
  rewrite list_lookup_alter_eq, Hr. simpl.
  rewrite list_lookup_insert_eq; [done|]. rewrite (Hrow _ _ Hr). lia.
Qed.

Lemma cell_setitem2_ne dp i j v i' j' :
  i <> i' \/ j <> j' -> cell (setitem2 dp i j v) i' j' = cell dp i' j'.
Proof.
  intros Hne. unfold cell, setitem2.
  destruct (decide (i = i')) as [->|Hi].
  - rewrite list_lookup_alter_eq. destruct (dp !! i') as [row|]; [simpl|done].
    rewrite list_lookup_insert_ne; [done|]. destruct Hne; congruence.
  - by rewrite list_lookup_alter_ne.
Qed.

Lemma table_dims_setitem2 m n dp i j v :
  table_dims m n dp -> table_dims m n (setitem2 dp i j v).
Proof.
  intros [Hlen Hrow]. split.
  - unfold setitem2. by rewrite length_alter.
  - intros r row. unfold setitem2.
    destruct (decide (i = r)) as [->|Hi].
    + rewrite list_lookup_alter_eq. destruct (dp !! r) as [row0|] eqn:Hr; [|done].
      simpl. intros [= <-]. rewrite length_insert. eauto.
    + rewrite list_lookup_alter_ne by done. eauto.
Qed.

Lemma table_dims_step m n a b dp i j :
  table_dims m n dp -> table_dims m n (lcs_step a b i j dp).
Proof. intros. unfold lcs_step. case String.eqb; by apply table_dims_setitem2. Qed.

Lemma filled_before_step a b i j dp :
  1 <= i <= length a -> 1 <= j <= length b ->
  filled_before a b i j dp -> filled_before a b i (S j) (lcs_step a b i j dp).
Proof.
  intros Hi Hj [Hdims Hcells]. split; [by apply table_dims_step|].
  intros r c Hr Hc Hdone.
  destruct (decide (r = i /\ c = j)) as [[-> ->]|Hne].
  - destruct i as [|i]; [lia|]. destruct j as [|j]; [lia|].
    rewrite lcs_cell_S. unfold lcs_step. simpl. rewrite !Nat.sub_0_r.
    case String.eqb.
    + rewrite (cell_setitem2_eq (length a) (length b)) by (done || lia).
      rewrite Hcells by lia. done.
    + rewrite (cell_setitem2_eq (length a) (length b)) by (done || lia).
      rewrite !Hcells by lia. done.
  - assert (cell (lcs_step a b i j dp) r c = cell dp r c) as ->.
    { unfold lcs_step. case String.eqb; apply cell_setitem2_ne;
        (destruct (decide (i = r)) as [->|]; [right; intros ->; by apply Hne | by left]). }
    destruct (decide (r = 0)) as [->|]; [by apply Hcells; auto|].
    destruct (decide (c = 0)) as [->|]; [by apply Hcells; auto|].
    apply Hcells; [done..|]. lia.
Qed.

Lemma filled_before_init a b :
  filled_before a b 1 1 (replicate (length a + 1) (replicate (length b + 1) 0)).
Proof.
  split.
  - split; [by rewrite length_replicate|].
    intros r row [-> _]%lookup_replicate. by rewrite length_replicate.
  - intros r c Hr Hc Hdone. unfold cell.
    rewrite lookup_replicate_2 by lia. simpl. rewrite lookup_replicate_2 by lia. simpl.
    destruct Hdone as [->|[->|[?|[-> ?]]]].
    + done.
    + by rewrite lcs_cell_0_r.
    + by replace r with 0 by lia.
    + replace c with 0 by lia. by rewrite lcs_cell_0_r.
Qed.

Lemma compute_lcs_length_filled a b :
  filled_before a b (length a + 1) 1 (compute_lcs_length a b).
Proof.
  unfold compute_lcs_length. cbv zeta.
  replace (length a + 1) with (1 + length a) at 1 by lia.
  apply (foldl_seq_invariant _ (fun i dp => filled_before a b i 1 dp)).
  - apply filled_before_init.
  - intros i dp Hi Hrow.
    assert (filled_before a b i (1 + length b)
              (foldl (fun dp j => lcs_step a b i j dp) dp (seq 1 (length b)))) as [Hd Hc].
    { apply (foldl_seq_invariant _ (fun j dp => filled_before a b i j dp)); [done|].
      intros j y Hj Hy. apply filled_before_step; [lia..|done]. }
    split; [done|]. intros r c Hr Hcb Hdone. apply Hc; [done..|]. lia.
Qed.

(** [compute_lcs_length] returns an (m+1) x (n+1) table whose cell (i, j) is
    the value of the recurrence. *)
Lemma compute_lcs_length_cell a b i j :
  i <= length a -> j <= length b ->
  cell (compute_lcs_length a b) i j = lcs_cell a b i j.
Proof.
  intros Hi Hj. destruct (compute_lcs_length_filled a b) as [_ Hc].
  apply Hc; [done..|]. lia.
Qed.

Lemma compute_lcs_length_dims a b :
  table_dims (length a) (length b) (compute_lcs_length a b).
Proof. by destruct (compute_lcs_length_filled a b). Qed.


(** ** The backtracking loop *)

Lemma backtrack_loop_unfold text1 text2 dp i j diff :
  backtrack_loop text1 text2 dp i j diff =
  if ((0 <? i)%nat || (0 <? j)%nat) then
    if ((0 <? i)%nat && (0 <? j)%nat &&
        String.eqb (getitem text1 (i - 1)) (getitem text2 (j - 1))) then
      backtrack_loop text1 text2 dp (i - 1) (j - 1)
        (diff ++ [mkDiffLine " " (getitem text1 (i - 1)) i])
    else if ((0 <? j)%nat &&
             ((i =? 0)%nat || (cell dp (i - 1) j <=? cell dp i (j - 1))%nat)) then
      backtrack_loop text1 text2 dp i (j - 1)
        (diff ++ [mkDiffLine "+" (getitem text2 (j - 1)) 0])
    else
      backtrack_loop text1 text2 dp (i - 1) j
        (diff ++ [mkDiffLine "-" (getitem text1 (i - 1)) i])
  else diff.
Proof.
  funelim (backtrack_loop text1 text2 dp i j diff); clear Heqcall;
    repeat match goal with
           | e : _ = true |- _ => rewrite e
           | e : _ = false |- _ => rewrite e
           end; reflexivity.
Qed.

Lemma spec_backtrack_0_S a b j :
  spec_backtrack a b 0 (S j) = mkDiffLine "+" (getitem b j) 0 :: spec_backtrack a b 0 j.
Proof. reflexivity. Qed.

Lemma spec_backtrack_S_0 a b i :
  spec_backtrack a b (S i) 0 = mkDiffLine "-" (getitem a i) (S i) :: spec_backtrack a b i 0.
Proof. reflexivity. Qed.

Lemma spec_backtrack_S_S a b i j :
  spec_backtrack a b (S i) (S j) =
  if String.eqb (getitem a i) (getitem b j)
  then mkDiffLine " " (getitem a i) (S i) :: spec_backtrack a b i j
  else if (lcs_cell a b i (S j) <=? lcs_cell a b (S i) j)%nat
  then mkDiffLine "+" (getitem b j) 0 :: spec_backtrack a b (S i) j
  else mkDiffLine "-" (getitem a i) (S i) :: spec_backtrack a b i (S j).
Proof. reflexivity. Qed.

(** The loop run on the table of [compute_lcs_length] takes the steps of the
    specification, appending them to what it was given. *)
Lemma backtrack_loop_spec a b :
  forall i j diff, i <= length a -> j <= length b ->
  backtrack_loop a b (compute_lcs_length a b) i j diff =
  diff ++ spec_backtrack a b i j.
Proof.
  induction i as [|i IHi].
  - induction j as [|j IHj]; intros diff Hi Hj; rewrite backtrack_loop_unfold.
    + simpl. by rewrite app_nil_r.
    + rewrite spec_backtrack_0_S. cbn [Nat.ltb Nat.leb orb andb Nat.eqb Nat.sub].
      rewrite Nat.sub_0_r, IHj by lia. by rewrite <- app_assoc.
  - induction j as [|j IHj]; intros diff Hi Hj; rewrite backtrack_loop_unfold.
    + rewrite spec_backtrack_S_0. cbn [Nat.ltb Nat.leb orb andb Nat.eqb Nat.sub].
      rewrite Nat.sub_0_r, IHi by lia. by rewrite <- app_assoc.
    + rewrite spec_backtrack_S_S.
      replace (S i - 1) with i by lia. replace (S j - 1) with j by lia.
      rewrite !compute_lcs_length_cell by lia.
      cbn [Nat.ltb Nat.leb orb andb Nat.eqb].
      destruct (String.eqb (getitem a i) (getitem b j)).
      * rewrite IHi by lia. by rewrite <- app_assoc.
      * destruct (lcs_cell a b i (S j) <=? lcs_cell a b (S i) j)%nat.
        -- rewrite IHj by lia. by rewrite <- app_assoc.
        -- rewrite IHi by lia. by rewrite <- app_assoc.
Qed.

(** [backtrack_diff] on the table of [compute_lcs_length] is the reversed
    walk of the specification from cell (m, n). *)
Lemma backtrack_diff_spec a b :
  backtrack_diff a b (compute_lcs_length a b) =
  reverse (spec_backtrack a b (length a) (length b)).
Proof. unfold backtrack_diff. by rewrite backtrack_loop_spec. Qed.

(** ** What the walk of the specification emits *)

#[local] Arguments spec_backtrack : simpl never.
#[local] Arguments lcs_cell : simpl never.

Lemma take_S_getitem (a : list string) i :
  i < length a -> take (S i) a = take i a ++ [getitem a i].
Proof.
  intros Hi. destruct (lookup_lt_is_Some_2 a i Hi) as [x Hx].
  unfold getitem. rewrite Hx. by apply take_S_r.
Qed.

Lemma removed_plus_unchanged_cons ty c n d :
  removed_plus_unchanged (mkDiffLine ty c n :: d) =
  if decide (ty = "-"%string \/ ty = " "%string)
  then c :: removed_plus_unchanged d else removed_plus_unchanged d.
Proof.
  unfold removed_plus_unchanged. rewrite filter_cons. simpl.
  by destruct (decide (ty = "-"%string \/ ty = " "%string)).
Qed.

Lemma added_plus_unchanged_cons ty c n d :
  added_plus_unchanged (mkDiffLine ty c n :: d) =
  if decide (ty = "+"%string \/ ty = " "%string)
  then c :: added_plus_unchanged d else added_plus_unchanged d.
Proof.
  unfold added_plus_unchanged. rewrite filter_cons. simpl.
  by destruct (decide (ty = "+"%string \/ ty = " "%string)).
Qed.

Lemma unchanged_lines_cons ty c n d :
  unchanged_lines (mkDiffLine ty c n :: d) =
  if decide (ty = " "%string) then c :: unchanged_lines d else unchanged_lines d.
Proof.
  unfold unchanged_lines. rewrite filter_cons. simpl.
  by destruct (decide (ty = " "%string)).
Qed.

Lemma spec_backtrack_removed a b :
  forall i j, i <= length a ->
  removed_plus_unchanged (spec_backtrack a b i j) = reverse (take i a).
Proof.
  induction i as [|i IHi].
  - induction j as [|j IHj]; intros Hi; [done|].
    rewrite spec_backtrack_0_S, removed_plus_unchanged_cons. by apply IHj.
  - induction j as [|j IHj]; intros Hi;
      rewrite take_S_getitem, reverse_snoc by lia.
    + rewrite spec_backtrack_S_0, removed_plus_unchanged_cons. simpl.
      by rewrite IHi by lia.
    + rewrite spec_backtrack_S_S.
      destruct (String.eqb (getitem a i) (getitem b j));
        [|destruct (lcs_cell a b i (S j) <=? lcs_cell a b (S i) j)%nat];
        rewrite removed_plus_unchanged_cons; simpl.
      * by rewrite IHi by lia.
      * rewrite IHj by lia. by rewrite take_S_getitem, reverse_snoc by lia.
      * by rewrite IHi by lia.
Qed.

Lemma spec_backtrack_added a b :
  forall i j, i <= length a -> j <= length b ->
  added_plus_unchanged (spec_backtrack a b i j) = reverse (take j b).
Proof.
  induction i as [|i IHi].
  - induction j as [|j IHj]; intros Hi Hj; [done|].
    rewrite spec_backtrack_0_S, added_plus_unchanged_cons. simpl.
    by rewrite take_S_getitem, reverse_snoc, IHj by lia.
  - induction j as [|j IHj]; intros Hi Hj.
    + rewrite spec_backtrack_S_0, added_plus_unchanged_cons. simpl.
      by rewrite IHi by lia.
    + rewrite spec_backtrack_S_S, (take_S_getitem b), reverse_snoc by lia.
      destruct (String.eqb (getitem a i) (getitem b j)) eqn:Heq;
        [|destruct (lcs_cell a b i (S j) <=? lcs_cell a b (S i) j)%nat];
        rewrite added_plus_unchanged_cons; simpl.
      * apply String.eqb_eq in Heq. by rewrite IHi, Heq by lia.
      * by rewrite IHj by lia.
      * by rewrite IHi, (take_S_getitem b), reverse_snoc by lia.
Qed.

Lemma spec_backtrack_unchanged a b :
  forall i j, length (unchanged_lines (spec_backtrack a b i j)) = lcs_cell a b i j.
Proof.
  induction i as [|i IHi].
  - induction j as [|j IHj]; [done|].
    rewrite spec_backtrack_0_S, unchanged_lines_cons. simpl. rewrite IHj. reflexivity.
  - induction j as [|j IHj].
    + rewrite spec_backtrack_S_0, unchanged_lines_cons. simpl.
      by rewrite IHi, !lcs_cell_0_r.
    + rewrite spec_backtrack_S_S, lcs_cell_S.
      destruct (String.eqb (getitem a i) (getitem b j));
        [|destruct (lcs_cell a b i (S j) <=? lcs_cell a b (S i) j)%nat eqn:Hle];
        rewrite unchanged_lines_cons; simpl.
      * rewrite IHi. lia.
      * apply Nat.leb_le in Hle. rewrite IHj. lia.
      * apply Nat.leb_gt in Hle. rewrite IHi. lia.
Qed.

(** ** The recurrence computes the length of a longest common subsequence *)

Lemma sublist_snoc_inv (s l : list string) x :
  sublist s (l ++ [x]) ->
  sublist s l \/ exists s', s = s' ++ [x] /\ sublist s' l.
Proof.
  intros (k1 & k2 & -> & H1 & H2)%sublist_app_r.
  apply sublist_cons_r in H2 as [H2|(k & -> & H2)];
    apply sublist_nil_r in H2 as ->.
  - left. by rewrite app_nil_r.
  - right. eauto.
Qed.

Lemma is_lcs_length_nil_l b : is_lcs_length [] b 0.
Proof.
  split.
  - exists []. split_and!; [done|apply sublist_nil_l|done].
  - intros s ->%sublist_nil_r _. done.
Qed.

Lemma is_lcs_length_nil_r a : is_lcs_length a [] 0.
Proof.
  split.
  - exists []. split_and!; [apply sublist_nil_l|done|done].
  - intros s _ ->%sublist_nil_r. done.
Qed.

Lemma is_lcs_length_snoc_match a b x n :
  is_lcs_length a b n -> is_lcs_length (a ++ [x]) (b ++ [x]) (n + 1).
Proof.
  intros [(s & Ha & Hb & Hn) Hmax]. split.
  - exists (s ++ [x]). split_and!; [by apply sublist_app..|].
    rewrite length_app. simpl. lia.
  - intros t [Hta|(ta & -> & Hta)]%sublist_snoc_inv
             [Htb|(tb & Heq & Htb)]%sublist_snoc_inv.
    + specialize (Hmax t Hta Htb). lia.
    + subst t. assert (sublist tb a).
      { etrans; [|exact Hta]. by apply sublist_inserts_r. }
      specialize (Hmax tb H Htb). rewrite length_app. simpl. lia.
    + assert (sublist ta b).
      { etrans; [|exact Htb]. by apply sublist_inserts_r. }
      specialize (Hmax ta Hta H). rewrite length_app. simpl. lia.
    + apply app_inj_tail in Heq as [-> _].
      specialize (Hmax tb Hta Htb). rewrite length_app. simpl. lia.
Qed.

Lemma is_lcs_length_snoc_mismatch a b x y p q :
  x <> y ->
  is_lcs_length a (b ++ [y]) p ->
  is_lcs_length (a ++ [x]) b q ->
  is_lcs_length (a ++ [x]) (b ++ [y]) (Nat.max p q).
Proof.
  intros Hxy [(s & Hsa & Hsb & Hp) Hpmax] [(t & Hta & Htb & Hq) Hqmax]. split.
  - destruct (Nat.max_spec p q) as [[_ ->]|[_ ->]].
    + exists t. split_and!; [done|by apply sublist_inserts_r|done].
    + exists s. split_and!; [by apply sublist_inserts_r|done|done].
  - intros u Hua Hub.
    destruct (sublist_snoc_inv _ _ _ Hua) as [Hu|(ua & -> & Hu)].
    + specialize (Hpmax u Hu Hub). lia.
    + destruct (sublist_snoc_inv _ _ _ Hub) as [Hu'|(ub & Heq & Hu')].
      * specialize (Hqmax _ Hua Hu'). lia.
      * apply app_inj_tail in Heq as [_ ?]. congruence.
Qed.

(** Cell (i, j) of the recurrence is the LCS length of the first [i] lines
    of [a] and the first [j] lines of [b]. *)
Lemma lcs_cell_is_lcs_length a b :
  forall i j, i <= length a -> j <= length b ->
  is_lcs_length (take i a) (take j b) (lcs_cell a b i j).
Proof.
  induction i as [|i IHi].
  - intros j _ _. apply is_lcs_length_nil_l.
  - induction j as [|j IHj]; intros Hi Hj.
    + rewrite lcs_cell_0_r. apply is_lcs_length_nil_r.
    + rewrite lcs_cell_S, (take_S_getitem a), (take_S_getitem b) by lia.
      destruct (String.eqb (getitem a i) (getitem b j)) eqn:Heq.
      * apply String.eqb_eq in Heq. rewrite Heq.
        apply is_lcs_length_snoc_match, IHi; lia.
      * apply String.eqb_neq in Heq.
        apply is_lcs_length_snoc_mismatch; [done|..].
        -- rewrite <- take_S_getitem by lia. apply IHi; lia.
        -- rewrite <- take_S_getitem by lia. apply IHj; lia.
Qed.

Lemma is_lcs_length_unique a b n n' :
  is_lcs_length a b n -> is_lcs_length a b n' -> n = n'.
Proof.
  intros [(s & Hsa & Hsb & Hn) Hmax] [(s' & Hsa' & Hsb' & Hn') Hmax'].
  specialize (Hmax _ Hsa' Hsb'). specialize (Hmax' _ Hsa Hsb). lia.
Qed.

Lemma is_lcs_length_sym a b n : is_lcs_length a b n -> is_lcs_length b a n.
Proof.
  intros [(s & Hsa & Hsb & Hn) Hmax]. split; [by exists s|].
  intros t Htb Hta. by apply Hmax.
Qed.

(** ** Whole-program statements *)

Lemma compute_lcs_length_table a b : compute_lcs_length a b = spec_table a b.
Proof.
  destruct (compute_lcs_length_dims a b) as [Hlen Hrows].
  apply list_eq_same_length with (length a + 1); [|done|].
  { unfold spec_table. by rewrite length_fmap, length_seq. }
  intros i row row' Hi Hrow Hrow'.
  unfold spec_table in Hrow'. rewrite list_lookup_fmap, lookup_seq_lt in Hrow' by done.
  simpl in Hrow'. injection Hrow' as <-.
  apply list_eq_same_length with (length b + 1); [|by eapply Hrows|].
  { by rewrite length_fmap, length_seq. }
  intros j v v' Hj Hv Hv'.
  rewrite list_lookup_fmap, lookup_seq_lt in Hv' by done. simpl in Hv'.
  injection Hv' as <-.
  rewrite <- (compute_lcs_length_cell a b i j) by lia.
  unfold cell. rewrite Hrow. simpl. by rewrite Hv.
Qed.

Lemma removed_plus_unchanged_swap d :
  removed_plus_unchanged (swap_label <$> d) = added_plus_unchanged d.
Proof.
  induction d as [|[ty c n] d IH]; [done|].
  rewrite fmap_cons, added_plus_unchanged_cons. unfold swap_label at 1. simpl.
  destruct (String.eqb ty "+") eqn:E1; [|destruct (String.eqb ty "-") eqn:E2];
    rewrite removed_plus_unchanged_cons, IH;
    rewrite ?String.eqb_eq, ?String.eqb_neq in *;
    subst; repeat case_decide; first [done | exfalso; intuition congruence].
Qed.

Lemma added_plus_unchanged_swap d :
  added_plus_unchanged (swap_label <$> d) = removed_plus_unchanged d.
Proof.
  induction d as [|[ty c n] d IH]; [done|].
  rewrite fmap_cons, removed_plus_unchanged_cons. unfold swap_label at 1. simpl.
  destruct (String.eqb ty "+") eqn:E1; [|destruct (String.eqb ty "-") eqn:E2];
    rewrite added_plus_unchanged_cons, IH;
    rewrite ?String.eqb_eq, ?String.eqb_neq in *;
    subst; repeat case_decide; first [done | exfalso; intuition congruence].
Qed.

Lemma count_type_cons ty' ty c n d :
  count_type ty' (mkDiffLine ty c n :: d) =
  if decide (ty = ty') then S (count_type ty' d) else count_type ty' d.
Proof.
  unfold count_type. rewrite filter_cons. simpl. by destruct (decide (ty = ty')).
Qed.

Lemma length_removed_plus_unchanged d :
  length (removed_plus_unchanged d) = count_type "-" d + length (unchanged_lines d).
Proof.
  induction d as [|[ty c n] d IH]; [done|].
  rewrite removed_plus_unchanged_cons, count_type_cons, unchanged_lines_cons.
  repeat case_decide; simpl; rewrite IH; first [lia | exfalso; intuition congruence].
Qed.

Lemma length_added_plus_unchanged d :
  length (added_plus_unchanged d) = count_type "+" d + length (unchanged_lines d).
Proof.
  induction d as [|[ty c n] d IH]; [done|].
  rewrite added_plus_unchanged_cons, count_type_cons, unchanged_lines_cons.
  repeat case_decide; simpl; rewrite IH; first [lia | exfalso; intuition congruence].
Qed.

Lemma compute_diff_spec text1 text2 :
  compute_diff text1 text2 =
  reverse (spec_backtrack (lines_of text1) (lines_of text2)
             (length (lines_of text1)) (length (lines_of text2))).
Proof. unfold compute_diff. cbv zeta. apply backtrack_diff_spec. Qed.

Lemma compute_diff_removed text1 text2 :
  removed_plus_unchanged (compute_diff text1 text2) = lines_of text1.
Proof.
  rewrite compute_diff_spec. unfold removed_plus_unchanged.
  rewrite filter_reverse, fmap_reverse.
  fold (removed_plus_unchanged
          (spec_backtrack (lines_of text1) (lines_of text2)
             (length (lines_of text1)) (length (lines_of text2)))).
  by rewrite spec_backtrack_removed, reverse_involutive, firstn_all.
Qed.

Lemma compute_diff_added text1 text2 :
  added_plus_unchanged (compute_diff text1 text2) = lines_of text2.
Proof.
  rewrite compute_diff_spec. unfold added_plus_unchanged.
  rewrite filter_reverse, fmap_reverse.
  fold (added_plus_unchanged
          (spec_backtrack (lines_of text1) (lines_of text2)
             (length (lines_of text1)) (length (lines_of text2)))).
  by rewrite spec_backtrack_added, reverse_involutive, firstn_all.
Qed.

Lemma compute_diff_unchanged text1 text2 :
  is_lcs_length (lines_of text1) (lines_of text2)
    (length (unchanged_lines (compute_diff text1 text2))).
Proof.
  rewrite compute_diff_spec. unfold unchanged_lines.
  rewrite filter_reverse, fmap_reverse, length_reverse.
  fold (unchanged_lines
          (spec_backtrack (lines_of text1) (lines_of text2)
             (length (lines_of text1)) (length (lines_of text2)))).
  rewrite spec_backtrack_unchanged.
  pose proof (lcs_cell_is_lcs_length (lines_of text1) (lines_of text2)
                (length (lines_of text1)) (length (lines_of text2))) as H.
  rewrite !firstn_all in H. by apply H.
Qed.

Lemma unchanged_sublist_removed d :
  sublist (unchanged_lines d) (removed_plus_unchanged d).
Proof.
  induction d as [|[ty c n] d IH]; [constructor|].
  rewrite unchanged_lines_cons, removed_plus_unchanged_cons.
  repeat case_decide;
    first [done | by apply sublist_skip | by apply sublist_cons
          | exfalso; intuition congruence].
Qed.

Lemma unchanged_sublist_added d :
  sublist (unchanged_lines d) (added_plus_unchanged d).
Proof.
  induction d as [|[ty c n] d IH]; [constructor|].
  rewrite unchanged_lines_cons, added_plus_unchanged_cons.
  repeat case_decide;
    first [done | by apply sublist_skip | by apply sublist_cons
          | exfalso; intuition congruence].
Qed.

(** No edit script between the two texts keeps more lines unchanged, or
    has fewer added and removed lines, than the one [compute_diff] returns. *)
Lemma no_shorter_edit_script text1 text2 d' :
  removed_plus_unchanged d' = lines_of text1 ->
  added_plus_unchanged d' = lines_of text2 ->
  length (unchanged_lines d') <= length (unchanged_lines (compute_diff text1 text2)) /\
  count_type "+" (compute_diff text1 text2) + count_type "-" (compute_diff text1 text2)
    <= count_type "+" d' + count_type "-" d'.
Proof.
  intros Hr Ha.
  assert (length (unchanged_lines d')
          <= length (unchanged_lines (compute_diff text1 text2))) as Hle.
  { destruct (compute_diff_unchanged text1 text2) as [_ Hmax]. apply Hmax.
    - rewrite <- Hr. apply unchanged_sublist_removed.
    - rewrite <- Ha. apply unchanged_sublist_added. }
  split; [done|].
  pose proof (length_removed_plus_unchanged d') as H1.
  pose proof (length_added_plus_unchanged d') as H2.
  pose proof (length_removed_plus_unchanged (compute_diff text1 text2)) as H3.
  pose proof (length_added_plus_unchanged (compute_diff text1 text2)) as H4.
  rewrite Hr in H1. rewrite Ha in H2.
  rewrite compute_diff_removed in H3. rewrite compute_diff_added in H4. lia.
Qed.

(** C2.  [compute_diff] splits both texts into lines, fills the
    (m+1) x (n+1) table of the LCS recurrence and backtracks from cell (m, n)
    by the stated rule (unchanged and a diagonal step on a match, else added
    when the left neighbour is at least the up neighbour, else removed),
    reversing the steps at the end.  The script it returns is minimal: its
    removed and unchanged lines, in order, are the lines of the first text;
    its added and unchanged lines, in order, are the lines of the second
    text; and its unchanged lines number exactly the length of a longest
    common subsequence of the two line lists, so that no edit script between
    the two texts has fewer added and removed lines. *)
Theorem compute_diff_minimal_edit_script (text1 text2 : string) :
  let a := lines_of text1 in
  let b := lines_of text2 in
  let d := compute_diff text1 text2 in
  compute_lcs_length a b = spec_table a b /\
  length (compute_lcs_length a b) = length a + 1 /\
  Forall (fun row => length row = length b + 1) (compute_lcs_length a b) /\
  d = backtrack_diff a b (compute_lcs_length a b) /\
  d = reverse (spec_backtrack a b (length a) (length b)) /\
  removed_plus_unchanged d = a /\
  added_plus_unchanged d = b /\
  is_lcs_length a b (length (unchanged_lines d)) /\
  (forall d', removed_plus_unchanged d' = a -> added_plus_unchanged d' = b ->
     length (unchanged_lines d') <= length (unchanged_lines d) /\
     count_type "+" d + count_type "-" d <= count_type "+" d' + count_type "-" d').
Proof.
  cbv zeta. split_and!.
  - apply compute_lcs_length_table.
  - apply compute_lcs_length_dims.
  - apply Forall_lookup. intros i row.
    apply (compute_lcs_length_dims (lines_of text1) (lines_of text2)).
  - reflexivity.
  - apply compute_diff_spec.
  - apply compute_diff_removed.
  - apply compute_diff_added.
  - apply compute_diff_unchanged.
  - apply no_shorter_edit_script.
Qed.

(** C7, as the code has it.  Swapping the inputs does not in general swap
    the labels line by line, because the tie-break of the backtracking is
    not symmetric.  What does hold: the label-swapped script of
    [compute_diff b a] is an edit script from [a] to [b], and it has as many
    unchanged, added and removed lines as [compute_diff a b]. *)
Theorem compute_diff_swap_inputs (a b : string) :
  let d := compute_diff a b in
  let d' := compute_diff b a in
  removed_plus_unchanged (swap_label <$> d') = lines_of a /\
  added_plus_unchanged (swap_label <$> d') = lines_of b /\
  length (unchanged_lines d') = length (unchanged_lines d) /\
  count_type "+" d' = count_type "-" d /\
  count_type "-" d' = count_type "+" d.
Proof.
  cbv zeta.
  assert (length (unchanged_lines (compute_diff b a)) =
          length (unchanged_lines (compute_diff a b))) as Hu.
  { eapply is_lcs_length_unique; [|apply compute_diff_unchanged].
    apply is_lcs_length_sym, compute_diff_unchanged. }
  pose proof (length_removed_plus_unchanged (compute_diff a b)) as H1.
  pose proof (length_added_plus_unchanged (compute_diff a b)) as H2.
  pose proof (length_removed_plus_unchanged (compute_diff b a)) as H3.
  pose proof (length_added_plus_unchanged (compute_diff b a)) as H4.
  rewrite compute_diff_removed in H1, H3. rewrite compute_diff_added in H2, H4.
  split_and!.
  - by rewrite removed_plus_unchanged_swap, compute_diff_added.
  - by rewrite added_plus_unchanged_swap, compute_diff_removed.
  - done.
  - lia.
  - lia.
Qed.

(** C7 as stated fails: for the texts x/y and y/x the two scripts keep
    different lines unchanged, and neither is the label swap of the other. *)
Lemma compute_diff_not_antisymmetric :
  let a := ("x" ++ LF ++ "y")%string in
  let b := ("y" ++ LF ++ "x")%string in
  unchanged_lines (compute_diff a b) = ["y"%string] /\
  unchanged_lines (compute_diff b a) = ["x"%string] /\
  labelled <$> compute_diff b a <> labelled <$> (swap_label <$> compute_diff a b).
Proof. vm_compute. split_and!; [reflexivity..|discriminate]. Qed.

End diff_proofs.
(** * Proofs about the merge engine *)

Module merge_proofs.
Import merge merge_spec.

Lemma three_way_merge_cases b o t :
  three_way_merge b o t =
  if decide (o = t) then (o, false)
  else if decide (o = b) then (t, false)
  else if decide (t = b) then (o, false)
  else (""%string, true).
Proof.
  unfold three_way_merge.
  destruct (String.eqb_spec o t), (String.eqb_spec o b), (String.eqb_spec t b);
    repeat case_decide; congruence.
Qed.

(** C1.  [merge_files] follows the eight rules of the state machine on every
    path and every triple for which the rules say something: identical or
    one-sided additions are taken; files deleted on both sides, or deleted
    on one and untouched on the other, are dropped; diverging additions,
    delete against modify and diverging edits are conflicts; with all three
    present, ours == theirs takes either, ours == base takes theirs,
    theirs == base takes ours. *)
Theorem merge_files_state_machine (path : string) (b o t : option string) (v : verdict) :
  state_machine b o t = Some v ->
  verdict_of (merge_files path b o t) = Some v.
Proof.
  destruct b as [b|], o as [o|], t as [t|]; simpl; try done.
  - rewrite three_way_merge_cases. repeat case_decide; simpl; done.
  - destruct (String.eqb_spec o b); case_decide; try done; congruence.
  - destruct (String.eqb_spec t b); case_decide; try done; congruence.
  - destruct (String.eqb_spec o t); case_decide; try done; congruence.
Qed.

Lemma merge_files_state_machine_witness :
  state_machine (Some "x") (Some "y") (Some "x") = Some (Take "y") /\
  verdict_of (merge_files "f.txt" (Some "x") (Some "y") (Some "x")) = Some (Take "y").
Proof.
  split; [reflexivity|].
  apply (merge_files_state_machine "f.txt" (Some "x") (Some "y") (Some "x") (Take "y")).
  reflexivity.
Defined.

(** ** The loop of [perform_merge] *)

Lemma merge_path_merged base_files ours_files theirs_files r path q :
  merged_files (merge_path base_files ours_files theirs_files r path) !! q =
  match merge_files path (base_files !! path) (ours_files !! path) (theirs_files !! path) with
  | (Some content, None) => if decide (path = q) then Some content else merged_files r !! q
  | _ => merged_files r !! q
  end.
Proof.
  unfold merge_path.
  destruct (merge_files _ _ _ _) as [[content|] [c|]]; simpl; try done.
  case_decide; subst; by simplify_map_eq.
Qed.

Lemma merge_path_conflicts base_files ours_files theirs_files r path :
  conflicts (merge_path base_files ours_files theirs_files r path) =
  match merge_files path (base_files !! path) (ours_files !! path) (theirs_files !! path) with
  | (_, Some c) => conflicts r ++ [c]
  | _ => conflicts r
  end.
Proof.
  unfold merge_path.
  by destruct (merge_files _ _ _ _) as [[content|] [c|]].
Qed.

Lemma merge_files_conflict_path path b o t m c :
  merge_files path b o t = (m, Some c) -> file_path c = path.
Proof.
  intros H. destruct b as [b|], o as [o|], t as [t|]; simpl in H;
    try (destruct (three_way_merge b o t) as [? []]);
    repeat match type of H with
           | context [String.eqb ?x ?y] => destruct (String.eqb x y)
           end;
    first [discriminate H | by injection H as <- <-].
Qed.

(** A path that merges to [content] without conflict keeps that content in
    [merged_files] once the loop has passed it, and never gets a conflict. *)
Lemma foldl_merge_path_taken base_files ours_files theirs_files path content order :
  merge_files path (base_files !! path) (ours_files !! path) (theirs_files !! path)
    = (Some content, None) ->
  forall r,
  (path ∈ order \/ merged_files r !! path = Some content) ->
  (forall c, c ∈ conflicts r -> file_path c <> path) ->
  let r' := foldl (merge_path base_files ours_files theirs_files) r order in
  merged_files r' !! path = Some content /\
  (forall c, c ∈ conflicts r' -> file_path c <> path).
Proof.
  intros Hm. induction order as [|q order IH]; intros r Hin Hc; simpl.
  - split; [|done]. destruct Hin as [Hin%elem_of_nil|]; done.
  - apply IH.
    + destruct (decide (path = q)) as [<-|Hne].
      * right. rewrite merge_path_merged, Hm. by rewrite decide_True.
      * destruct Hin as [Hin|Hin].
        -- apply elem_of_cons in Hin as [?|?]; [done|by left].
        -- right. rewrite merge_path_merged.
           destruct (merge_files q _ _ _) as [[?|] [?|]]; try done.
           by rewrite decide_False.
    + intros c. rewrite merge_path_conflicts.
      destruct (merge_files q _ _ _) as [m [c'|]] eqn:Hq; [|by apply Hc].
      intros [?| ->%list_elem_of_singleton]%elem_of_app; [by apply Hc|].
      rewrite (merge_files_conflict_path _ _ _ _ _ _ Hq).
      intros ->. by rewrite Hm in Hq.
Qed.

Lemma iterates_elements (paths : gset string) : iterates (elements paths) paths.
Proof. split; [apply NoDup_elements|]. intros p. apply elem_of_elements. Qed.

(** C9.  Absence is [None], and the empty string is a present file in every
    rule of [merge_files]: an empty file added on one side only, or on both,
    is taken with empty content; an empty base deleted on both sides, or
    deleted on one and still empty on the other, is dropped; an empty side
    against a different other side is a conflict; an edit to empty is taken.
    When a path is absent from base and theirs and empty in ours,
    [perform_merge], in whatever order it takes the paths, records the path
    in [merged_files] with empty content and records no conflict for it. *)
Theorem empty_content_is_present (path : string) (order : list string)
    (base_files ours_files theirs_files : gmap string string) :
  iterates order (all_paths base_files ours_files theirs_files) ->
  base_files !! path = None ->
  ours_files !! path = Some ""%string ->
  theirs_files !! path = None ->
  merge_files path None (Some "") None = (Some "", None) /\
  merge_files path None None (Some "") = (Some "", None) /\
  merge_files path None (Some "") (Some "") = (Some "", None) /\
  merge_files path (Some "") None None = (None, None) /\
  merge_files path (Some "") (Some "") None = (None, None) /\
  merge_files path (Some "") None (Some "") = (None, None) /\
  (forall t, merge_files path None (Some "") (Some t) =
     if decide (t = ""%string) then (Some "", None)
     else (None, Some (mkMergeConflict path "" "" t))) /\
  (forall b, merge_files path (Some b) None (Some "") =
     if decide (b = ""%string) then (None, None)
     else (None, Some (mkMergeConflict path b "" ""))) /\
  (forall b, merge_files path (Some b) (Some "") None =
     if decide (b = ""%string) then (None, None)
     else (None, Some (mkMergeConflict path b "" ""))) /\
  (forall b, merge_files path (Some b) (Some "") (Some b) = (Some "", None)) /\
  merged_files (perform_merge_in order base_files ours_files theirs_files) !! path
    = Some ""%string /\
  (path ∉ map file_path
            (conflicts (perform_merge_in order base_files ours_files theirs_files))) /\
  merged_files (perform_merge base_files ours_files theirs_files) !! path
    = Some ""%string /\
  (path ∉ map file_path (conflicts (perform_merge base_files ours_files theirs_files))).
Proof.
  intros Hiter Hb Ho Ht.
  assert (forall order',
    iterates order' (all_paths base_files ours_files theirs_files) ->
    merged_files (perform_merge_in order' base_files ours_files theirs_files) !! path
      = Some ""%string /\
    (path ∉ map file_path
              (conflicts (perform_merge_in order' base_files ours_files theirs_files))))
    as Hmerge.
  { intros order' [_ Hin].
    destruct (foldl_merge_path_taken base_files ours_files theirs_files path "" order')
      with (r := MergeResult_init) as [Hm Hc].
    - by rewrite Hb, Ho, Ht.
    - left. apply Hin. unfold all_paths.
      apply elem_of_union_l, elem_of_union_r, elem_of_dom. by rewrite Ho.
    - intros c Hc. by apply elem_of_nil in Hc.
    - split; [exact Hm|]. intros (c & Hp & Hcin)%list_elem_of_fmap.
      by apply (Hc c). }
  destruct (Hmerge order Hiter) as [Hm1 Hc1].
  destruct (Hmerge _ (iterates_elements _)) as [Hm2 Hc2].
  split_and!; try done.
  - intros t. unfold merge_files.
    destruct (String.eqb_spec "" t); case_decide; congruence.
  - intros b. unfold merge_files.
    destruct (String.eqb_spec "" b); case_decide; congruence.
  - intros b. unfold merge_files.
    destruct (String.eqb_spec "" b); case_decide; congruence.
  - intros b. unfold merge_files. rewrite three_way_merge_cases.
    repeat case_decide; congruence.
Qed.

Lemma empty_content_is_present_witness :
  let ours_files : gmap string string := {["empty.txt"%string := ""%string]} in
  iterates ["empty.txt"%string] (all_paths ∅ ours_files ∅) /\
  merge_files "empty.txt" None (Some "") None = (Some ""%string, None) /\
  merged_files (perform_merge_in ["empty.txt"%string] ∅ ours_files ∅) !! "empty.txt"%string
    = Some ""%string.
Proof.
  assert (iterates ["empty.txt"%string]
            (all_paths ∅ ({["empty.txt"%string := ""%string]} : gmap string string) ∅))
    as Hiter.
  { split; [apply NoDup_singleton|]. intros p. unfold all_paths.
    rewrite dom_empty_L, dom_singleton_L, (left_id_L ∅ (∪)), (right_id_L ∅ (∪)).
    by rewrite list_elem_of_singleton, elem_of_singleton. }
  pose proof (empty_content_is_present "empty.txt" ["empty.txt"%string]
                ∅ {["empty.txt"%string := ""%string]} ∅ Hiter
                (lookup_empty _) (lookup_singleton_eq _ _) (lookup_empty _))
    as (H1 & _ & _ & _ & _ & _ & _ & _ & _ & _ & H11 & _).
  split; [exact Hiter|]. split; [exact H1|exact H11].
Defined.

End merge_proofs.
(** * More about the object store and the commit walks *)

Module store_extra.
Import py hash_object commit commit_spec hash_object_proofs commit_proofs extra_spec.

Section store.
Context {Obj : Type} `{!Codec Obj}.

Lemma retrieve_object_store_object st obj :
  pickle_loads (pickle_dumps obj) = Some obj ->
  no_collision st (pickle_dumps obj) ->
  retrieve_object (snd (store_object st obj)) (fst (store_object st obj)) = Ok obj.
Proof.
  intros Hround Hnc. rewrite store_object_hash.
  assert (files (snd (store_object st obj)) !! obj_path (hash_content (pickle_dumps obj))
          = Some (pickle_dumps obj)) as Hf.
  { rewrite store_object_files.
    destruct (files st !! _) as [content|] eqn:Hc.
    - by rewrite Hc, (Hnc _ Hc).
    - by rewrite lookup_insert_eq. }
  by rewrite (retrieve_object_present _ _ _ (digest_path _) Hf), Hround.
Qed.

Lemma store_object_keeps_file st obj path content :
  files st !! path = Some content ->
  files (snd (store_object st obj)) !! path = Some content.
Proof.
  intros Hf. rewrite store_object_files.
  destruct (files st !! obj_path _) as [c|] eqn:Hc; [done|].
  rewrite lookup_insert_ne; [done|]. intros <-. congruence.
Qed.

Lemma store_object_keeps_subdir st obj name :
  name ∈ subdirs st -> name ∈ subdirs (snd (store_object st obj)).
Proof. rewrite store_object_subdirs. apply elem_of_union_r. Qed.

Lemma object_exists_kept st obj h :
  object_exists st h = true -> object_exists (snd (store_object st obj)) h = true.
Proof.
  unfold object_exists, path_exists.
  destruct (String.eqb (snd (obj_path h)) "") eqn:He.
  - intros [Hx|Hx%bool_decide_eq_true]%orb_true_iff; apply orb_true_iff; [by left|right].
    apply bool_decide_eq_true. by apply store_object_keeps_subdir.
  - intros [content Hf]%bool_decide_eq_true. apply bool_decide_eq_true.
    exists content. by apply store_object_keeps_file.
Qed.

Lemma retrieve_object_kept st obj h :
  object_exists st h = true ->
  retrieve_object (snd (store_object st obj)) h = retrieve_object st h.
Proof.
  intros Hex. pose proof (object_exists_kept st obj h Hex) as Hex'.
  destruct (String.eqb_spec (str_drop 2 h) "") as [He|Hne].
  - by rewrite !retrieve_object_directory.
  - apply path_exists_true in Hex as [content Hf]; [|done].
    rewrite (retrieve_object_present _ _ _ Hne Hf).
    by rewrite (retrieve_object_present _ _ _ Hne (store_object_keeps_file _ obj _ _ Hf)).
Qed.

Lemma store_object_exists st obj :
  object_exists (snd (store_object st obj)) (fst (store_object st obj)) = true.
Proof.
  rewrite store_object_hash. apply path_exists_true; [apply digest_path|].
  rewrite store_object_files.
  destruct (files st !! _) as [c|] eqn:Hc; [by rewrite Hc|].
  rewrite lookup_insert_eq. eauto.
Qed.

Lemma str_take_take n s : str_take n (str_take n s) = str_take n s.
Proof. revert s. induction n as [|n IH]; intros [|c s]; simpl; by rewrite ?IH. Qed.

Lemma str_drop_take n s : str_drop n (str_take n s) = ""%string.
Proof. revert s. induction n as [|n IH]; intros [|c s]; simpl; by rewrite ?IH. Qed.

(** The subdirectory that [store_object] made is there afterwards. *)
Lemma store_object_subdir_exists st obj :
  object_exists (snd (store_object st obj))
    (str_take 2 (fst (store_object st obj))) = true.
Proof.
  rewrite store_object_hash. unfold object_exists, path_exists, obj_path.
  cbn [fst snd]. rewrite str_drop_take, str_take_take. cbn [String.eqb].
  apply orb_true_iff. right. apply bool_decide_eq_true.
  rewrite store_object_subdirs. apply elem_of_union_l. by apply elem_of_singleton.
Qed.

Lemma store_all_kept objs : forall st h,
  object_exists st h = true ->
  object_exists (store_all st objs) h = true /\
  retrieve_object (store_all st objs) h = retrieve_object st h.
Proof.
  unfold store_all. induction objs as [|obj objs IH]; intros st h Hex; simpl; [done|].
  destruct (IH (snd (store_object st obj)) h (object_exists_kept _ obj _ Hex))
    as [H1 H2].
  split; [done|]. rewrite H2. by apply retrieve_object_kept.
Qed.

(** X1.  What was stored is what is retrieved: when unpickling undoes
    pickling on the object and the store holds no colliding payload,
    [retrieve_object] on the hash that [store_object] returned gives the
    object back, at once and after any further [store_object] calls. *)
Theorem retrieve_after_store (st : HashObject) (obj : Obj) (objs : list Obj) :
  pickle_loads (pickle_dumps obj) = Some obj ->
  no_collision st (pickle_dumps obj) ->
  let r := store_object st obj in
  retrieve_object (snd r) (fst r) = Ok obj /\
  object_exists (store_all (snd r) objs) (fst r) = true /\
  retrieve_object (store_all (snd r) objs) (fst r) = Ok obj.
Proof.
  intros Hround Hnc. cbv zeta.
  pose proof (retrieve_object_store_object st obj Hround Hnc) as Hr.
  destruct (store_all_kept objs _ _ (store_object_exists st obj)) as [H1 H2].
  by rewrite H2.
Qed.

(** X2.  [store_object] never removes or overwrites.  For a hash of
    letters and digits that passes the existence test of the store, be it
    the hash of a file or, with at most two characters, the name of a
    subdirectory that exists: the test still passes after any
    [store_object] call, and [retrieve_object] answers as before.  Every
    file is kept with its content; the hash returned and the subdirectory
    named by its first two characters exist afterwards; and the store
    grows by at most one file. *)
Theorem store_object_keeps (st : HashObject) (obj : Obj) (h : string) :
  is_name h = true ->
  object_exists st h = true ->
  object_exists (snd (store_object st obj)) h = true /\
  retrieve_object (snd (store_object st obj)) h = retrieve_object st h /\
  files st ⊆ files (snd (store_object st obj)) /\
  object_exists (snd (store_object st obj)) (fst (store_object st obj)) = true /\
  object_exists (snd (store_object st obj))
    (str_take 2 (fst (store_object st obj))) = true /\
  size (files (snd (store_object st obj))) <= S (size (files st)).
Proof.
  intros _ Hex. split_and!.
  - by apply object_exists_kept.
  - by apply retrieve_object_kept.
  - apply map_subseteq_spec. intros path content. apply store_object_keeps_file.
  - apply store_object_exists.
  - apply store_object_subdir_exists.
  - rewrite store_object_files.
    destruct (files st !! _) as [c|] eqn:Hc; [lia|].
    by rewrite map_size_insert_None.
Qed.

Lemma store_object_content_addressed st obj :
  content_addressed st -> content_addressed (snd (store_object st obj)).
Proof.
  intros Hca path content. rewrite store_object_files.
  destruct (files st !! obj_path _) as [c|] eqn:Hc; [apply Hca|].
  rewrite lookup_insert_Some. intros [[<- <-]|[_ Hf]]; [done|by apply Hca].
Qed.

(** X3.  Every store reached from the empty one by [store_object] calls is
    content-addressed: each file sits at the path made from the hash of its
    own content, and each subdirectory of a file has been created. *)
Theorem store_all_content_addressed (objs : list Obj) :
  let st := store_all HashObject_init objs in
  content_addressed st /\
  forall path content, files st !! path = Some content -> fst path ∈ subdirs st.
Proof.
  cbv zeta. unfold store_all.
  induction objs as [|obj objs IH] using rev_ind.
  - split; intros path content; simpl; by rewrite lookup_empty.
  - rewrite foldl_app. simpl. destruct IH as [IH1 IH2]. split.
    + by apply store_object_content_addressed.
    + intros path content. rewrite store_object_files, store_object_subdirs.
      destruct (files _ !! obj_path _) as [c|] eqn:Hc.
      * intros Hf. apply elem_of_union_r. by eapply IH2.
      * rewrite lookup_insert_Some. intros [[<- _]|[_ Hf]].
        -- apply elem_of_union_l. by apply elem_of_singleton.
        -- apply elem_of_union_r. by eapply IH2.
Qed.

End store.

Import example.

Lemma retrieve_after_store_witness :
  let obj := PyCommit (mkCommit "t0" None "A" "me" "d0" None) in
  let r := store_object HashObject_init obj in
  pickle_loads (pickle_dumps obj) = Some obj /\
  no_collision HashObject_init (pickle_dumps obj) /\
  retrieve_object (snd r) (fst r) = Ok obj /\
  retrieve_object (store_all (snd r) [PyBytes "x"]) (fst r) = Ok obj.
Proof.
  cbv zeta.
  assert (no_collision HashObject_init
            (pickle_dumps (PyCommit (mkCommit "t0" None "A" "me" "d0" None)))) as Hnc.
  { intros content. simpl. by rewrite lookup_empty. }
  assert (pickle_loads (pickle_dumps (PyCommit (mkCommit "t0" None "A" "me" "d0" None)))
          = Some (PyCommit (mkCommit "t0" None "A" "me" "d0" None))) as Hround
    by reflexivity.
  destruct (retrieve_after_store HashObject_init
              (PyCommit (mkCommit "t0" None "A" "me" "d0" None)) [PyBytes "x"]
              Hround Hnc) as (H1 & _ & H3).
  split_and!; [reflexivity|exact Hnc|exact H1|exact H3].
Defined.

Lemma store_object_keeps_witness :
  let r := store_object store_A (PyBytes "x") in
  is_name "AA00" = true /\
  object_exists store_A "AA00" = true /\
  object_exists (snd r) "AA00" = true /\
  retrieve_object (snd r) "AA00" = retrieve_object store_A "AA00" /\
  is_name "AA" = true /\
  object_exists store_A "AA" = true /\
  object_exists (snd r) "AA" = true /\
  retrieve_object (snd r) "AA" = Raise (IsADirectoryError "AA") /\
  object_exists (snd r) "xx" = true.
Proof.
  cbv zeta.
  assert (object_exists store_A "AA00" = true) as Hfile by (by vm_compute).
  assert (object_exists store_A "AA" = true) as Hdir by (by vm_compute).
  destruct (store_object_keeps store_A (PyBytes "x") "AA00" eq_refl Hfile)
    as (F1 & F2 & _).
  destruct (store_object_keeps store_A (PyBytes "x") "AA" eq_refl Hdir)
    as (D1 & D2 & _ & _ & D5 & _).
  split_and!; [reflexivity|exact Hfile|exact F1|exact F2|
               reflexivity|exact Hdir|exact D1|by rewrite D2|exact D5].
Defined.

(** A file that was cut down to nothing is found and opened, and
    [pickle.loads] raises on its empty content: the failure that escapes
    is EOFError, not the not-found failure. *)
Lemma retrieve_object_empty_file :
  let st := mkHashObject {["AA"%string]} {[("AA", "00")%string := ""%string]} in
  @object_exists st "AA00" = true /\
  @retrieve_object pyobj example_repo.codec st "AA00" = Raise (LoadsError "EOFError").
Proof. split; reflexivity. Qed.

End store_extra.

Module commit_extra.
Import py hash_object commit commit_spec hash_object_proofs commit_proofs example.

Section walks.
Context `{!Codec pyobj}.

Lemma get_commit_kept st obj h c :
  get_commit st h = Ok c -> get_commit (snd (store_object st obj)) h = Ok c.
Proof.
  intros Hg. unfold get_commit in *.
  destruct (get_commit_file _ _ _ Hg) as [Hne [content Hf]].
  rewrite (retrieve_object_present _ _ _ Hne Hf) in Hg.
  by rewrite (retrieve_object_present _ _ _ Hne
                (store_extra.store_object_keeps_file _ obj _ _ Hf)).
Qed.

Lemma chain_kept st obj cur cs :
  chain st cur cs -> chain (snd (store_object st obj)) cur cs.
Proof.
  induction 1 as [|h c cs Hne Hg Hch IH]; [constructor|].
  apply chain_link; [done|by apply get_commit_kept|done].
Qed.

Lemma create_commit_get_commit st now tree_hash parent_hash message author :
  let c := mkCommit tree_hash parent_hash message author now None in
  let r := create_commit st now tree_hash parent_hash message author in
  pickle_loads (pickle_dumps (PyCommit c)) = Some (PyCommit c) ->
  no_collision st (pickle_dumps (PyCommit c)) ->
  get_commit (snd r) (fst r) = Ok (set_hash c (fst r)).
Proof.
  cbv zeta. intros Hround Hnc. unfold get_commit.
  change (create_commit st now tree_hash parent_hash message author)
    with (store_object st (PyCommit (mkCommit tree_hash parent_hash message author
                                       now None))).
  by rewrite (store_extra.retrieve_object_store_object st _ Hround Hnc).
Qed.

Lemma create_commit_chain st now tree_hash parent_hash message author cs :
  let c := mkCommit tree_hash parent_hash message author now None in
  let r := create_commit st now tree_hash parent_hash message author in
  chain st parent_hash cs ->
  pickle_loads (pickle_dumps (PyCommit c)) = Some (PyCommit c) ->
  no_collision st (pickle_dumps (PyCommit c)) ->
  fst r <> ""%string ->
  chain (snd r) (Some (fst r)) (set_hash c (fst r) :: cs).
Proof.
  cbv zeta. intros Hch Hround Hnc Hne.
  apply chain_link; [done|by apply create_commit_get_commit|].
  simpl. by apply chain_kept.
Qed.

(** X4.  A commit created on top of a complete chain extends it: when
    unpickling undoes pickling on the new commit, the store holds no
    colliding payload and the hash is not empty, [get_commit] on the hash
    [create_commit] returned gives the commit with the fields passed in and
    its hash set, the chain from the new hash is the new commit followed by
    the old chain, [get_commit_count] is one more and [get_commit_history]
    lists the new commit first. *)
Theorem create_commit_extends_chain (st : HashObject) (now tree_hash : string)
    (parent_hash : option string) (message author : string)
    (cs : list Commit) (fuel : nat) :
  let c := mkCommit tree_hash parent_hash message author now None in
  let r := create_commit st now tree_hash parent_hash message author in
  chain st parent_hash cs ->
  pickle_loads (pickle_dumps (PyCommit c)) = Some (PyCommit c) ->
  no_collision st (pickle_dumps (PyCommit c)) ->
  fst r <> ""%string ->
  length cs < fuel ->
  get_commit (snd r) (fst r) = Ok (set_hash c (fst r)) /\
  chain (snd r) (Some (fst r)) (set_hash c (fst r) :: cs) /\
  get_commit_count fuel (snd r) (fst r) = Some (Ok (Z.of_nat (length cs) + 1)%Z) /\
  get_commit_history fuel (snd r) (fst r) None = Some (Ok (set_hash c (fst r) :: cs)).
Proof.
  cbv zeta. intros Hch Hround Hnc Hne Hfuel.
  pose proof (create_commit_get_commit st now tree_hash parent_hash message author
                Hround Hnc) as Hg.
  pose proof (create_commit_chain st now tree_hash parent_hash message author cs
                Hch Hround Hnc Hne) as Hch'.
  cbv zeta in Hg, Hch'.
  split_and!; [done|done| |].
  - rewrite (get_commit_count_chain _ _ _ _ Hch') by (simpl; lia).
    do 2 f_equal. simpl. lia.
  - by rewrite (get_commit_history_no_limit _ _ _ _ Hch') by (simpl; lia).
Qed.

(** ** Chains *)

Lemma chain_functional st cur cs cs' : chain st cur cs -> chain st cur cs' -> cs = cs'.
Proof.
  intros Hch. revert cs'.
  induction Hch as [|h c cs Hne Hg Hch IH]; intros cs' Hch'.
  - by inversion Hch'.
  - inversion Hch' as [|h' c' cs'' Hne' Hg' Hch'']; subst.
    rewrite Hg in Hg'. injection Hg' as <-. f_equal. by apply IH.
Qed.

Lemma chain_hash st cur cs c : chain st cur cs -> c ∈ cs -> is_Some (hash c).
Proof.
  induction 1 as [|h c' cs Hne Hg Hch IH]; [by intros ?%elem_of_nil|].
  intros [->|Hin]%elem_of_cons; [|by apply IH].
  rewrite (get_commit_hash _ _ _ Hg). eauto.
Qed.

Lemma chain_ids_length st cur cs : chain st cur cs -> length (ids cs) = length cs.
Proof.
  induction 1 as [|h c cs Hne Hg Hch IH]; [done|].
  rewrite (ids_cons _ _ _ _ Hg). simpl. by rewrite IH.
Qed.

(** From any hash on a chain, the chain goes on as the rest of the list. *)
Lemma chain_from_member st cur cs h :
  chain st cur cs -> h ∈ ids cs ->
  exists pre post, cs = pre ++ post /\ ids cs = ids pre ++ ids post /\
                   head (ids post) = Some h /\ chain st (Some h) post.
Proof.
  intros Hch. induction Hch as [|h' c cs Hne Hg Hch IH]; [by intros ?%elem_of_nil|].
  intros Hin. rewrite (ids_cons _ _ _ _ Hg) in Hin.
  destruct (decide (h = h')) as [->|Hneq].
  - exists [], (c :: cs). split_and!; [reflexivity|apply (omap_app hash [] (c :: cs))| |].
    + by rewrite (ids_cons _ _ _ _ Hg).
    + by apply chain_link.
  - apply elem_of_cons in Hin as [?|Hin]; [done|].
    destruct (IH Hin) as (pre & post & -> & Hids & Hhead & Hpost).
    exists (c :: pre), post. split_and!; [done| |done|done].
    apply (omap_app hash (c :: pre) post).
Qed.

Lemma chain_ids_NoDup st cur cs : chain st cur cs -> NoDup (ids cs).
Proof.
  induction 1 as [|h c cs Hne Hg Hch IH]; [constructor|].
  rewrite (ids_cons _ _ _ _ Hg). constructor; [|done].
  intros Hin.
  destruct (chain_from_member _ _ _ _ Hch Hin) as (pre & post & -> & _ & _ & Hpost).
  assert (c :: pre ++ post = post) as Heq.
  { eapply chain_functional; [|exact Hpost]. by apply chain_link. }
  apply (f_equal length) in Heq. simpl in Heq. rewrite length_app in Heq. lia.
Qed.

Lemma first_shared_Some l1 l2 h :
  first_shared l1 l2 = Some h ->
  exists pre post, l2 = pre ++ h :: post /\ h ∈ l1 /\ forall x, x ∈ pre -> x ∉ l1.
Proof.
  unfold first_shared. induction l2 as [|x l2 IH]; simpl; [done|].
  case_bool_decide as Hx.
  - intros [= ->]. exists [], l2. split_and!; [done..|]. by intros y ?%elem_of_nil.
  - intros Hf. destruct (IH Hf) as (pre & post & -> & Hh & Hpre).
    exists (x :: pre), post. split_and!; [done..|].
    intros y [->|Hy]%elem_of_cons; [done|by apply Hpre].
Qed.

Lemma first_shared_intro l1 pre h post :
  h ∈ l1 -> (forall x, x ∈ pre -> x ∉ l1) -> first_shared l1 (pre ++ h :: post) = Some h.
Proof.
  intros Hh Hpre. unfold first_shared. induction pre as [|x pre IH]; simpl.
  - by rewrite bool_decide_eq_true_2.
  - rewrite bool_decide_eq_false_2 by (apply Hpre; by left).
    apply IH. intros y Hy. apply Hpre. by right.
Qed.

Lemma first_shared_sym st h1 h2 cs1 cs2 :
  chain st (Some h1) cs1 -> chain st (Some h2) cs2 ->
  first_shared (ids cs2) (ids cs1) = first_shared (ids cs1) (ids cs2).
Proof.
  intros Hc1 Hc2.
  destruct (first_shared (ids cs1) (ids cs2)) as [h|] eqn:Hf.
  - destruct (first_shared_Some _ _ _ Hf) as (pre2 & post2 & Hl2 & Hin1 & Hpre2).
    assert (h ∈ ids cs2) as Hin2.
    { rewrite Hl2. apply elem_of_app. right. by left. }
    destruct (chain_from_member _ _ _ _ Hc1 Hin1)
      as (p1 & s1 & -> & Hids1 & Hhead1 & Hs1).
    destruct (chain_from_member _ _ _ _ Hc2 Hin2)
      as (p2 & s2 & -> & Hids2 & Hhead2 & Hs2).
    assert (s1 = s2) as -> by by eapply chain_functional.
    destruct (ids s2) as [|h' tl] eqn:Hs; [done|]. injection Hhead1 as ->.
    rewrite Hids1. apply first_shared_intro.
    + rewrite Hids2. apply elem_of_app. right. by left.
    + intros x Hx Hx2. rewrite Hids2 in Hx2.
      pose proof (chain_ids_NoDup _ _ _ Hc1) as Hnd1. rewrite Hids1 in Hnd1.
      pose proof (chain_ids_NoDup _ _ _ Hc2) as Hnd2. rewrite Hids2 in Hnd2.
      apply NoDup_app in Hnd1 as (_ & Hd1 & _).
      apply NoDup_app in Hnd2 as (Hndp2 & Hd2 & _).
      apply elem_of_app in Hx2 as [Hx2|Hx2]; [|by apply (Hd1 x)].
      (* [x] is in the part of the second chain before the shared hash *)
      rewrite Hids2 in Hl2.
      assert (ids p2 = pre2) as <-.
      { assert (h ∉ ids p2) as Hnp by (intros ?; apply (Hd2 h); [done|by left]).
        assert (h ∉ pre2) as Hnq.
        { intros Hq. apply (Hpre2 h Hq). rewrite Hids1.
          apply elem_of_app. right. by left. }
        clear -Hl2 Hnp Hnq. revert pre2 Hl2 Hnq.
        induction (ids p2) as [|y l IH]; intros [|z pre2]; simpl; intros Heq Hnq.
        - done.
        - injection Heq as <- _. exfalso. apply Hnq. by left.
        - injection Heq as -> _. exfalso. apply Hnp. by left.
        - injection Heq as -> Heq. f_equal. apply IH; [|done|].
          + intros ?; apply Hnp. by right.
          + intros ?; apply Hnq. by right. }
      apply (Hpre2 x Hx2). rewrite Hids1. apply elem_of_app. by left.
  - apply first_shared_None. intros x Hx2 Hx1.
    by apply (proj1 (first_shared_None _ _) Hf x).
Qed.

(** X5.  On two complete chains [find_common_ancestor] does not depend on
    the order of its arguments; a hash it returns lies on both chains, and
    for one and the same commit it returns that commit. *)
Theorem find_common_ancestor_symmetric (st : HashObject) (h1 h2 : string)
    (cs1 cs2 : list Commit) (fuel : nat) :
  chain st (Some h1) cs1 -> chain st (Some h2) cs2 ->
  length cs1 <= fuel -> length cs2 <= fuel ->
  find_common_ancestor fuel st h2 h1 = find_common_ancestor fuel st h1 h2 /\
  (forall h, find_common_ancestor fuel st h1 h2 = Some (Ok (Some h)) ->
             h ∈ ids cs1 /\ h ∈ ids cs2) /\
  find_common_ancestor fuel st h1 h1 = Some (Ok (Some h1)).
Proof.
  intros Hc1 Hc2 Hf1 Hf2.
  rewrite (find_common_ancestor_chain _ _ _ _ _ _ Hc1 Hc2 Hf1 Hf2).
  rewrite (find_common_ancestor_chain _ _ _ _ _ _ Hc2 Hc1 Hf2 Hf1).
  rewrite (find_common_ancestor_chain _ _ _ _ _ _ Hc1 Hc1 Hf1 Hf1).
  split_and!.
  - do 2 f_equal. by eapply first_shared_sym.
  - intros h [= Hf]. destruct (first_shared_Some _ _ _ Hf) as (pre & post & -> & Hh & _).
    split; [done|]. apply elem_of_app. right. by left.
  - inversion Hc1 as [|h c cs Hne Hg Hch]; subst.
    rewrite (ids_cons _ _ _ _ Hg). rewrite first_shared_head; [done|by left].
Qed.

(** The commits of a chain are linked child to parent, and the last one
    has no parent. *)
Lemma chain_links st cur cs :
  chain st cur cs ->
  head (ids cs) = cur /\
  (forall i c c', cs !! i = Some c -> cs !! S i = Some c' -> parent_hash c = hash c') /\
  (forall c, last cs = Some c -> parent_hash c = None).
Proof.
  induction 1 as [|h c cs Hne Hg Hch (IH1 & IH2 & IH3)].
  - split_and!; [done|by intros i c c' [=]|by intros c [=]].
  - rewrite (ids_cons _ _ _ _ Hg). split_and!; [done| |].
    + intros [|i] c1 c2; simpl.
      * intros [= <-] Hc2. destruct cs as [|c3 cs]; [done|]. injection Hc2 as ->.
        inversion Hch as [|h3 c3 cs3 Hne3 Hg3 Hch3]; subst.
        by rewrite (get_commit_hash _ _ _ Hg3).
      * apply IH2.
    + intros c1. destruct cs as [|c2 cs].
      * simpl. intros [= <-]. by inversion Hch.
      * rewrite last_cons_cons. apply IH3.
Qed.

(** X6.  On a chain of N commits [get_commit_history] without a limit
    returns the N commits child first, each one's parent being the next and
    the last one having none; with a positive limit L it returns the first
    min(L, N) of them; with a negative limit it returns nothing; and
    [get_commit_count] is N. *)
Theorem get_commit_history_on_chain (st : HashObject) (h : string)
    (cs : list Commit) (fuel : nat) :
  chain st (Some h) cs -> length cs <= fuel ->
  get_commit_history fuel st h None = Some (Ok cs) /\
  head (ids cs) = Some h /\
  (forall i c c', cs !! i = Some c -> cs !! S i = Some c' -> parent_hash c = hash c') /\
  (forall c, last cs = Some c -> parent_hash c = None) /\
  (forall L : Z, (0 < L)%Z ->
     get_commit_history fuel st h (Some L) = Some (Ok (take (Z.to_nat L) cs)) /\
     Z.of_nat (length (take (Z.to_nat L) cs)) = Z.min L (Z.of_nat (length cs))) /\
  (forall L : Z, (L < 0)%Z -> get_commit_history fuel st h (Some L) = Some (Ok [])) /\
  get_commit_count fuel st h = Some (Ok (Z.of_nat (length cs))).
Proof.
  intros Hch Hfuel. destruct (chain_links _ _ _ Hch) as (H1 & H2 & H3).
  split_and!; [by apply get_commit_history_no_limit|done|done|done| | |
               by apply get_commit_count_chain].
  - intros L HL.
    destruct (get_commit_history_positive_limit _ _ _ _ L Hch Hfuel HL)
      as (commits & Hh & -> & Hlen). done.
  - intros L HL. rewrite (get_commit_history_chain _ _ cs) by done.
    unfold limited. simpl. destruct (Z.eqb_spec L 0); [lia|]. simpl.
    by replace (Z.to_nat (L - 0)) with 0 by lia.
Qed.

End walks.

Lemma no_collision_store_A_B :
  no_collision store_A
    (pickle_dumps (PyCommit (mkCommit "t1" (Some "AA00"%string) "B" "me" "d1" None))).
Proof.
  intros content. unfold store_A, create_commit.
  rewrite store_object_files. simpl. rewrite lookup_empty.
  rewrite lookup_insert_Some, lookup_empty. by intros [[? _]|[_ ?]].
Qed.

Lemma create_commit_extends_chain_witness :
  let c := mkCommit "t1" (Some "AA00"%string) "B" "me" "d1" None in
  let r := create_commit store_A "d1" "t1" (Some "AA00"%string) "B" "me" in
  chain store_A (Some "AA00"%string) [commit_A] /\
  no_collision store_A (pickle_dumps (PyCommit c)) /\
  fst r = "BB00"%string /\
  chain (snd r) (Some (fst r)) [set_hash c (fst r); commit_A] /\
  get_commit_history 2 (snd r) (fst r) None = Some (Ok [set_hash c (fst r); commit_A]).
Proof.
  cbv zeta.
  assert (fst (create_commit store_A "d1" "t1" (Some "AA00"%string) "B" "me")
          <> ""%string) as Hne by (by vm_compute).
  assert (length [commit_A] < 2) as Hfuel by (simpl; lia).
  assert (pickle_loads
            (pickle_dumps (PyCommit (mkCommit "t1" (Some "AA00"%string) "B" "me" "d1" None)))
          = Some (PyCommit (mkCommit "t1" (Some "AA00"%string) "B" "me" "d1" None)))
    as Hround by reflexivity.
  destruct (create_commit_extends_chain store_A "d1" "t1" (Some "AA00"%string) "B" "me"
              [commit_A] 2 chain_A Hround no_collision_store_A_B Hne Hfuel)
    as (_ & H2 & _ & H4).
  split_and!; [exact chain_A|exact no_collision_store_A_B|reflexivity|exact H2|exact H4].
Defined.

Lemma find_common_ancestor_symmetric_witness :
  chain store_ABCD (Some "DD00"%string) [commit_D; commit_C; commit_B; commit_A] /\
  chain store_ABCD (Some "CC00"%string) [commit_C; commit_B; commit_A] /\
  find_common_ancestor 4 store_ABCD "CC00" "DD00"
    = find_common_ancestor 4 store_ABCD "DD00" "CC00".
Proof.
  assert (length [commit_D; commit_C; commit_B; commit_A] <= 4) as H1 by (simpl; lia).
  assert (length [commit_C; commit_B; commit_A] <= 4) as H2 by (simpl; lia).
  destruct (find_common_ancestor_symmetric store_ABCD "DD00" "CC00" _ _ 4
              chain_D chain_C H1 H2) as (H & _).
  split_and!; [exact chain_D|exact chain_C|exact H].
Defined.

Lemma get_commit_history_on_chain_witness :
  chain store_ABCD (Some "DD00"%string) [commit_D; commit_C; commit_B; commit_A] /\
  get_commit_history 4 store_ABCD "DD00" None
    = Some (Ok [commit_D; commit_C; commit_B; commit_A]) /\
  get_commit_history 4 store_ABCD "DD00" (Some 2%Z) = Some (Ok [commit_D; commit_C]) /\
  get_commit_count 4 store_ABCD "DD00" = Some (Ok 4%Z).
Proof.
  assert (length [commit_D; commit_C; commit_B; commit_A] <= 4) as H1 by (simpl; lia).
  destruct (get_commit_history_on_chain store_ABCD "DD00" _ 4 chain_D H1)
    as (Hall & _ & _ & _ & Hpos & _ & Hcount).
  assert (0 < 2)%Z as H2 by lia.
  destruct (Hpos 2%Z H2) as [Htwo _].
  split_and!; [exact chain_D|exact Hall|exact Htwo|exact Hcount].
Defined.

End commit_extra.

Module tree_extra.
Import py tree tree_spec tree_proofs extra_spec.

Lemma descend_app cur a b :
  descend cur (a ++ b) = descend cur a ≫= fun node => descend node b.
Proof.
  revert cur. induction a as [|k a IH]; intros cur; simpl; [done|].
  destruct (get_child cur k); [apply IH|done].
Qed.

Lemma file_hash_at_fresh part parts :
  file_hash_at (mkTreeNode part false None []) parts = None.
Proof. by destruct parts. Qed.

(** A walk that does not go through the place of the new leaf finds what
    it found before. *)
Lemma file_hash_at_add_file_at_other fnode dirs :
  forall cur parts,
  ~ (dirs ++ [name fnode]) `prefix_of` parts ->
  file_hash_at (add_file_at cur dirs fnode) parts = file_hash_at cur parts.
Proof.
  induction dirs as [|d ds IH]; intros cur parts Hnp.
  - destruct parts as [|k rest]; unfold file_hash_at; simpl; [by destruct cur|].
    unfold get_child. simpl. rewrite dict_get_set_ne; [done|].
    intros <-. apply Hnp. by exists rest.
  - destruct parts as [|k rest]; unfold file_hash_at; simpl; [by destruct cur|].
    unfold get_child. simpl.
    destruct (decide (d = k)) as [<-|Hne]; [|by rewrite dict_get_set_ne].
    rewrite dict_get_set_eq.
    assert (~ (ds ++ [name fnode]) `prefix_of` rest) as Hnp'.
    { intros [tl ->]. apply Hnp. by exists tl. }
    specialize (IH (match dict_get d (children cur) with
                    | Some child => child
                    | None => mkTreeNode d false None []
                    end) rest Hnp').
    unfold file_hash_at in IH. rewrite IH.
    destruct (dict_get d (children cur)); [done|].
    apply (file_hash_at_fresh d rest).
Qed.

Lemma file_hash_at_add_file_at_below fnode dirs cur tl :
  children fnode = [] ->
  file_hash_at (add_file_at cur dirs fnode) ((dirs ++ [name fnode]) ++ tl) =
  match tl with
  | [] => if is_file fnode then content_hash fnode else None
  | _ :: _ => None
  end.
Proof.
  intros Hleaf. unfold file_hash_at.
  rewrite descend_app, descend_add_file_at_new. simpl.
  destruct tl as [|k tl]; simpl; [done|]. unfold get_child. by rewrite Hleaf.
Qed.

Lemma get_file_hash_file_hash_at t q :
  get_file_hash t q = file_hash_at (root t) (split q "/").
Proof. reflexivity. Qed.

Lemma root_add_file t p h :
  root (add_file t p h) =
  add_file_at (root t) (removelast (split p "/"))
    (mkTreeNode (List.last (split p "/") ""%string) true (Some h) []).
Proof. reflexivity. Qed.

Lemma file_hash_at_add_file_at_cases fnode dirs cur parts :
  children fnode = [] ->
  file_hash_at (add_file_at cur dirs fnode) parts =
  if decide ((dirs ++ [name fnode]) `prefix_of` parts)
  then (if decide (parts = dirs ++ [name fnode])
        then (if is_file fnode then content_hash fnode else None)
        else None)
  else file_hash_at cur parts.
Proof.
  intros Hleaf.
  destruct (decide ((dirs ++ [name fnode]) `prefix_of` parts)) as [[tl ->]|Hnp].
  - rewrite file_hash_at_add_file_at_below by done.
    destruct tl as [|k tl].
    + rewrite decide_True; [done|]. by rewrite app_nil_r.
    + rewrite decide_False; [done|]. intros Heq.
      apply (f_equal length) in Heq. rewrite !length_app in Heq. simpl in Heq. lia.
  - by apply file_hash_at_add_file_at_other.
Qed.

(** X7.  [get_file_hash] after [add_file]: the path added has the new hash;
    a path that goes on below the path added finds nothing (whatever was
    below is gone or hidden); every other path finds what it found before. *)
Theorem get_file_hash_after_add_file (t : DirectoryTree) (p h q : string) :
  get_file_hash (add_file t p h) q =
  if decide (split p "/" `prefix_of` split q "/")
  then (if decide (split q "/" = split p "/") then Some h else None)
  else get_file_hash t q.
Proof.
  rewrite !get_file_hash_file_hash_at, root_add_file.
  rewrite file_hash_at_add_file_at_cases by done.
  cbn [name is_file content_hash]. rewrite split_parts.
  destruct (decide (split p "/" `prefix_of` split q "/")); [|done].
  by destruct (decide (split q "/" = split p "/")).
Qed.

Lemma dict_set_set {V} key (v w : V) d :
  dict_set key w (dict_set key v d) = dict_set key w d.
Proof.
  induction d as [|[k u] d IH]; simpl.
  - by rewrite String.eqb_refl.
  - destruct (String.eqb_spec k key) as [->|Hne]; simpl.
    + by rewrite String.eqb_refl.
    + apply String.eqb_neq in Hne as Hne'. by rewrite Hne', IH.
Qed.

Lemma add_file_at_twice f1 f2 dirs :
  name f1 = name f2 ->
  forall cur, add_file_at (add_file_at cur dirs f1) dirs f2 = add_file_at cur dirs f2.
Proof.
  intros Hn. induction dirs as [|d ds IH]; intros cur; simpl.
  - unfold add_child. simpl. by rewrite Hn, dict_set_set.
  - unfold get_child. simpl. rewrite dict_get_set_eq, dict_set_set. by rewrite IH.
Qed.

Lemma dict_set_map_ext {V B} (F : string * V -> B) key (v w : V) d :
  (forall k, F (k, v) = F (k, w)) ->
  map F (dict_set key v d) = map F (dict_set key w d).
Proof.
  intros HF. induction d as [|[k u] d IH]; simpl; [by rewrite HF|].
  destruct (String.eqb k key); simpl; [by rewrite HF|by rewrite IH].
Qed.

Lemma dfs_add_file_at_leaf f1 f2 dirs :
  name f1 = name f2 -> is_file f1 = true -> is_file f2 = true ->
  forall cur path, dfs (add_file_at cur dirs f1) path = dfs (add_file_at cur dirs f2) path.
Proof.
  intros Hn H1 H2. induction dirs as [|d ds IH]; intros cur path;
    destruct cur as [n f ch cs]; simpl; (destruct f; [done|]);
    rewrite !flat_map_concat_map; f_equal.
  - rewrite Hn. apply dict_set_map_ext. intros k. simpl.
    destruct f1 as [n1 fl1 ch1 cs1], f2 as [n2 fl2 ch2 cs2]. simpl in *. by subst.
  - unfold get_child. simpl. apply dict_set_map_ext. intros k. simpl. apply IH.
Qed.

(** X8.  Adding a path a second time overwrites its leaf in place: the
    tree is the one a single [add_file] with the last hash gives, so the
    order of the listing and the serialized form do not depend on the
    earlier hash. *)
Theorem add_file_overwrites (t : DirectoryTree) (p h h' : string) :
  add_file (add_file t p h) p h' = add_file t p h' /\
  list_all_files (add_file (add_file t p h) p h') = list_all_files (add_file t p h) /\
  get_file_hash (add_file (add_file t p h) p h') p = Some h'.
Proof.
  assert (add_file (add_file t p h) p h' = add_file t p h') as Heq.
  { unfold add_file. cbv zeta. cbn [root]. f_equal. by apply add_file_at_twice. }
  split_and!; [done| |by rewrite get_file_hash_add_file].
  rewrite Heq. unfold list_all_files. rewrite !root_add_file.
  by apply dfs_add_file_at_leaf.
Qed.

(** ** [split] and the path it came from *)

Lemma string_app_assoc (a b c : string) : ((a ++ b) ++ c = a ++ (b ++ c))%string.
Proof.
  induction a as [|x a IH]; [done|].
  change (String x ((a ++ b) ++ c) = String x (a ++ (b ++ c)))%string. by rewrite IH.
Qed.

Lemma string_app_nil_r (a : string) : (a ++ "")%string = a.
Proof.
  induction a as [|x a IH]; [done|].
  change (String x (a ++ "") = String x a)%string. by rewrite IH.
Qed.

Lemma join_split_from s : forall cur,
  str_join "/" (split_from "/" cur s) = (cur ++ s)%string.
Proof.
  induction s as [|c s IH]; intros cur; simpl.
  - by rewrite string_app_nil_r.
  - destruct (Ascii.eqb_spec c "/") as [->|Hne].
    + pose proof (split_from_nonempty "/" s "") as Hnil.
      destruct (split_from "/" "" s) as [|y l] eqn:Hs; [done|].
      change (str_join "/" (cur :: y :: l)) with (cur ++ "/" ++ str_join "/" (y :: l))%string.
      rewrite <- Hs, IH. done.
    + rewrite IH, string_app_assoc. reflexivity.
Qed.

Lemma split_inj p q : split p "/" = split q "/" -> p = q.
Proof.
  intros Heq. apply (f_equal (str_join "/")) in Heq.
  unfold split in Heq. by rewrite !join_split_from in Heq.
Qed.

Lemma dict_get_snoc {V} key (d : list (string * V)) k v :
  NoDup (map fst (d ++ [(k, v)])) ->
  dict_get key (d ++ [(k, v)]) = if decide (k = key) then Some v else dict_get key d.
Proof.
  rewrite map_app. simpl. intros (_ & Hd & _)%NoDup_app.
  induction d as [|[k' v'] d IH]; simpl.
  - destruct (String.eqb_spec k key); by case_decide.
  - destruct (String.eqb_spec k' key) as [->|Hne].
    + rewrite decide_False; [done|]. intros ->. apply (Hd key); [by left|by left].
    + apply IH. intros x Hx. apply Hd. by right.
Qed.

Lemma get_file_hash_build (files : list (string * string)) (q : string) :
  NoDup (map fst files) ->
  prefix_free (map fst files) ->
  get_file_hash (build files) q = dict_get q files.
Proof.
  induction files as [|[p h] files IH] using rev_ind; intros Hnd Hpf.
  - unfold get_file_hash, build. simpl.
    pose proof (split_from_nonempty "/" q "") as Hne. unfold split.
    destruct (split_from "/" "" q) as [|k rest]; [done|]. done.
  - rewrite build_snoc, get_file_hash_file_hash_at, root_add_file.
    rewrite file_hash_at_add_file_at_cases by done.
    cbn [name is_file content_hash]. rewrite split_parts.
    rewrite <- get_file_hash_file_hash_at, dict_get_snoc by done.
    rewrite map_app in Hnd, Hpf. simpl in Hnd, Hpf.
    assert (NoDup (map fst files)) as Hnd' by by apply NoDup_app in Hnd as (? & _).
    assert (prefix_free (map fst files)) as Hpf'.
    { intros a b Ha Hb. apply Hpf; apply elem_of_app; by left. }
    rewrite <- (IH Hnd' Hpf').
    destruct (decide (p = q)) as [->|Hne].
    + by rewrite !decide_True.
    + destruct (decide (split p "/" `prefix_of` split q "/")) as [[tl Htl]|Hnp]; [|done].
      rewrite decide_False by (by intros ?%split_inj).
      (* [q] lies strictly below the new file [p] *)
      symmetry. rewrite (IH Hnd' Hpf').
      destruct (dict_get q files) as [h'|] eqn:Hq; [|done]. exfalso.
      apply dict_get_Some in Hq.
      apply (Hpf p q).
      * apply elem_of_app. right. by apply list_elem_of_singleton.
      * apply elem_of_app. left. apply list_elem_of_fmap. by exists (q, h').
      * exists tl. split; [|done]. intros ->. rewrite app_nil_r in Htl.
        by apply split_inj in Htl.
Qed.


(** ** Round trips of trees that hide leaves below file nodes *)

Lemma to_dict_prune t : to_dict (prune t) = to_dict t.
Proof.
  induction t as [n f h cs IH] using TreeNode_ind.
  destruct f; simpl; [done|]. do 2 f_equal. rewrite map_map. simpl.
  apply map_ext_Forall. eapply Forall_impl; [exact IH|]. intros [k c] Hc. simpl in *.
  by rewrite Hc.
Qed.

Lemma dfs_prune t : forall path, dfs (prune t) path = dfs t path.
Proof.
  induction t as [n f h cs IH] using TreeNode_ind. intros path.
  destruct f; simpl; [done|]. rewrite !flat_map_concat_map, map_map. f_equal. simpl.
  apply map_ext_Forall. eapply Forall_impl; [exact IH|]. intros [k c] Hc. simpl in *.
  apply Hc.
Qed.

Lemma file_hash_at_prune parts : forall cur h,
  file_hash_at (prune cur) parts = Some h -> file_hash_at cur parts = Some h.
Proof.
  induction parts as [|k rest IH]; intros cur h.
  - unfold file_hash_at. simpl. by destruct cur as [n [] ch cs].
  - unfold file_hash_at. simpl. unfold get_child.
    destruct cur as [n [] ch cs]; simpl; [done|].
    rewrite dict_get_map. destruct (dict_get k cs) as [c|]; simpl; [|done].
    apply IH.
Qed.

(** X9.  For every tree built by [add_file] calls, prefix collisions or
    not, serialize/deserialize/serialize gives the first serialized form
    again and the listing is unchanged; the deserialized tree finds no hash
    the tree in memory did not find. *)
Theorem build_roundtrip_stable (files : list (string * string)) :
  let t := build files in
  let t' := DirectoryTree_from_dict (DirectoryTree_to_dict t) in
  DirectoryTree_to_dict t' = DirectoryTree_to_dict t /\
  list_all_files t' = list_all_files t /\
  (forall q h, get_file_hash t' q = Some h -> get_file_hash t q = Some h).
Proof.
  cbv zeta. unfold DirectoryTree_from_dict, DirectoryTree_to_dict, list_all_files,
    get_file_hash. cbn [root].
  rewrite from_dict_to_dict by apply build_keyed. split_and!.
  - apply to_dict_prune.
  - apply dfs_prune.
  - intros q h. apply file_hash_at_prune.
Qed.

(** ** [list_all_files] on a built tree *)

Lemma flat_map_dict_set_present {V} (F : string * V -> list string) key (v v' : V) d extra :
  dict_get key d = Some v ->
  F (key, v') ≡ₚ F (key, v) ++ extra ->
  flat_map F (dict_set key v' d) ≡ₚ flat_map F d ++ extra.
Proof.
  intros Hg HF. induction d as [|[k w] d IH]; simpl in *; [done|].
  destruct (String.eqb_spec k key) as [->|Hne]; simpl.
  - injection Hg as ->. rewrite HF. by rewrite <- !app_assoc, (comm (++) extra).
  - by rewrite IH, app_assoc.
Qed.

Lemma dfs_dir n h cs path :
  dfs (mkTreeNode n false h cs) path =
  flat_map (fun kc => dfs (snd kc)
                        (if String.eqb path "" then fst kc
                         else (path ++ "/" ++ fst kc)%string)) cs.
Proof. reflexivity. Qed.

Lemma descend_fresh part k rest :
  descend (mkTreeNode part false None []) (k :: rest) = None.
Proof. reflexivity. Qed.

(** A leaf added at a place where there was nothing, on a way through
    directories only, is one more entry of the listing. *)
Lemma dfs_add_file_at_fresh fnode dirs :
  is_file fnode = true ->
  forall cur path,
  passable cur dirs ->
  descend cur (dirs ++ [name fnode]) = None ->
  dfs (add_file_at cur dirs fnode) path ≡ₚ
  dfs cur path ++ [dfs_path path (dirs ++ [name fnode])].
Proof.
  intros Hfile. induction dirs as [|part rest IH]; intros cur path Hp Hd.
  - destruct Hp as [Hdir _]. destruct cur as [n f h cs]. simpl in Hdir. subst f.
    simpl in Hd. unfold get_child in Hd. simpl in Hd.
    destruct (dict_get (name fnode) cs) as [child|] eqn:Hg; [done|].
    unfold add_file_at, add_child. cbn [name is_file content_hash children].
    rewrite !dfs_dir, dict_set_fresh by by apply dict_get_is_None.
    rewrite flat_map_app. simpl. rewrite app_nil_r.
    destruct fnode as [fn ff fh fcs]. simpl in Hfile. subst ff. done.
  - destruct Hp as [Hdir Hp]. destruct cur as [n f h cs]. simpl in Hdir. subst f.
    simpl in Hd, Hp. unfold get_child in *. simpl in Hd, Hp.
    cbn [add_file_at get_child name is_file content_hash children].
    unfold get_child. cbn [children]. rewrite !dfs_dir.
    destruct (dict_get part cs) as [child|] eqn:Hg.
    + apply (flat_map_dict_set_present _ part child); [done|]. simpl.
      by apply IH.
    + rewrite dict_set_fresh by by apply dict_get_is_None.
      rewrite flat_map_app. simpl. rewrite app_nil_r.
      apply Permutation_app; [done|].
      rewrite (IH (mkTreeNode part false None [])).
      * done.
      * apply passable_fresh.
      * by destruct rest.
Qed.

(** Every node of a tree after [add_file] is on the way to the new leaf or
    was there before. *)
Lemma descend_add_file_at_reach fnode dirs :
  [] = children fnode ->
  forall cur parts node,
  descend (add_file_at cur dirs fnode) parts = Some node ->
  parts `prefix_of` (dirs ++ [name fnode]) \/
  exists node', descend cur parts = Some node'.
Proof.
  intros Hleaf. induction dirs as [|part rest IH]; intros cur parts node.
  - destruct parts as [|k parts]; simpl.
    + intros _. left. apply prefix_nil.
    + unfold get_child. simpl.
      destruct (decide (name fnode = k)) as [<-|Hne].
      * rewrite dict_get_set_eq. destruct parts as [|k' parts]; [by left|].
        simpl. unfold get_child. by rewrite <- Hleaf.
      * rewrite dict_get_set_ne by done. intros Hd. right. eauto.
  - destruct parts as [|k parts]; simpl.
    + intros _. left. apply prefix_nil.
    + unfold get_child. simpl.
      destruct (decide (part = k)) as [<-|Hne].
      * rewrite dict_get_set_eq. intros Hd.
        destruct (IH _ _ _ Hd) as [Hpre|(node' & Hd')];
          [left; by apply prefix_cons|].
        destruct (dict_get part (children cur)) as [child|]; [right; eauto|].
        destruct parts as [|k' parts]; simpl in Hd'; [|done].
        left. apply prefix_cons, prefix_nil.
      * rewrite dict_get_set_ne by done. intros Hd. right. eauto.
Qed.

Lemma build_reach files : forall parts node,
  descend (root (build files)) parts = Some node ->
  parts = [] \/ exists p, p ∈ map fst files /\ parts `prefix_of` split p "/".
Proof.
  induction files as [|[q h] files IH] using rev_ind; intros parts node.
  - destruct parts as [|k parts]; [by left|intros Hd; by cbn in Hd].
  - rewrite build_snoc, root_add_file, map_app. simpl. intros Hd.
    apply descend_add_file_at_reach in Hd as [Hpre|[node' Hd]]; [| |done].
    + rewrite split_parts in Hpre. right. exists q. split; [|done].
      apply elem_of_app. right. by apply list_elem_of_singleton.
    + destruct (IH _ _ Hd) as [->|(p & Hp & Hpre)]; [by left|]. right.
      exists p. split; [|done]. apply elem_of_app. by left.
Qed.

Lemma split_from_head sep s : forall cur,
  exists x rest, split_from sep cur s = (cur ++ x)%string :: rest.
Proof.
  induction s as [|c s IH]; intros cur; simpl.
  - exists ""%string, []. by rewrite string_app_nil_r.
  - destruct (Ascii.eqb c sep).
    + exists ""%string, (split_from sep "" s). by rewrite string_app_nil_r.
    + destruct (IH (cur ++ String c "")%string) as (x & rest & ->).
      exists (String c x), rest. by rewrite string_app_assoc.
Qed.

Lemma dfs_path_join acc parts :
  acc <> ""%string -> parts <> [] ->
  dfs_path acc parts = (acc ++ "/" ++ str_join "/" parts)%string.
Proof.
  revert acc. induction parts as [|x rest IH]; intros acc Hacc Hne; [done|]. simpl.
  apply String.eqb_neq in Hacc as Hacc'. rewrite Hacc'.
  destruct rest as [|y r]; [done|].
  rewrite IH; [|by destruct acc|done].
  change (str_join "/" (x :: y :: r)) with (x ++ "/" ++ str_join "/" (y :: r))%string.
  by rewrite !string_app_assoc.
Qed.

Lemma dfs_path_split p :
  (forall s, p <> String "/" s) -> dfs_path "" (split p "/") = p.
Proof.
  intros Hp. destruct p as [|c s]; [done|]. unfold split. cbn [split_from].
  destruct (Ascii.eqb_spec c "/") as [->|Hc]; [by destruct (Hp s)|].
  change ("" ++ String c "")%string with (String c "").
  pose proof (join_split_from s (String c "")) as Hj.
  change (String c "" ++ s)%string with (String c s) in Hj.
  destruct (split_from_head "/" s (String c "")) as (x & rest & Heq).
  rewrite Heq in *. change (String c "" ++ x)%string with (String c x) in *.
  cbn [dfs_path]. change (String.eqb "" "") with true. cbv iota.
  destruct rest as [|y r]; [done|].
  by rewrite dfs_path_join.
Qed.

Lemma list_all_files_build (files : list (string * string)) :
  NoDup (map fst files) ->
  prefix_free (map fst files) ->
  (forall p s, p ∈ map fst files -> p <> String "/" s) ->
  list_all_files (build files) ≡ₚ map fst files.
Proof.
  induction files as [|[p h] files IH] using rev_ind; intros Hnd Hpf Hslash; [done|].
  rewrite map_app in *. simpl in *.
  assert (NoDup (map fst files)) as Hnd' by by apply NoDup_app in Hnd as (? & _).
  assert (p ∉ map fst files) as Hnew.
  { apply NoDup_app in Hnd as (_ & Hd & _). intros Hin. apply (Hd p Hin). by left. }
  assert (prefix_free (map fst files)) as Hpf'.
  { intros a b Ha Hb. apply Hpf; apply elem_of_app; by left. }
  assert (p ∈ map fst files ++ [p]) as Hp
    by (apply elem_of_app; right; by apply list_elem_of_singleton).
  rewrite build_snoc. unfold list_all_files. rewrite root_add_file.
  set (fnode := mkTreeNode (List.last (split p "/") ""%string) true (Some h) []).
  destruct (build_well_formed files Hpf') as [Hwf Hat].
  rewrite (dfs_add_file_at_fresh fnode); [| done | |].
  - simpl name. rewrite split_parts, dfs_path_split by (intros s; by apply Hslash).
    apply Permutation_app; [|done]. apply IH; [done..|].
    intros q s Hq. apply Hslash, elem_of_app. by left.
  - apply passable_no_file_prefix. intros pre node [k Hk] Hd.
    destruct (is_file node) eqn:Hf; [|done]. exfalso.
    destruct (Hat _ _ Hd Hf) as (q & Hq & Hsq).
    apply (Hpf q p); [apply elem_of_app; by left|done|].
    exists (k ++ [List.last (split p "/") ""%string]). split; [by destruct k|].
    rewrite Hsq, app_assoc, <- Hk. symmetry. apply split_parts.
  - simpl name. rewrite split_parts.
    destruct (descend (root (build files)) (split p "/")) as [node|] eqn:Hd; [|done].
    exfalso. destruct (build_reach _ _ _ Hd) as [Hnil|(q & Hq & [tl Htl])].
    + by apply (split_from_nonempty "/" p "").
    + destruct tl as [|k tl].
      * rewrite app_nil_r in Htl. apply split_inj in Htl. by subst.
      * apply (Hpf p q); [done|apply elem_of_app; by left|].
        exists (k :: tl). by split.
Qed.

(** X10.  The tree built from the staged files is the staged mapping: when
    the paths are distinct and none is a proper prefix of another,
    [get_file_hash] on the built tree gives, for every path, the hash
    staged for it, and nothing for a path that was not staged; and when,
    besides, no path begins with a slash, [list_all_files] lists exactly
    the staged paths, each once. *)
Theorem build_get_file_hash (files : list (string * string)) :
  NoDup (map fst files) ->
  prefix_free (map fst files) ->
  (forall q, get_file_hash (build files) q = dict_get q files) /\
  ((forall p s, p ∈ map fst files -> p <> String "/" s) ->
   list_all_files (build files) ≡ₚ map fst files).
Proof.
  intros Hnd Hpf. split.
  - intros q. by apply get_file_hash_build.
  - by apply list_all_files_build.
Qed.

Lemma prefix_free_two_files :
  prefix_free (map fst [("a/b.txt", "h1"); ("c.txt", "h2")]%string).
Proof.
  intros p q Hp Hq (rest & Hne & Heq). simpl in Hp, Hq.
  apply elem_of_cons in Hp as [->|Hp]; [|apply list_elem_of_singleton in Hp as ->];
    (apply elem_of_cons in Hq as [->|Hq]; [|apply list_elem_of_singleton in Hq as ->]);
    vm_compute in Heq; congruence.
Qed.

Lemma build_get_file_hash_witness :
  let files := [("a/b.txt", "h1"); ("c.txt", "h2")]%string in
  NoDup (map fst files) /\
  prefix_free (map fst files) /\
  get_file_hash (build files) "a/b.txt" = Some "h1"%string /\
  get_file_hash (build files) "a" = None /\
  list_all_files (build files) ≡ₚ ["a/b.txt"; "c.txt"]%string.
Proof.
  cbv zeta.
  assert (NoDup (map fst [("a/b.txt", "h1"); ("c.txt", "h2")]%string)) as Hnd.
  { simpl. apply NoDup_cons. split; [|apply NoDup_singleton].
    intros Hin%list_elem_of_singleton. discriminate Hin. }
  destruct (build_get_file_hash [("a/b.txt", "h1"); ("c.txt", "h2")]%string
              Hnd prefix_free_two_files) as [Hget Hlist].
  split_and!; [exact Hnd|exact prefix_free_two_files|
               exact (Hget "a/b.txt"%string)|exact (Hget "a"%string)|].
  apply Hlist. intros p s Hp. simpl in Hp.
  apply elem_of_cons in Hp as [->|Hp]; [|apply list_elem_of_singleton in Hp as ->];
    discriminate.
Defined.

End tree_extra.

(** * A file added below a file leaf *)

Module tree_below_file.
Import py tree tree_spec tree_proofs extra_spec tree_extra.

(** ** The components of a path and the path [dfs] renders *)

Lemma free_of_app sep a b :
  free_of sep a = true -> free_of sep b = true -> free_of sep (a ++ b) = true.
Proof.
  induction a as [|c a IH]; [done|].
  change (String c a ++ b)%string with (String c (a ++ b)). simpl.
  intros [Hc Ha]%andb_prop Hb. by rewrite Hc, IH.
Qed.

Lemma split_from_free sep s : forall cur,
  free_of sep cur = true ->
  Forall (fun x => free_of sep x = true) (split_from sep cur s).
Proof.
  induction s as [|c s IH]; intros cur Hcur; simpl.
  - by constructor.
  - destruct (Ascii.eqb c sep) eqn:Hc.
    + constructor; [done|]. by apply IH.
    + apply IH, free_of_app; [done|]. simpl. by rewrite Hc.
Qed.

Lemma split_from_app_free sep x :
  free_of sep x = true ->
  forall cur s, split_from sep cur (x ++ s) = split_from sep (cur ++ x) s.
Proof.
  induction x as [|c x IH]; intros Hx cur s.
  - by rewrite string_app_nil_r.
  - simpl in Hx. apply andb_prop in Hx as [Hc Hx]. apply negb_true_iff in Hc.
    change (String c x ++ s)%string with (String c (x ++ s)).
    cbn [split_from]. rewrite Hc, IH by done. by rewrite string_app_assoc.
Qed.

Lemma split_from_join x r :
  Forall (fun x => free_of "/" x = true) (x :: r) ->
  forall cur, split_from "/" cur (str_join "/" (x :: r)) = (cur ++ x)%string :: r.
Proof.
  revert x. induction r as [|y r IH]; intros x Hall cur;
    inversion Hall as [|? ? Hx Hr]; subst.
  - cbn [str_join]. rewrite <- (string_app_nil_r x) at 1.
    by rewrite split_from_app_free.
  - change (str_join "/" (x :: y :: r)) with (x ++ "/" ++ str_join "/" (y :: r))%string.
    rewrite split_from_app_free by done.
    change ("/" ++ str_join "/" (y :: r))%string
      with (String "/" (str_join "/" (y :: r))).
    cbn [split_from]. change (Ascii.eqb "/" "/") with true. cbv iota.
    by rewrite IH.
Qed.

(** From the path that [dfs] renders for components that do not begin with
    an empty one, [split] gives the components back. *)
Lemma split_dfs_path x r :
  x <> ""%string ->
  Forall (fun x => free_of "/" x = true) (x :: r) ->
  split (dfs_path "" (x :: r)) "/" = x :: r.
Proof.
  intros Hx Hall.
  assert (dfs_path "" (x :: r) = str_join "/" (x :: r)) as ->.
  { cbn [dfs_path]. change (String.eqb "" "") with true. cbv iota.
    destruct r as [|y r]; [done|]. by rewrite dfs_path_join. }
  unfold split. by rewrite split_from_join.
Qed.

Lemma dict_get_elem {V} key (v : V) d :
  NoDup (map fst d) -> (key, v) ∈ d -> dict_get key d = Some v.
Proof.
  induction d as [|[k w] d IH]; simpl; [by intros _ ?%elem_of_nil|].
  intros [Hk Hnd]%NoDup_cons [[= -> ->]|Hin]%elem_of_cons.
  - by rewrite String.eqb_refl.
  - destruct (String.eqb_spec k key) as [->|Hne]; [|by apply IH].
    exfalso. apply Hk. apply list_elem_of_fmap. by exists (key, v).
Qed.

(** Every entry of the listing is the path of a node that is reached
    through directory nodes only. *)
Lemma dfs_elem node :
  keyed node -> forall path s, s ∈ dfs node path ->
  exists parts fnode,
    s = dfs_path path parts /\
    descend node parts = Some fnode /\
    forall pre k rest n,
      parts = pre ++ k :: rest -> descend node pre = Some n -> is_file n = false.
Proof.
  induction node as [n f h cs IH] using TreeNode_ind. intros Hk path s Hin.
  inversion Hk as [? ? ? ? Hnd Hcs]; subst. destruct f.
  - simpl in Hin. apply list_elem_of_singleton in Hin as ->.
    exists [], (mkTreeNode n true h cs). split_and!; [done..|].
    intros pre k rest n' Heq. by destruct pre.
  - rewrite dfs_dir in Hin.
    apply list_elem_of_In, in_flat_map in Hin as ([k child] & Hkc & Hs).
    apply list_elem_of_In in Hkc, Hs. simpl in Hs.
    rewrite Forall_forall in IH, Hcs.
    destruct (Hcs _ Hkc) as [_ Hchild].
    destruct (IH _ Hkc Hchild _ _ Hs) as (parts & fnode & -> & Hd & Hpre).
    exists (k :: parts), fnode. split_and!.
    + done.
    + simpl. unfold get_child. simpl. by rewrite (dict_get_elem _ _ _ Hnd Hkc).
    + intros pre k' rest n' Heq. destruct pre as [|p pre]; simpl.
      * by intros [= <-].
      * injection Heq as <- Heq. unfold get_child. simpl.
        rewrite (dict_get_elem _ _ _ Hnd Hkc). by apply (Hpre pre k' rest).
Qed.

(** C10, as the code has it.  When [add_file] is given a path that strictly
    extends the path of an existing file leaf, the new leaf goes below that
    file node: it is reached from the file node by the components that the
    new path adds, so it is a child of the file node when one component is
    added.  [get_file_hash] finds the new path in the tree in memory.
    [list_all_files] has no entry for the new leaf: its result is the same
    as before the call, and the new path is not in it when the root has no
    child of the empty name, that is when no path of the tree is empty or
    begins with a slash.  [to_dict] leaves out what is below a file node,
    so the serialized form is the same as before, and after a round trip
    [get_file_hash] no longer finds the new path. *)
Theorem add_file_below_file_leaf (files : list (string * string))
    (existing path h h0 : string) :
  let t := build files in
  get_file_hash t existing = Some h0 ->
  strictly_extends (split path "/") (split existing "/") ->
  let t' := add_file t path h in
  let leaf := mkTreeNode (List.last (split path "/") ""%string) true (Some h) [] in
  (exists f,
     descend (root t') (split existing "/") = Some f /\
     is_file f = true /\ content_hash f = Some h0 /\
     (forall rest, split path "/" = split existing "/" ++ rest ->
        descend f rest = Some leaf) /\
     (forall part, split path "/" = split existing "/" ++ [part] ->
        get_child f part = Some leaf)) /\
  get_file_hash t' path = Some h /\
  list_all_files t' = list_all_files t /\
  (get_child (root t) "" = None -> path ∉ list_all_files t') /\
  DirectoryTree_to_dict t' = DirectoryTree_to_dict t /\
  get_file_hash (DirectoryTree_from_dict (DirectoryTree_to_dict t')) path = None.
Proof.
  cbv zeta. intros Hex (rest & Hrest & Hsplit).
  unfold get_file_hash in Hex.
  destruct (descend (root (build files)) (split existing "/")) as [f0|] eqn:Hd0; [|done].
  destruct (is_file f0) eqn:Hfile; [|done].
  set (pre := split existing "/") in *.
  set (fnode := mkTreeNode (List.last (split path "/") ""%string) true (Some h) []).
  assert (removelast (split path "/") = pre ++ removelast rest) as Hdirs.
  { rewrite Hsplit. by apply removelast_app. }
  assert (removelast rest ++ [name fnode] = rest) as Hlast.
  { apply (app_inv_head pre). rewrite app_assoc, <- Hdirs, <- Hsplit. apply split_parts. }
  assert (root (add_file (build files) path h)
          = add_file_at (root (build files)) (pre ++ removelast rest) fnode) as Hroot.
  { unfold add_file. cbv zeta. simpl. by rewrite Hdirs. }
  assert (to_dict (root (add_file (build files) path h)) = to_dict (root (build files)))
    as Hser.
  { rewrite Hroot. by eapply to_dict_add_file_at_hidden. }
  assert (descend (root (add_file (build files) path h)) pre
          = Some (add_file_at f0 (removelast rest) fnode)) as Hthrough.
  { rewrite Hroot. by apply descend_add_file_at_through. }
  assert (forall rest', split path "/" = pre ++ rest' ->
            descend (add_file_at f0 (removelast rest) fnode) rest' = Some fnode) as Hbelow.
  { intros rest' Heq. rewrite Hsplit in Heq. apply app_inv_head in Heq as <-.
    rewrite <- Hlast at 2. apply descend_add_file_at_new. }
  split_and!.
  - exists (add_file_at f0 (removelast rest) fnode). split_and!.
    + exact Hthrough.
    + by rewrite is_file_add_file_at.
    + by rewrite content_hash_add_file_at.
    + exact Hbelow.
    + intros part Heq. specialize (Hbelow _ Heq). simpl in Hbelow.
      by destruct (get_child _ part).
  - apply get_file_hash_add_file.
  - unfold list_all_files. rewrite Hroot. by eapply dfs_add_file_at_hidden.
  - intros Hempty Hin. unfold list_all_files in Hin.
    assert (keyed (root (add_file (build files) path h))) as Hk
      by (rewrite <- build_snoc; apply build_keyed).
    destruct (dfs_elem _ Hk _ _ Hin) as (parts & node & Hs & Hd & Hdirs').
    assert (pre <> []) as Hpre by apply split_from_nonempty.
    destruct parts as [|x r].
    + simpl in Hs. subst path. apply (f_equal length) in Hsplit.
      rewrite length_app in Hsplit. destruct pre, rest; simpl in Hsplit; done || lia.
    + assert (Forall (fun x => free_of "/" x = true) (x :: r)) as Hfree.
      { pose proof Hd as Hd'. rewrite <- build_snoc in Hd'.
        apply build_reach in Hd' as [Hnil|(p & _ & [tl Htl])]; [done|].
        pose proof (split_from_free "/" p "" eq_refl) as Hall.
        unfold split in Htl. rewrite Htl in Hall. by apply Forall_app in Hall as [? _]. }
      assert (x <> ""%string) as Hx.
      { intros ->. rewrite Hroot in Hd. destruct pre as [|k0 pre']; [done|].
        simpl in Hd0, Hd. unfold get_child in *. simpl in Hd.
        destruct (decide (k0 = ""%string)) as [->|Hk0].
        - by rewrite Hempty in Hd0.
        - rewrite dict_get_set_ne, Hempty in Hd by done. done. }
      rewrite Hs, split_dfs_path in Hsplit by done.
      destruct rest as [|k rest']; [done|].
      pose proof (Hdirs' _ _ _ _ Hsplit Hthrough) as Hdir.
      rewrite is_file_add_file_at in Hdir. congruence.
  - exact Hser.
  - unfold get_file_hash, DirectoryTree_from_dict, DirectoryTree_to_dict. cbn [root].
    rewrite Hser, from_dict_to_dict by apply build_keyed.
    rewrite Hsplit. by rewrite (descend_prune_hidden rest pre Hrest _ _ Hd0 Hfile).
Qed.

Lemma add_file_below_file_leaf_witness :
  let files := [("a", "h1")]%string in
  get_file_hash (build files) "a" = Some "h1"%string /\
  strictly_extends (split "a/b" "/") (split "a" "/") /\
  get_file_hash (add_file (build files) "a/b" "h2") "a/b" = Some "h2"%string /\
  list_all_files (add_file (build files) "a/b" "h2") = list_all_files (build files) /\
  ("a/b"%string ∉ list_all_files (add_file (build files) "a/b" "h2")) /\
  get_file_hash
    (DirectoryTree_from_dict (DirectoryTree_to_dict (add_file (build files) "a/b" "h2")))
    "a/b" = None.
Proof.
  assert (strictly_extends (split "a/b" "/") (split "a" "/")) as Hext.
  { exists ["b"%string]. split; [discriminate|reflexivity]. }
  pose proof (add_file_below_file_leaf [("a", "h1")]%string "a" "a/b" "h2" "h1"
                eq_refl Hext) as (_ & H2 & H3 & H4 & _ & H6).
  split_and!; [reflexivity|exact Hext|exact H2|exact H3|exact (H4 eq_refl)|exact H6].
Defined.

(** C10 as stated fails where it says that the new leaf is a child of the
    file node.  With the file a in the tree, adding a/b/c gives the file
    node a the directory b as its only child, and the new leaf is the child
    c of that directory: no child of the file node is the new leaf, which
    [get_file_hash] finds two levels below it.  And that [list_all_files]
    omits the new path holds of the leaf, not of every path as a text: a
    file staged as /a/b is listed as a/b, so with the file a in the tree as
    well, the listing after adding a/b below a holds the text a/b, as it
    did before the call. *)
Lemma add_file_below_file_leaf_not_child :
  let t := build [("a", "h1")]%string in
  let t' := add_file t "a/b/c" "h2" in
  let leaf := mkTreeNode "c" true (Some "h2"%string) [] in
  let u := build [("/a/b", "h0"); ("a", "h1")]%string in
  get_file_hash t "a" = Some "h1"%string /\
  split "a/b/c" "/" = split "a" "/" ++ ["b"; "c"]%string /\
  descend (root t') (split "a" "/") =
    Some (mkTreeNode "a" true (Some "h1"%string)
            [("b"%string, mkTreeNode "b" false None [("c"%string, leaf)])]) /\
  (forall f part, descend (root t') (split "a" "/") = Some f ->
                  get_child f part <> Some leaf) /\
  get_file_hash t' "a/b/c" = Some "h2"%string /\
  get_file_hash u "a" = Some "h1"%string /\
  list_all_files u = ["a/b"; "a"]%string /\
  list_all_files (add_file u "a/b" "h2") = ["a/b"; "a"]%string.
Proof.
  cbv zeta. split_and!; try reflexivity.
  intros f part Hd. vm_compute in Hd. injection Hd as <-.
  unfold get_child. cbn [children dict_get].
  destruct (String.eqb "b" part); [by intros [=]|done].
Qed.

End tree_below_file.

Module diff_extra.
Import py diff diff_spec diff_proofs extra_spec.

#[local] Arguments spec_backtrack : simpl never.
#[local] Arguments lcs_cell : simpl never.

Lemma old_numbered_cons ty c n d :
  old_numbered (mkDiffLine ty c n :: d) =
  if decide (ty = "-"%string \/ ty = " "%string)
  then (c, n) :: old_numbered d else old_numbered d.
Proof.
  unfold old_numbered. rewrite filter_cons. simpl.
  by destruct (decide (ty = "-"%string \/ ty = " "%string)).
Qed.

Lemma imap_snoc {A B} (f : nat -> A -> B) l x :
  imap f (l ++ [x]) = imap f l ++ [f (length l) x].
Proof. rewrite imap_app. simpl. by rewrite Nat.add_0_r. Qed.

Lemma spec_backtrack_old_numbered a b :
  forall i j, i <= length a ->
  old_numbered (spec_backtrack a b i j) =
  reverse (imap (fun k x => (x, S k)) (take i a)).
Proof.
  induction i as [|i IHi].
  - induction j as [|j IHj]; intros Hi; [done|].
    rewrite spec_backtrack_0_S, old_numbered_cons. by apply IHj.
  - assert (forall j : nat, i < length a ->
              reverse (imap (fun k x => (x, S k)) (take (S i) a)) =
              (getitem a i, S i) :: reverse (imap (fun k x => (x, S k)) (take i a)))
      as Hstep.
    { intros _ Hi. rewrite take_S_getitem, imap_snoc, reverse_snoc by lia.
      by rewrite length_take, Nat.min_l by lia. }
    induction j as [|j IHj]; intros Hi; rewrite (Hstep 0) by lia.
    + rewrite spec_backtrack_S_0, old_numbered_cons. simpl. by rewrite IHi by lia.
    + rewrite spec_backtrack_S_S.
      destruct (String.eqb (getitem a i) (getitem b j));
        [|destruct (lcs_cell a b i (S j) <=? lcs_cell a b (S i) j)%nat];
        rewrite old_numbered_cons; simpl.
      * by rewrite IHi by lia.
      * rewrite IHj by lia. by rewrite (Hstep 0) by lia.
      * by rewrite IHi by lia.
Qed.

(** Every line of the walk is unchanged, added with line number 0, or
    removed. *)
Lemma spec_backtrack_types a b :
  forall i j,
  Forall (fun l => line_type l = " "%string \/ line_type l = "-"%string \/
                   (line_type l = "+"%string /\ line_num l = 0))
         (spec_backtrack a b i j).
Proof.
  induction i as [|i IHi].
  - induction j as [|j IHj]; [constructor|].
    rewrite spec_backtrack_0_S. constructor; [simpl; auto|done].
  - induction j as [|j IHj].
    + rewrite spec_backtrack_S_0. constructor; [simpl; auto|done].
    + rewrite spec_backtrack_S_S.
      destruct (String.eqb (getitem a i) (getitem b j));
        [|destruct (lcs_cell a b i (S j) <=? lcs_cell a b (S i) j)%nat];
        (constructor; [simpl; auto|done]).
Qed.

Lemma compute_diff_types text1 text2 :
  Forall (fun l => line_type l = " "%string \/ line_type l = "-"%string \/
                   (line_type l = "+"%string /\ line_num l = 0))
         (compute_diff text1 text2).
Proof. rewrite compute_diff_spec. apply Forall_reverse, spec_backtrack_types. Qed.

(** X11.  Line numbers in a diff: the removed and unchanged lines carry, in
    order, the line numbers 1, 2, ... of the first text together with its
    lines, every added line carries the number 0, and no other line type
    occurs. *)
Theorem compute_diff_line_numbers (text1 text2 : string) :
  let d := compute_diff text1 text2 in
  old_numbered d = imap (fun k x => (x, S k)) (lines_of text1) /\
  Forall (fun l => line_type l = " "%string \/ line_type l = "-"%string \/
                   (line_type l = "+"%string /\ line_num l = 0)) d.
Proof.
  cbv zeta. split; [|apply compute_diff_types]. rewrite compute_diff_spec.
  unfold old_numbered. rewrite filter_reverse, fmap_reverse.
  fold (old_numbered (spec_backtrack (lines_of text1) (lines_of text2)
                        (length (lines_of text1)) (length (lines_of text2)))).
  by rewrite spec_backtrack_old_numbered, reverse_involutive, firstn_all.
Qed.

Lemma length_script d :
  Forall (fun l => line_type l = " "%string \/ line_type l = "-"%string \/
                   (line_type l = "+"%string /\ line_num l = 0)) d ->
  length d = count_type "+" d + count_type "-" d + length (unchanged_lines d).
Proof.
  induction 1 as [|[ty c n] d Hl Hd IH]; [done|].
  rewrite !count_type_cons, unchanged_lines_cons. simpl in *. rewrite IH.
  repeat case_decide; subst; simpl; try lia; exfalso; intuition congruence.
Qed.

(** ** Scripts without changes *)

Lemma is_lcs_length_refl (a : list string) : is_lcs_length a a (length a).
Proof.
  split; [by exists a|]. intros s Hs _. by apply sublist_length.
Qed.

Lemma has_changes_counts d :
  has_changes d = false <-> count_type "+" d = 0 /\ count_type "-" d = 0.
Proof.
  induction d as [|[ty c n] d IH]; [done|].
  simpl. rewrite !count_type_cons, orb_false_iff, orb_false_iff, IH.
  rewrite !String.eqb_neq. repeat case_decide; subst; intuition congruence.
Qed.

Lemma no_changes_sides d :
  count_type "+" d = 0 -> count_type "-" d = 0 ->
  removed_plus_unchanged d = unchanged_lines d /\
  added_plus_unchanged d = unchanged_lines d.
Proof.
  induction d as [|[ty c n] d IH]; [done|].
  rewrite !count_type_cons, removed_plus_unchanged_cons, added_plus_unchanged_cons,
    unchanged_lines_cons.
  repeat case_decide; subst; try done; intros Hplus Hminus;
    destruct (IH Hplus Hminus) as [-> ->]; try done; exfalso; intuition congruence.
Qed.

(** X12.  [has_changes] on a diff is false exactly when the two texts have
    the same lines (texts that differ only in how the last line ends, or in
    the kind of line break, count as the same); [diff_stats] is then (0, 0)
    and every line of the first text is there as an unchanged line. *)
Theorem has_changes_iff_lines_differ (text1 text2 : string) :
  let d := compute_diff text1 text2 in
  (has_changes d = false <-> lines_of text1 = lines_of text2) /\
  (lines_of text1 = lines_of text2 ->
   diff_stats d = (0, 0) /\ unchanged_lines d = lines_of text1 /\
   length d = length (lines_of text1)).
Proof.
  cbv zeta.
  assert (lines_of text1 = lines_of text2 ->
          count_type "+" (compute_diff text1 text2) = 0 /\
          count_type "-" (compute_diff text1 text2) = 0) as Hsame.
  { intros Heq.
    pose proof (compute_diff_unchanged text1 text2) as Hu. rewrite <- Heq in Hu.
    pose proof (is_lcs_length_unique _ _ _ _ Hu (is_lcs_length_refl _)) as Hlen.
    pose proof (length_removed_plus_unchanged (compute_diff text1 text2)) as H1.
    pose proof (length_added_plus_unchanged (compute_diff text1 text2)) as H2.
    rewrite compute_diff_removed in H1. rewrite compute_diff_added, <- Heq in H2. lia. }
  split.
  - rewrite has_changes_counts. split; [|done].
    intros [Hp Hm]. destruct (no_changes_sides _ Hp Hm) as [Hr Ha].
    by rewrite <- (compute_diff_removed text1 text2), <- (compute_diff_added text1 text2),
      Hr, Ha.
  - intros Heq. destruct (Hsame Heq) as [Hp Hm].
    destruct (no_changes_sides _ Hp Hm) as [Hr Ha]. split_and!.
    + unfold diff_stats. by rewrite Hp, Hm.
    + by rewrite <- Hr, compute_diff_removed.
    + pose proof (compute_diff_types text1 text2) as Hty.
      rewrite (length_script _ Hty), Hp, Hm. simpl.
      by rewrite <- Hr, compute_diff_removed.
Qed.

(** X13.  [diff_stats] of a diff: additions plus the unchanged lines are
    the lines of the second text, deletions plus the unchanged lines are
    the lines of the first, so additions minus deletions is the growth in
    line count, and the diff has one line for each. *)
Theorem diff_stats_compute_diff (text1 text2 : string) :
  let d := compute_diff text1 text2 in
  let u := length (unchanged_lines d) in
  fst (diff_stats d) + u = length (lines_of text2) /\
  snd (diff_stats d) + u = length (lines_of text1) /\
  fst (diff_stats d) + length (lines_of text1)
    = snd (diff_stats d) + length (lines_of text2) /\
  length d = fst (diff_stats d) + snd (diff_stats d) + u.
Proof.
  cbv zeta. unfold diff_stats. simpl.
  pose proof (length_removed_plus_unchanged (compute_diff text1 text2)) as H1.
  pose proof (length_added_plus_unchanged (compute_diff text1 text2)) as H2.
  rewrite compute_diff_removed in H1. rewrite compute_diff_added in H2.
  split_and!; try lia.
  pose proof (compute_diff_types text1 text2) as Hty.
  by rewrite (length_script _ Hty).
Qed.

(** ** Empty texts *)

Lemma spec_backtrack_0 a b j :
  j <= length b ->
  reverse (spec_backtrack a b 0 j) = (fun x => mkDiffLine "+" x 0) <$> take j b.
Proof.
  induction j as [|j IH]; intros Hj; [done|].
  rewrite spec_backtrack_0_S, reverse_cons, IH by lia.
  by rewrite take_S_getitem, fmap_app by lia.
Qed.

Lemma spec_backtrack_i_0 a b i :
  i <= length a ->
  reverse (spec_backtrack a b i 0) = imap (fun k x => mkDiffLine "-" x (S k)) (take i a).
Proof.
  induction i as [|i IH]; intros Hi; [done|].
  rewrite spec_backtrack_S_0, reverse_cons, IH by lia.
  rewrite take_S_getitem, imap_snoc by lia.
  by rewrite length_take, Nat.min_l by lia.
Qed.

(** X14.  Against the empty text: the diff from the empty text lists every
    line of the other text as added, with line number 0, and the diff to
    the empty text lists every line as removed, numbered from 1; for two
    empty texts the diff is empty. *)
Theorem compute_diff_empty (text : string) :
  compute_diff "" text = (fun x => mkDiffLine "+" x 0) <$> lines_of text /\
  compute_diff text "" = imap (fun k x => mkDiffLine "-" x (S k)) (lines_of text) /\
  compute_diff "" "" = [].
Proof.
  split_and!; [| |reflexivity].
  - rewrite compute_diff_spec. change (lines_of "") with (@nil string). simpl length.
    by rewrite spec_backtrack_0, firstn_all.
  - rewrite compute_diff_spec. change (lines_of "") with (@nil string). simpl length.
    by rewrite spec_backtrack_i_0, firstn_all.
Qed.

(** ** [format_diff] *)

Lemma str_join_head sep x rest :
  exists tl, str_join sep (x :: rest) = (x ++ tl)%string.
Proof.
  destruct rest as [|y rest]; simpl.
  - exists ""%string. clear. induction x as [|c x IH]; [done|].
    change (String c x = String c (x ++ ""))%string. by rewrite <- IH.
  - eauto.
Qed.

(** On two equal lists of lines the backtracking takes the diagonal all
    the way: every line is unchanged, numbered from 1. *)
Lemma spec_backtrack_diagonal a i :
  i <= length a ->
  reverse (spec_backtrack a a i i) = imap (fun k x => mkDiffLine " " x (S k)) (take i a).
Proof.
  induction i as [|i IH]; intros Hi; [done|].
  rewrite spec_backtrack_S_S, String.eqb_refl, reverse_cons, IH by lia.
  rewrite take_S_getitem, imap_snoc by lia.
  by rewrite length_take, Nat.min_l by lia.
Qed.

Lemma DiffLine_str_unchanged (l : list string) : forall num : nat -> nat,
  map DiffLine_str (imap (fun k x => mkDiffLine " " x (num k)) l) =
  map (fun x => ("  " ++ x)%string) l.
Proof.
  induction l as [|x l IH]; intros num; [done|].
  rewrite imap_cons. cbn [map]. f_equal. apply (IH (num ∘ S)).
Qed.

(** X15.  [format_diff] answers "No changes" only for an empty diff, that
    is, for two texts without lines.  Two texts with the same lines, when
    there are lines, are not answered with "No changes": their diff holds
    every line as an unchanged line, numbered from 1, and is printed line
    by line, each line after the two spaces of the type and the
    separator. *)
Theorem format_diff_no_changes (text1 text2 : string) :
  (format_diff (compute_diff text1 text2) = "No changes"%string <->
   lines_of text1 = [] /\ lines_of text2 = []) /\
  (lines_of text1 = lines_of text2 ->
   compute_diff text1 text2 =
     imap (fun k x => mkDiffLine " " x (S k)) (lines_of text1) /\
   (lines_of text1 <> [] ->
    format_diff (compute_diff text1 text2) =
      str_join newline (map (fun x => ("  " ++ x)%string) (lines_of text1)) /\
    format_diff (compute_diff text1 text2) <> "No changes"%string)).
Proof.
  assert (format_diff (compute_diff text1 text2) = "No changes"%string ->
          lines_of text1 = [] /\ lines_of text2 = []) as Honly.
  { intros Hfmt.
    destruct (compute_diff text1 text2) as [|l d] eqn:Hd.
    + pose proof (compute_diff_removed text1 text2) as Hr.
      pose proof (compute_diff_added text1 text2) as Ha.
      rewrite Hd in Hr, Ha. by split.
    + exfalso.
      pose proof (compute_diff_types text1 text2) as Hty.
      rewrite Hd in Hty. apply Forall_cons in Hty as [Hl _].
      unfold format_diff in Hfmt. simpl map in Hfmt.
      destruct (str_join_head newline (DiffLine_str l) (map DiffLine_str d)) as [tl Htl].
      rewrite Htl in Hfmt. unfold DiffLine_str in Hfmt.
      apply (f_equal (String.get 0)) in Hfmt.
      destruct l as [ty c n]. simpl in Hl.
      destruct Hl as [->|[->|[-> _]]]; vm_compute in Hfmt; discriminate. }
  split; [split; [exact Honly|]|].
  - intros [H1 H2].
    pose proof (compute_diff_types text1 text2) as Hty.
    pose proof (length_removed_plus_unchanged (compute_diff text1 text2)) as Hr.
    pose proof (length_added_plus_unchanged (compute_diff text1 text2)) as Ha.
    rewrite compute_diff_removed, H1 in Hr. rewrite compute_diff_added, H2 in Ha.
    destruct (compute_diff text1 text2) as [|[ty c n] d]; [done|]. exfalso.
    apply Forall_cons in Hty as [Hl _]. simpl in Hl.
    rewrite !count_type_cons, unchanged_lines_cons in *.
    repeat case_decide; subst; simpl in *; try lia; intuition congruence.
  - intros Hsame.
    assert (compute_diff text1 text2 =
            imap (fun k x => mkDiffLine " " x (S k)) (lines_of text1)) as Hd.
    { rewrite compute_diff_spec, <- Hsame, spec_backtrack_diagonal by done.
      by rewrite firstn_all. }
    split; [exact Hd|]. intros Hlines. split.
    + rewrite Hd. destruct (lines_of text1) as [|x l] eqn:Hl; [done|].
      rewrite imap_cons. unfold format_diff.
      rewrite <- (imap_cons (fun k x => mkDiffLine " " x (S k)) x l).
      apply (f_equal (str_join newline)), DiffLine_str_unchanged.
    + intros Hfmt. by destruct (Honly Hfmt).
Qed.

End diff_extra.

Module merge_extra.
Import merge merge_spec merge_proofs extra_spec.

Section perform_merge.
Context (base_files ours_files theirs_files : gmap string string).


Lemma foldl_merge_path_merged order : forall r p,
  merged_files (foldl (merge_path base_files ours_files theirs_files) r order) !! p =
  match merge_files p (base_files !! p) (ours_files !! p) (theirs_files !! p) with
  | (Some content, None) =>
      if bool_decide (p ∈ order) then Some content else merged_files r !! p
  | _ => merged_files r !! p
  end.
Proof.
  induction order as [|q order IH]; intros r p; simpl.
  - by destruct (merge_files p _ _ _) as [[?|] [?|]].
  - rewrite IH, merge_path_merged.
    destruct (decide (q = p)) as [->|Hne].
    + destruct (merge_files p _ _ _) as [[content|] [c|]]; try done.
      rewrite (bool_decide_eq_true_2 (p ∈ p :: order)) by by left.
      by destruct (bool_decide (p ∈ order)).
    + assert (bool_decide (p ∈ q :: order) = bool_decide (p ∈ order)) as ->.
      { apply bool_decide_ext. rewrite elem_of_cons. intuition congruence. }
      by destruct (merge_files p _ _ _) as [[?|] [?|]],
                  (merge_files q _ _ _) as [[?|] [?|]].
Qed.

Lemma foldl_merge_path_conflicts order : forall r,
  conflicts (foldl (merge_path base_files ours_files theirs_files) r order) =
  conflicts r ++ omap (fun p => snd (merge_files p (base_files !! p) (ours_files !! p) (theirs_files !! p))) order.
Proof.
  induction order as [|q order IH]; intros r; simpl; [by rewrite app_nil_r|].
  rewrite IH, merge_path_conflicts.
  destruct (merge_files q (base_files !! q) (ours_files !! q) (theirs_files !! q)) as [m [c|]]; simpl; [|done]. by rewrite <- app_assoc.
Qed.

Lemma merge_path_success r q :
  success (merge_path base_files ours_files theirs_files r q) = success r && bool_decide (snd (merge_files q (base_files !! q) (ours_files !! q) (theirs_files !! q)) = None).
Proof.
  unfold merge_path. destruct (merge_files q (base_files !! q) (ours_files !! q) (theirs_files !! q)) as [[content|] [c|]]; simpl;
    by rewrite ?andb_true_r, ?andb_false_r.
Qed.

Lemma foldl_merge_path_success order : forall r,
  success (foldl (merge_path base_files ours_files theirs_files) r order) =
  success r && bool_decide (omap (fun p => snd (merge_files p (base_files !! p) (ours_files !! p) (theirs_files !! p))) order = []).
Proof.
  induction order as [|q order IH]; intros r; simpl; [by rewrite andb_true_r|].
  rewrite IH, merge_path_success. destruct (snd (merge_files q (base_files !! q) (ours_files !! q) (theirs_files !! q))) as [c|]; simpl.
  - by rewrite !andb_false_r.
  - by rewrite andb_true_r.
Qed.

Lemma perform_merge_in_merged order p :
  iterates order (all_paths base_files ours_files theirs_files) ->
  merged_files (perform_merge_in order base_files ours_files theirs_files) !! p =
  match merge_files p (base_files !! p) (ours_files !! p) (theirs_files !! p) with
  | (Some content, None) => Some content
  | _ => None
  end.
Proof.
  intros [_ Hin]. unfold perform_merge_in.
  rewrite foldl_merge_path_merged. simpl. rewrite lookup_empty.
  destruct (merge_files p _ _ _) as [[content|] [c|]] eqn:Hp; try done.
  rewrite bool_decide_eq_true_2; [done|]. apply Hin. unfold all_paths.
  destruct (base_files !! p) eqn:Hb; [apply elem_of_union_l, elem_of_union_l,
    elem_of_dom; by rewrite Hb|].
  destruct (ours_files !! p) eqn:Ho; [apply elem_of_union_l, elem_of_union_r,
    elem_of_dom; by rewrite Ho|].
  destruct (theirs_files !! p) eqn:Ht; [apply elem_of_union_r,
    elem_of_dom; by rewrite Ht|].
  done.
Qed.

Lemma perform_merge_in_conflicts order :
  conflicts (perform_merge_in order base_files ours_files theirs_files) =
  omap (fun p => snd (merge_files p (base_files !! p) (ours_files !! p)
                        (theirs_files !! p))) order.
Proof. unfold perform_merge_in. by rewrite foldl_merge_path_conflicts. Qed.

Lemma perform_merge_in_success order :
  success (perform_merge_in order base_files ours_files theirs_files) =
  bool_decide (conflicts (perform_merge_in order base_files ours_files theirs_files) = []).
Proof.
  rewrite perform_merge_in_conflicts. unfold perform_merge_in.
  by rewrite foldl_merge_path_success.
Qed.

Lemma iterates_Permutation order1 order2 (paths : gset string) :
  iterates order1 paths -> iterates order2 paths -> order1 ≡ₚ order2.
Proof.
  intros [Hnd1 Hin1] [Hnd2 Hin2].
  apply NoDup_Permutation; [done..|]. intros p. by rewrite Hin1, Hin2.
Qed.

(** X16.  The aggregate of [perform_merge], in whatever order the paths are
    taken: a path is in [merged_files], with the content [merge_files]
    gave, exactly when [merge_files] took it without conflict; [conflicts]
    holds, in the order of the iteration, the conflict of each path that
    has one; [success] is true exactly when there is no conflict, and
    [has_conflicts] is its negation. *)
Theorem perform_merge_aggregate (order : list string) :
  iterates order (all_paths base_files ours_files theirs_files) ->
  let r := perform_merge_in order base_files ours_files theirs_files in
  (forall p, merged_files r !! p =
     match merge_files p (base_files !! p) (ours_files !! p) (theirs_files !! p) with
     | (Some content, None) => Some content
     | _ => None
     end) /\
  conflicts r =
    omap (fun p => snd (merge_files p (base_files !! p) (ours_files !! p)
                          (theirs_files !! p))) order /\
  success r = bool_decide (conflicts r = []) /\
  has_conflicts r = negb (success r).
Proof.
  intros Hiter. cbv zeta. split_and!.
  - intros p. by apply perform_merge_in_merged.
  - apply perform_merge_in_conflicts.
  - apply perform_merge_in_success.
  - rewrite perform_merge_in_success. unfold has_conflicts.
    destruct (conflicts _); by simpl.
Qed.

(** X17.  The answer of [perform_merge] does not depend on the order in
    which the set of paths is iterated: two orders give the same
    [merged_files] and the same [success], and the same conflicts up to
    their order in the list. *)
Theorem perform_merge_order_independent (order1 order2 : list string) :
  iterates order1 (all_paths base_files ours_files theirs_files) ->
  iterates order2 (all_paths base_files ours_files theirs_files) ->
  let r1 := perform_merge_in order1 base_files ours_files theirs_files in
  let r2 := perform_merge_in order2 base_files ours_files theirs_files in
  merged_files r1 = merged_files r2 /\
  success r1 = success r2 /\
  conflicts r1 ≡ₚ conflicts r2.
Proof.
  intros H1 H2. cbv zeta.
  assert (conflicts (perform_merge_in order1 base_files ours_files theirs_files)
          ≡ₚ conflicts (perform_merge_in order2 base_files ours_files theirs_files))
    as Hcp.
  { rewrite !perform_merge_in_conflicts.
    by rewrite (iterates_Permutation _ _ _ H1 H2). }
  split_and!; [| |done].
  - apply map_eq. intros p. by rewrite !perform_merge_in_merged.
  - rewrite !perform_merge_in_success. apply bool_decide_ext. split; intros Hnil.
    + apply Permutation_nil_r. by rewrite <- Hcp, Hnil.
    + apply Permutation_nil_r. by rewrite Hcp, Hnil.
Qed.

End perform_merge.

(** What [merge_files] puts in a conflict. *)
Lemma merge_files_conflict_record path b o t m c :
  merge_files path b o t = (m, Some c) ->
  m = None /\
  c = mkMergeConflict path (default ""%string b) (default ""%string o)
        (default ""%string t).
Proof.
  intros H. destruct b as [b|], o as [o|], t as [t|]; simpl in H;
    try (destruct (three_way_merge b o t) as [? []]);
    repeat match type of H with
           | context [String.eqb ?x ?y] => destruct (String.eqb x y)
           end;
    first [discriminate H | by injection H as <- <-].
Qed.

(** X18.  A conflict keeps what it was made from: every conflict recorded
    by [perform_merge] is for a path of the iteration on which
    [merge_files] gave no merged content, and carries that path and the
    three contents found under it, an absent side as the empty string; the
    path is not in [merged_files], and no path has two conflicts. *)
Theorem perform_merge_conflict_records (order : list string)
    (base_files ours_files theirs_files : gmap string string) (c : MergeConflict) :
  iterates order (all_paths base_files ours_files theirs_files) ->
  let r := perform_merge_in order base_files ours_files theirs_files in
  c ∈ conflicts r ->
  file_path c ∈ order /\
  base c = default ""%string (base_files !! file_path c) /\
  ours c = default ""%string (ours_files !! file_path c) /\
  theirs c = default ""%string (theirs_files !! file_path c) /\
  merged_files r !! file_path c = None /\
  NoDup (map file_path (conflicts r)).
Proof.
  intros Hiter. cbv zeta.
  pose proof (fun p => perform_merge_in_merged base_files ours_files theirs_files
                        order p Hiter) as Hm.
  rewrite perform_merge_in_conflicts. intros (p & Hp & Hsnd)%list_elem_of_omap.
  destruct (merge_files p (base_files !! p) (ours_files !! p) (theirs_files !! p))
    as [m c'] eqn:Hres. simpl in Hsnd. subst c'.
  destruct (merge_files_conflict_record _ _ _ _ _ _ Hres) as [-> Hrec].
  assert (file_path c = p) as Hpath by by rewrite Hrec.
  rewrite Hpath. split_and!; [done|by rewrite Hrec..| |].
  - by rewrite Hm, Hres.
  - destruct Hiter as [Hnd _]. clear -Hnd.
    induction Hnd as [|q order Hq Hnd IH]; simpl; [constructor|].
    destruct (merge_files q _ _ _) as [m [c|]] eqn:Hres; simpl; [|done].
    constructor; [|done].
    rewrite (merge_files_conflict_path _ _ _ _ _ _ Hres).
    intros (c' & Hc' & (p & Hp & Hsnd)%list_elem_of_omap)%list_elem_of_fmap.
    destruct (merge_files p _ _ _) as [m' c''] eqn:Hres'. simpl in Hsnd. subst c''.
    rewrite (merge_files_conflict_path _ _ _ _ _ _ Hres') in Hc'. by subst.
Qed.

Lemma merge_files_same path b x :
  merge_files path b x x = (x, None).
Proof.
  destruct b as [b|], x as [x|]; simpl; try done.
  - unfold three_way_merge. by rewrite String.eqb_refl.
  - by rewrite String.eqb_refl.
Qed.

Lemma merge_files_base_ours path b t :
  merge_files path b b t = (t, None).
Proof.
  destruct b as [b|], t as [t|]; simpl; try done.
  - unfold three_way_merge. rewrite String.eqb_refl.
    destruct (String.eqb_spec b t); by subst.
  - by rewrite String.eqb_refl.
Qed.

Lemma merge_files_base_theirs path b o :
  merge_files path b o b = (o, None).
Proof.
  destruct b as [b|], o as [o|]; simpl; try done.
  - unfold three_way_merge. rewrite String.eqb_refl.
    destruct (String.eqb_spec o b); [by subst|].
    by destruct (String.eqb o b).
  - by rewrite String.eqb_refl.
Qed.

(** X19.  Merges that cannot conflict: when only one side moved away from
    the base the merge is that side (a fast-forward, either way round), and
    when both sides are the same the merge is that common state; in each
    case without conflict. *)
Theorem perform_merge_one_sided (order : list string)
    (base_files files : gmap string string) :
  (iterates order (all_paths base_files base_files files) ->
   let r := perform_merge_in order base_files base_files files in
   merged_files r = files /\ conflicts r = [] /\ success r = true) /\
  (iterates order (all_paths base_files files base_files) ->
   let r := perform_merge_in order base_files files base_files in
   merged_files r = files /\ conflicts r = [] /\ success r = true) /\
  (iterates order (all_paths base_files files files) ->
   let r := perform_merge_in order base_files files files in
   merged_files r = files /\ conflicts r = [] /\ success r = true).
Proof.
  assert (forall ours_files theirs_files,
    (forall p, merge_files p (base_files !! p) (ours_files !! p) (theirs_files !! p)
               = (files !! p, None)) ->
    iterates order (all_paths base_files ours_files theirs_files) ->
    let r := perform_merge_in order base_files ours_files theirs_files in
    merged_files r = files /\ conflicts r = [] /\ success r = true) as Hgen.
  { intros ours_files theirs_files Hres Hiter. cbv zeta.
    pose proof (fun p => perform_merge_in_merged base_files ours_files theirs_files
                          order p Hiter) as Hm.
    pose proof (perform_merge_in_success base_files ours_files theirs_files order) as Hs.
    assert (conflicts (perform_merge_in order base_files ours_files theirs_files) = [])
      as Hnil.
    { rewrite perform_merge_in_conflicts. clear -Hres. induction order as [|q order IH]; simpl; [done|].
      by rewrite Hres. }
    split_and!; [|done|by rewrite Hs, Hnil].
    apply map_eq. intros p. rewrite Hm, Hres. by destruct (files !! p). }
  split_and!; apply Hgen; intros p.
  - apply merge_files_base_ours.
  - apply merge_files_base_theirs.
  - apply merge_files_same.
Qed.

Lemma merge_files_swap path b o t :
  merge_files path b t o =
  (fst (merge_files path b o t), swap_sides <$> snd (merge_files path b o t)).
Proof.
  destruct b as [b|], o as [o|], t as [t|]; simpl; try done.
  - unfold three_way_merge. rewrite (String.eqb_sym t o).
    destruct (String.eqb_spec o t) as [->|Hot]; [done|].
    destruct (String.eqb_spec o b) as [->|Hob], (String.eqb_spec t b) as [->|Htb];
      simpl; try done.
  - by destruct (String.eqb o b).
  - by destruct (String.eqb t b).
  - rewrite (String.eqb_sym t o). destruct (String.eqb_spec o t) as [->|Hot]; done.
Qed.

(** X20.  Merging is symmetric in its two sides: with ours and theirs
    exchanged (and the path set iterated in whatever order it then has)
    [perform_merge] gives the same merged files and the same success flag,
    and the same conflicts with their two sides exchanged, up to their
    order in the list. *)
Theorem perform_merge_symmetric (order order' : list string)
    (base_files ours_files theirs_files : gmap string string) :
  iterates order (all_paths base_files ours_files theirs_files) ->
  iterates order' (all_paths base_files theirs_files ours_files) ->
  let r := perform_merge_in order base_files ours_files theirs_files in
  let r' := perform_merge_in order' base_files theirs_files ours_files in
  merged_files r' = merged_files r /\
  conflicts r' ≡ₚ swap_sides <$> conflicts r /\
  success r' = success r.
Proof.
  intros Hiter Hiter'. cbv zeta.
  assert (order' ≡ₚ order) as Hperm.
  { apply (iterates_Permutation _ _ _ Hiter'). destruct Hiter as [Hnd Hin].
    split; [done|]. intros p. rewrite Hin. unfold all_paths.
    rewrite !elem_of_union. tauto. }
  assert (conflicts (perform_merge_in order' base_files theirs_files ours_files)
          ≡ₚ swap_sides <$> conflicts (perform_merge_in order base_files ours_files
                                         theirs_files)) as Hcp.
  { rewrite !perform_merge_in_conflicts, Hperm. clear.
    induction order as [|q order IH]; simpl; [done|].
    rewrite (merge_files_swap q (base_files !! q) (ours_files !! q) (theirs_files !! q)).
    simpl. destruct (snd (merge_files q _ _ _)); simpl; by rewrite IH. }
  split_and!; [|done|].
  - apply map_eq. intros p. rewrite !perform_merge_in_merged by done.
    rewrite (merge_files_swap p (base_files !! p) (ours_files !! p) (theirs_files !! p)).
    by destruct (merge_files p _ _ _) as [[?|] [?|]].
  - rewrite !perform_merge_in_success. apply bool_decide_ext. split; intros Hnil.
    + rewrite Hnil in Hcp. symmetry in Hcp. apply Permutation_nil_r in Hcp.
      by apply fmap_nil_inv in Hcp.
    + rewrite Hnil in Hcp. by apply Permutation_nil_r.
Qed.

(** Two sides that each add a file, and two sides that change the same
    file in two ways. *)
Lemma iterates_two_added (order : list string) :
  order = ["a"; "b"]%string \/ order = ["b"; "a"]%string ->
  iterates order
    (all_paths ∅ ({["a"%string := "x"%string]} : gmap string string)
       ({["b"%string := "y"%string]} : gmap string string)).
Proof.
  intros Horder. split.
  - destruct Horder as [-> | ->];
      (apply NoDup_cons; split; [|apply NoDup_singleton]);
      intros Hin%list_elem_of_singleton; discriminate Hin.
  - intros p. unfold all_paths.
    rewrite dom_empty_L, !dom_singleton_L, !elem_of_union, !elem_of_singleton,
      elem_of_empty.
    destruct Horder as [-> | ->];
      rewrite elem_of_cons, list_elem_of_singleton; tauto.
Qed.

Lemma iterates_one_changed :
  iterates ["f"%string]
    (all_paths ({["f"%string := "x"%string]} : gmap string string)
       ({["f"%string := "y"%string]} : gmap string string)
       ({["f"%string := "z"%string]} : gmap string string)).
Proof.
  split; [apply NoDup_singleton|]. intros p. unfold all_paths.
  rewrite !dom_singleton_L, !elem_of_union, !elem_of_singleton, list_elem_of_singleton.
  tauto.
Qed.

Lemma perform_merge_aggregate_witness :
  let base_files : gmap string string := {["f"%string := "x"%string]} in
  let ours_files : gmap string string := {["f"%string := "y"%string]} in
  let theirs_files : gmap string string := {["f"%string := "z"%string]} in
  let r := perform_merge_in ["f"%string] base_files ours_files theirs_files in
  iterates ["f"%string] (all_paths base_files ours_files theirs_files) /\
  merged_files r !! "f"%string = None /\
  conflicts r = [mkMergeConflict "f" "x" "y" "z"] /\
  success r = false.
Proof.
  cbv zeta.
  destruct (perform_merge_aggregate {["f"%string := "x"%string]}
              {["f"%string := "y"%string]} {["f"%string := "z"%string]}
              ["f"%string] iterates_one_changed) as (Hm & Hc & Hs & _).
  split_and!; [exact iterates_one_changed| | |].
  - rewrite (Hm "f"%string). reflexivity.
  - rewrite Hc. reflexivity.
  - rewrite Hs, Hc. reflexivity.
Defined.

Lemma perform_merge_order_independent_witness :
  let ours_files : gmap string string := {["a"%string := "x"%string]} in
  let theirs_files : gmap string string := {["b"%string := "y"%string]} in
  iterates ["a"; "b"]%string (all_paths ∅ ours_files theirs_files) /\
  iterates ["b"; "a"]%string (all_paths ∅ ours_files theirs_files) /\
  merged_files (perform_merge_in ["a"; "b"]%string ∅ ours_files theirs_files)
    = merged_files (perform_merge_in ["b"; "a"]%string ∅ ours_files theirs_files).
Proof.
  cbv zeta.
  pose proof (iterates_two_added ["a"; "b"]%string (or_introl eq_refl)) as H1.
  pose proof (iterates_two_added ["b"; "a"]%string (or_intror eq_refl)) as H2.
  destruct (perform_merge_order_independent ∅ {["a"%string := "x"%string]}
              {["b"%string := "y"%string]} _ _ H1 H2) as (Hm & _).
  split_and!; [exact H1|exact H2|exact Hm].
Defined.

Lemma perform_merge_conflict_records_witness :
  let base_files : gmap string string := {["f"%string := "x"%string]} in
  let ours_files : gmap string string := {["f"%string := "y"%string]} in
  let theirs_files : gmap string string := {["f"%string := "z"%string]} in
  let r := perform_merge_in ["f"%string] base_files ours_files theirs_files in
  let c := mkMergeConflict "f" "x" "y" "z" in
  iterates ["f"%string] (all_paths base_files ours_files theirs_files) /\
  c ∈ conflicts r /\
  ours c = default ""%string (ours_files !! file_path c) /\
  merged_files r !! file_path c = None.
Proof.
  cbv zeta.
  assert (mkMergeConflict "f" "x" "y" "z"
          ∈ conflicts (perform_merge_in ["f"%string] {["f"%string := "x"%string]}
                         {["f"%string := "y"%string]} {["f"%string := "z"%string]}))
    as Hin.
  { rewrite perform_merge_in_conflicts. simpl. rewrite !lookup_singleton_eq. simpl.
    by left. }
  destruct (perform_merge_conflict_records ["f"%string] {["f"%string := "x"%string]}
              {["f"%string := "y"%string]} {["f"%string := "z"%string]}
              (mkMergeConflict "f" "x" "y" "z") iterates_one_changed Hin)
    as (_ & _ & Ho & _ & Hm & _).
  split_and!; [exact iterates_one_changed|exact Hin|exact Ho|exact Hm].
Defined.

Lemma perform_merge_symmetric_witness :
  let ours_files : gmap string string := {["a"%string := "x"%string]} in
  let theirs_files : gmap string string := {["b"%string := "y"%string]} in
  iterates ["a"; "b"]%string (all_paths ∅ ours_files theirs_files) /\
  iterates ["a"; "b"]%string (all_paths ∅ theirs_files ours_files) /\
  merged_files (perform_merge_in ["a"; "b"]%string ∅ theirs_files ours_files)
    = merged_files (perform_merge_in ["a"; "b"]%string ∅ ours_files theirs_files).
Proof.
  cbv zeta.
  pose proof (iterates_two_added ["a"; "b"]%string (or_introl eq_refl)) as H1.
  assert (iterates ["a"; "b"]%string
            (all_paths ∅ ({["b"%string := "y"%string]} : gmap string string)
               ({["a"%string := "x"%string]} : gmap string string))) as H2.
  { destruct H1 as [Hnd Hin]. split; [exact Hnd|]. intros p. rewrite Hin.
    unfold all_paths. rewrite !elem_of_union. tauto. }
  destruct (perform_merge_symmetric ["a"; "b"]%string ["a"; "b"]%string ∅
              {["a"%string := "x"%string]} {["b"%string := "y"%string]} H1 H2)
    as (Hm & _).
  split_and!; [exact H1|exact H2|exact Hm].
Defined.

End merge_extra.

Module staging_extra.
Import py tree staging tree_proofs.

Lemma normalize_idemp p : normalize (normalize p) = normalize p.
Proof.
  induction p as [|c p IH]; [done|]. simpl. rewrite IH. f_equal.
  destruct (Ascii.eqb_spec c "092"); [done|].
  by destruct (Ascii.eqb_spec c "092").
Qed.

Lemma dict_del_ne {V} (k k' : string) (d : list (string * V)) :
  k <> k' -> dict_get k' (dict_del k d) = dict_get k' d.
Proof.
  intros Hne. induction d as [|[k0 v] d IH]; [done|]. simpl.
  destruct (String.eqb_spec k0 k) as [->|Hk0].
  - destruct (String.eqb_spec k k'); [done|done].
  - simpl. by rewrite IH.
Qed.

Lemma dict_del_fst {V} (k k' : string) (d : list (string * V)) :
  k' ∈ map fst (dict_del k d) -> k' ∈ map fst d.
Proof.
  induction d as [|[k0 v] d IH]; [done|]. simpl.
  destruct (String.eqb_spec k0 k) as [->|Hk0]; simpl.
  - intros ?. by right.
  - rewrite !elem_of_cons. intuition.
Qed.

Lemma dict_del_eq {V} (k : string) (d : list (string * V)) :
  NoDup (map fst d) -> dict_get k (dict_del k d) = None.
Proof.
  induction d as [|[k0 v] d IH]; [done|]. simpl. intros [Hk0 Hnd]%NoDup_cons.
  destruct (String.eqb_spec k0 k) as [->|Hne]; simpl.
  - apply dict_get_None. by intros ?.
  - destruct (String.eqb_spec k0 k); [done|]. by apply IH.
Qed.

Lemma dict_del_NoDup {V} (k : string) (d : list (string * V)) :
  NoDup (map fst d) -> NoDup (map fst (dict_del k d)).
Proof.
  induction d as [|[k0 v] d IH]; [done|]. simpl. intros [Hk0 Hnd]%NoDup_cons.
  destruct (String.eqb_spec k0 k) as [->|Hne]; simpl; [done|].
  apply NoDup_cons. split; [|by apply IH]. intros Hin. by apply Hk0, (dict_del_fst k).
Qed.

Lemma dict_del_length {V} (k : string) (d : list (string * V)) :
  length (dict_del k d) =
  match dict_get k d with Some _ => pred (length d) | None => length d end.
Proof.
  induction d as [|[k0 v] d IH]; [done|]. simpl.
  destruct (String.eqb_spec k0 k) as [->|Hne]; simpl; [done|].
  rewrite IH. destruct (dict_get k d) eqn:Hg; [|done].
  destruct d; [done|]. done.
Qed.

Lemma dict_set_length {V} (k : string) (v : V) (d : list (string * V)) :
  length (dict_set k v d) =
  match dict_get k d with Some _ => length d | None => S (length d) end.
Proof.
  induction d as [|[k0 v0] d IH]; [done|]. simpl.
  destruct (String.eqb_spec k0 k) as [->|Hne]; simpl; [done|].
  rewrite IH. by destruct (dict_get k d).
Qed.

(** X21.  The staging area is keyed by the path with its backslashes turned
    into slashes: after [add_file] every spelling of the path reads the new
    hash and the other paths read what they did; after [remove_file] every
    spelling reads nothing and the others are untouched; the count grows by
    one exactly when the path was not staged and shrinks by one exactly
    when it was; and the keys stay distinct. *)
Theorem staging_add_remove (s : StagingArea) (p h q : string) :
  NoDup (map fst (staged_files s)) ->
  get_file_hash (add_file s p h) q =
    (if decide (normalize p = normalize q) then Some h else get_file_hash s q) /\
  get_file_hash (remove_file s p) q =
    (if decide (normalize p = normalize q) then None else get_file_hash s q) /\
  is_staged (add_file s p h) (normalize p) = true /\
  is_staged (remove_file s p) (normalize p) = false /\
  get_file_count (add_file s p h) =
    (if is_staged s p then get_file_count s else S (get_file_count s)) /\
  get_file_count (remove_file s p) =
    (if is_staged s p then pred (get_file_count s) else get_file_count s) /\
  NoDup (map fst (staged_files (add_file s p h))) /\
  NoDup (map fst (staged_files (remove_file s p))).
Proof.
  intros Hnd. unfold get_file_hash, is_staged, get_file_count, add_file, remove_file.
  cbv zeta. simpl. rewrite normalize_idemp.
  assert (forall k, dict_get k (staged_files
            match dict_get (normalize p) (staged_files s) with
            | Some _ => mkStagingArea (dict_del (normalize p) (staged_files s))
            | None => s
            end) = if decide (normalize p = k) then None
                   else dict_get k (staged_files s)) as Hrem.
  { intros k. destruct (dict_get (normalize p) (staged_files s)) eqn:Hg; simpl.
    - case_decide as Hk; [subst; by apply dict_del_eq|by apply dict_del_ne].
    - case_decide as Hk; [by subst|done]. }
  split_and!.
  - case_decide as Hk; [rewrite <- Hk; apply dict_get_set_eq|by apply dict_get_set_ne].
  - apply Hrem.
  - by rewrite dict_get_set_eq.
  - by rewrite Hrem, decide_True.
  - rewrite dict_set_length. by destruct (dict_get _ _).
  - destruct (dict_get (normalize p) (staged_files s)) eqn:Hg; simpl; [|done].
    by rewrite dict_del_length, Hg.
  - by apply dict_set_NoDup.
  - destruct (dict_get (normalize p) (staged_files s)); simpl; [|done].
    by apply dict_del_NoDup.
Qed.

Lemma staging_add_remove_witness :
  let s := add_file StagingArea_init "src/main.py" "h0" in
  let p := String "s" (String "r" (String "c" (String "092" "main.py"))) in
  NoDup (map fst (staged_files s)) /\
  normalize p = "src/main.py"%string /\
  get_file_hash (add_file s p "h1") "src/main.py" = Some "h1"%string /\
  get_file_hash (remove_file s p) "src/main.py" = None /\
  get_file_count (add_file s p "h1") = 1.
Proof.
  cbv zeta.
  assert (NoDup (map fst (staged_files (add_file StagingArea_init "src/main.py" "h0"))))
    as Hnd by apply NoDup_singleton.
  destruct (staging_add_remove (add_file StagingArea_init "src/main.py" "h0")
              (String "s" (String "r" (String "c" (String "092" "main.py"))))
              "h1" "src/main.py" Hnd) as (H1 & H2 & _ & _ & H5 & _).
  split_and!; [exact Hnd|reflexivity|exact H1|exact H2|exact H5].
Defined.

Section get_status.
Context (working_files staged_files committed_files : gmap string string).

Lemma foldl_field (F : Status -> list string) (b : string -> bool)
    (step : Status -> string -> Status) :
  (forall st q, F (step st q) = F st ++ (if b q then [q] else [])) ->
  forall order st, F (foldl step st order) = F st ++ List.filter b order.
Proof.
  intros Hstep. induction order as [|q order IH]; intros st; simpl.
  - by rewrite app_nil_r.
  - rewrite IH, Hstep. destruct (b q); simpl; by rewrite <- app_assoc.
Qed.

Lemma get_status_in_fields order :
  let r := get_status_in order working_files staged_files committed_files in
  staged_new r =
    List.filter (fun p => match staged_files !! p, committed_files !! p with
                          | Some _, None => true
                          | _, _ => false
                          end) order /\
  staged_modified r =
    List.filter (fun p => match staged_files !! p, committed_files !! p with
                          | Some sh, Some ch => negb (String.eqb sh ch)
                          | _, _ => false
                          end) order /\
  staged_deleted r = [] /\
  not_staged_modified r =
    List.filter (fun p => match working_files !! p, staged_files !! p,
                                committed_files !! p with
                          | Some wh, Some sh, _ => negb (String.eqb wh sh)
                          | Some wh, None, Some ch => negb (String.eqb wh ch)
                          | _, _, _ => false
                          end) order /\
  not_staged_deleted r =
    List.filter (fun p => match working_files !! p, staged_files !! p,
                                committed_files !! p with
                          | None, Some _, _ => true
                          | None, None, Some _ => true
                          | _, _, _ => false
                          end) order /\
  untracked r =
    List.filter (fun p => match working_files !! p, staged_files !! p,
                                committed_files !! p with
                          | Some _, None, None => true
                          | _, _, _ => false
                          end) order.
Proof.
  assert (forall (F : Status -> list string) (b : string -> bool),
            (forall st q,
               F (status_path working_files staged_files committed_files st q)
               = F st ++ (if b q then [q] else [])) ->
            F Status_init = [] ->
            F (foldl (status_path working_files staged_files committed_files)
                 Status_init order) = List.filter b order) as Hfield.
  { intros F b Hstep Hinit. by rewrite (foldl_field F b _ Hstep), Hinit. }
  cbv zeta. unfold get_status_in.
  split_and!;
    [apply (Hfield staged_new)|apply (Hfield staged_modified)|
     rewrite (Hfield staged_deleted (fun _ => false));
       [clear; induction order as [|? ? IH]; [done|exact IH]| |done]|
     apply (Hfield not_staged_modified)|apply (Hfield not_staged_deleted)|
     apply (Hfield untracked)];
    try done;
    intros st q; unfold status_path;
    destruct (working_files !! q) as [wh|], (staged_files !! q) as [sh|],
             (committed_files !! q) as [ch|]; simpl;
    repeat match goal with
           | |- context [String.eqb ?x ?y] => destruct (String.eqb x y); simpl
           end;
    by rewrite ?app_nil_r.
Qed.

Lemma elem_of_filter (b : string -> bool) (order : list string) p :
  p ∈ List.filter b order <-> p ∈ order /\ b p = true.
Proof. by rewrite !list_elem_of_In, filter_In. Qed.

Lemma NoDup_list_filter (b : string -> bool) (order : list string) :
  NoDup order -> NoDup (List.filter b order).
Proof.
  induction 1 as [|q order Hq Hnd IH]; simpl; [constructor|].
  destruct (b q); [|done]. constructor; [|done].
  rewrite elem_of_filter. tauto.
Qed.

Lemma all_paths_lookup order p :
  merge.iterates order (all_paths working_files staged_files committed_files) ->
  p ∈ order <->
  is_Some (working_files !! p) \/ is_Some (staged_files !! p) \/
  is_Some (committed_files !! p).
Proof.
  intros [_ Hin]. rewrite Hin. unfold all_paths.
  rewrite !elem_of_union, !elem_of_dom. tauto.
Qed.

#[local] Ltac break_hyps :=
  repeat match goal with
         | H : _ /\ _ |- _ => destruct H
         | H : _ \/ _ |- _ => destruct H
         | H : ex _ |- _ => destruct H
         end.

#[local] Ltac prove_case :=
  match goal with
  | |- _ \/ _ => first [ left; prove_case | right; prove_case ]
  | |- _ /\ _ => split; prove_case
  | |- ex _ => eexists; prove_case
  | |- _ => first [ reflexivity | eassumption ]
  end.

(** X22.  What [get_status] reports, in whatever order the paths are
    taken: [staged_new] holds the paths staged and not committed,
    [staged_modified] those staged with a hash other than the committed
    one, [not_staged_deleted] those staged or committed that the working
    directory lacks, [not_staged_modified] those whose working hash differs
    from the staged hash, or from the committed hash when the path is not
    staged, [untracked] those found in the working directory only; no path
    is listed twice in a list, and [staged_deleted] is always empty. *)
Theorem get_status_lists (order : list string) :
  merge.iterates order (all_paths working_files staged_files committed_files) ->
  let r := get_status_in order working_files staged_files committed_files in
  staged_deleted r = [] /\
  (forall p, p ∈ staged_new r <->
     is_Some (staged_files !! p) /\ committed_files !! p = None) /\
  (forall p, p ∈ staged_modified r <->
     exists sh ch, staged_files !! p = Some sh /\ committed_files !! p = Some ch /\
                   sh <> ch) /\
  (forall p, p ∈ not_staged_deleted r <->
     working_files !! p = None /\
     (is_Some (staged_files !! p) \/ is_Some (committed_files !! p))) /\
  (forall p, p ∈ not_staged_modified r <->
     exists wh, working_files !! p = Some wh /\
       ((exists sh, staged_files !! p = Some sh /\ wh <> sh) \/
        (staged_files !! p = None /\
         exists ch, committed_files !! p = Some ch /\ wh <> ch))) /\
  (forall p, p ∈ untracked r <->
     is_Some (working_files !! p) /\ staged_files !! p = None /\
     committed_files !! p = None) /\
  NoDup (staged_new r) /\ NoDup (staged_modified r) /\
  NoDup (not_staged_deleted r) /\ NoDup (not_staged_modified r) /\
  NoDup (untracked r).
Proof.
  intros Hiter. cbv zeta.
  destruct (get_status_in_fields order) as (H1 & H2 & H3 & H4 & H5 & H6).
  cbv zeta in *. rewrite H1, H2, H4, H5, H6.
  pose proof (fun p => all_paths_lookup order p Hiter) as Hin.
  destruct Hiter as [Hnd _].
  split_and!; try (by apply NoDup_list_filter); [done|..];
    intros p; rewrite elem_of_filter, Hin; unfold is_Some;
    destruct (working_files !! p) as [wh|], (staged_files !! p) as [sh|],
             (committed_files !! p) as [ch|];
    repeat match goal with
           | |- context [String.eqb ?x ?y] => destruct (String.eqb_spec x y)
           end; simpl;
    (split; [intros [_ Hb]; try discriminate Hb; clear Hb|intros Hb]);
    first [ by (exfalso; break_hyps; congruence) | prove_case ].
Qed.

(** X23.  When everything is committed and nothing is staged, so that the
    working directory and the last commit hold the same hashes,
    [get_status] reports nothing; and when the staging area holds exactly
    the working directory, nothing is untracked or modified without being
    staged. *)
Theorem get_status_clean (order : list string) :
  let r := get_status_in order working_files staged_files committed_files in
  (staged_files = ∅ -> working_files = committed_files -> r = Status_init) /\
  (staged_files = working_files ->
   untracked r = [] /\ not_staged_modified r = []).
Proof.
  cbv zeta.
  destruct (get_status_in_fields order) as (H1 & H2 & H3 & H4 & H5 & H6).
  cbv zeta in *.
  assert (forall b : string -> bool, (forall p, b p = false) ->
            List.filter b order = []) as Hnone.
  { clear. intros b Hb. induction order as [|q o IH]; [done|]. simpl. by rewrite Hb. }
  split.
  - intros -> ->.
    destruct (get_status_in order committed_files ∅ committed_files) as [l1 l2 l3 l4 l5 l6].
    simpl in *. unfold Status_init. subst.
    f_equal; apply Hnone; intros p; rewrite ?lookup_empty;
      destruct (committed_files !! p); try done.
    by rewrite String.eqb_refl.
  - intros ->. rewrite H6, H4. split; apply Hnone; intros p;
      destruct (working_files !! p); try done.
    by rewrite String.eqb_refl.
Qed.

End get_status.

Lemma get_status_lists_witness :
  let working_files : gmap string string := {["new.txt"%string := "h1"%string]} in
  let r := get_status_in ["new.txt"%string] working_files ∅ ∅ in
  merge.iterates ["new.txt"%string] (all_paths working_files ∅ ∅) /\
  "new.txt"%string ∈ untracked r /\
  staged_deleted r = [] /\
  NoDup (untracked r).
Proof.
  cbv zeta.
  assert (merge.iterates ["new.txt"%string]
            (all_paths ({["new.txt"%string := "h1"%string]} : gmap string string) ∅ ∅))
    as Hiter.
  { split; [apply NoDup_singleton|]. intros p. unfold all_paths.
    rewrite dom_empty_L, dom_singleton_L, !elem_of_union, elem_of_singleton,
      elem_of_empty, list_elem_of_singleton. tauto. }
  destruct (get_status_lists {["new.txt"%string := "h1"%string]} ∅ ∅
              ["new.txt"%string] Hiter)
    as (Hdel & _ & _ & _ & _ & Hun & _ & _ & _ & _ & Hnd).
  split_and!; [exact Hiter| |exact Hdel|exact Hnd].
  apply Hun. rewrite lookup_singleton_eq, lookup_empty. split; [by eexists|done].
Defined.

End staging_extra.

Module branch_extra.
Import branch extra_spec.

Lemma do_branch_call_consistent m c :
  branch_consistent m -> branch_consistent (do_branch_call m c).
Proof.
  intros [Hcur Hname]. destruct c as [n h|n|n h|n]; simpl.
  - unfold create_branch. case_bool_decide as Hn; simpl; [done|]. split; simpl.
    + intros b Hb. destruct (decide (n = b)) as [->|Hne].
      * rewrite lookup_insert_eq. by eexists.
      * rewrite lookup_insert_ne by done. by apply Hcur.
    + intros n' br. destruct (decide (n = n')) as [->|Hne].
      * rewrite lookup_insert_eq. by intros [= <-].
      * rewrite lookup_insert_ne by done. apply Hname.
  - unfold delete_branch. case_bool_decide as Hn; simpl; [|done].
    case_bool_decide as Hc; simpl; [done|]. split; simpl.
    + intros b Hb. rewrite lookup_delete_ne; [by apply Hcur|]. congruence.
    + intros n' br. destruct (decide (n = n')) as [->|Hne].
      * by rewrite lookup_delete_eq.
      * rewrite lookup_delete_ne by done. apply Hname.
  - unfold update_branch, get_branch. destruct (branches m !! n) as [br|] eqn:Hn; [|done].
    split; simpl.
    + intros b Hb. destruct (decide (n = b)) as [->|Hne].
      * rewrite lookup_insert_eq. by eexists.
      * rewrite lookup_insert_ne by done. by apply Hcur.
    + intros n' br'. destruct (decide (n = n')) as [->|Hne].
      * rewrite lookup_insert_eq. intros [= <-]. simpl. by apply Hname.
      * rewrite lookup_insert_ne by done. apply Hname.
  - unfold switch_branch. case_bool_decide as Hn; simpl; [|done]. split; simpl.
    + by intros b [= <-].
    + done.
Qed.

Lemma after_branch_calls_consistent calls : branch_consistent (after_branch_calls calls).
Proof.
  unfold after_branch_calls.
  assert (branch_consistent BranchManager_init) as Hinit.
  { split; simpl; [done|]. intros n br. by rewrite lookup_empty. }
  revert Hinit. generalize BranchManager_init.
  induction calls as [|c calls IH]; intros m Hm; simpl; [done|].
  by apply IH, do_branch_call_consistent.
Qed.

(** X24.  Whatever sequence of [create_branch], [delete_branch],
    [update_branch] and [switch_branch] calls a fresh manager has
    answered, its current branch, if it has one, is one of its branches,
    every branch is filed under its own name, and [get_current_commit] is
    [None] only when there is no current branch. *)
Theorem branch_manager_invariant (calls : list branch_call) :
  let m := after_branch_calls calls in
  (forall b, get_current_branch m = Some b ->
     exists br, get_branch m b = Some br /\ name br = b /\
                get_current_commit m = Some (commit_hash br)) /\
  (forall n br, get_branch m n = Some br -> name br = n) /\
  (get_current_commit m = None <-> get_current_branch m = None).
Proof.
  cbv zeta. destruct (after_branch_calls_consistent calls) as [Hcur Hname].
  unfold get_current_branch, get_current_commit, get_branch in *.
  split_and!; [|done|].
  - intros b Hb. destruct (Hcur b Hb) as [br Hbr]. exists br.
    rewrite Hb, Hbr. eauto.
  - destruct (current_branch _) as [b|] eqn:Hb; [|done].
    destruct (Hcur b eq_refl) as [br ->]. done.
Qed.

(** X25.  What a call does to the commit of the current branch of a manager
    reached from a fresh one: creating and deleting branches never move it
    (the current branch cannot be deleted, an existing branch is not
    created again), [update_branch] moves it exactly when it names the
    current branch, [switch_branch] makes it the commit of the branch
    switched to; and a call that answers [False] leaves the manager as it
    was. *)
Theorem branch_calls_current_commit (calls : list branch_call) (n h : string) :
  let m := after_branch_calls calls in
  get_current_commit (snd (create_branch m n h)) = get_current_commit m /\
  get_current_commit (snd (delete_branch m n)) = get_current_commit m /\
  get_current_commit (snd (update_branch m n h)) =
    (if decide (get_current_branch m = Some n) then Some h else get_current_commit m) /\
  get_current_commit (snd (switch_branch m n)) =
    match get_branch m n with
    | Some br => Some (commit_hash br)
    | None => get_current_commit m
    end /\
  (fst (create_branch m n h) = false -> snd (create_branch m n h) = m) /\
  (fst (delete_branch m n) = false -> snd (delete_branch m n) = m) /\
  (fst (update_branch m n h) = false -> snd (update_branch m n h) = m) /\
  (fst (switch_branch m n) = false -> snd (switch_branch m n) = m) /\
  fst (delete_branch m n) = branch_exists m n && negb (bool_decide (get_current_branch m = Some n)).
Proof.
  cbv zeta. destruct (after_branch_calls_consistent calls) as [Hcur Hname].
  generalize dependent (after_branch_calls calls). intros m Hcur Hname.
  unfold get_current_branch, get_current_commit, get_branch, branch_exists.
  split_and!.
  - unfold create_branch. case_bool_decide as Hn; simpl; [done|].
    destruct (current_branch m) as [b|] eqn:Hb; [|done].
    rewrite lookup_insert_ne; [done|]. intros ->. by apply Hn, Hcur.
  - unfold delete_branch. case_bool_decide as Hn; simpl; [|done].
    case_bool_decide as Hc; simpl; [done|].
    destruct (current_branch m) as [b|] eqn:Hb; [|done].
    rewrite lookup_delete_ne; [done|]. congruence.
  - unfold update_branch, get_branch.
    destruct (branches m !! n) as [br|] eqn:Hn; simpl.
    + destruct (current_branch m) as [b|] eqn:Hb; [|by rewrite decide_False].
      case_decide as Hd.
      * injection Hd as ->. by rewrite lookup_insert_eq.
      * rewrite lookup_insert_ne; [done|]. congruence.
    + case_decide as Hd; [|done]. rewrite Hd in Hcur.
      destruct (Hcur n eq_refl). congruence.
  - unfold switch_branch. case_bool_decide as Hn; simpl.
    + destruct Hn as [br Hn]. by rewrite Hn.
    + destruct (branches m !! n) eqn:Hn'; [|done]. destruct Hn. by eexists.
  - unfold create_branch. by case_bool_decide.
  - unfold delete_branch. by destruct (negb _ || _).
  - unfold update_branch, get_branch. by destruct (branches m !! n).
  - unfold switch_branch. by case_bool_decide.
  - unfold delete_branch. case_bool_decide as Hn; simpl; [|done].
    assert (bool_decide (Some n = current_branch m)
            = bool_decide (current_branch m = Some n)) as ->
      by (apply bool_decide_ext; split; congruence).
    by case_bool_decide.
Qed.

End branch_extra.

Module repository_extra.
Import py hash_object commit commit_spec tree_spec hash_object_proofs commit_proofs.

Section repository.
Context `{!Codec pyobj}.

(** [commit] with something staged, step by step. *)
Lemma commit_unfold (repo : repository.Repository) (now message : string) :
  staging.get_staged_files (repository.staging_area repo) <> [] ->
  let r1 := store_object (repository.hash_object repo)
              (PyTreeDict (tree.DirectoryTree_to_dict
                 (tree.build (staging.get_staged_files (repository.staging_area repo))))) in
  let parent :=
    match branch.get_current_commit (repository.branch_manager repo) with
    | Some h => if String.eqb h "" then None else Some h
    | None => None
    end in
  let r2 := create_commit (snd r1) now (fst r1) parent message
              (default "Unknown"%string (repository.config_author repo)) in
  repository.commit repo now message =
  (Some (fst r2),
   repository.mkRepository (snd r2)
     match branch.get_current_branch (repository.branch_manager repo) with
     | Some current =>
         snd (branch.update_branch (repository.branch_manager repo) current (fst r2))
     | None => repository.branch_manager repo
     end
     (staging.clear (repository.staging_area repo))
     (repository.config_author repo)).
Proof.
  intros Hne. cbv zeta. unfold repository.commit, staging.is_empty.
  unfold staging.get_staged_files in *.
  destruct (staging.staged_files (repository.staging_area repo)) as [|kv l] eqn:Hs;
    [done|]. simpl length. cbv iota beta.
  change (S (length l) =? 0)%nat with false. cbv iota.
  destruct (store_object _ (PyTreeDict _)) as [tree_hash st1]. simpl fst. simpl snd.
  destruct (branch.get_current_commit _) as [h|]; [destruct (String.eqb h "")|];
    by destruct (create_commit _ _ _ _ _ _).
Qed.

(** X26.  A commit on top of a complete history: with something staged, a
    current branch [b] and the history [cs] behind it, [commit] answers the
    hash of the new commit, whose tree is the stored tree of the staged
    files and whose parent is the commit the branch pointed to (none for
    the empty hash of a fresh repository); afterwards [log] lists the new
    commit followed by what [log] listed before, the current branch is
    still [b] and points to the new commit, the other branches are as they
    were, and nothing is staged, so that a second [commit] answers
    [None]. *)
Theorem commit_then_log (repo : repository.Repository) (now message b : string)
    (br : branch.Branch) (cs : list Commit) (fuel : nat) :
  let staged := staging.get_staged_files (repository.staging_area repo) in
  let r1 := store_object (repository.hash_object repo)
              (PyTreeDict (tree.DirectoryTree_to_dict (tree.build staged))) in
  let parent :=
    if String.eqb (branch.commit_hash br) "" then None
    else Some (branch.commit_hash br) in
  let c := mkCommit (fst r1) parent message
             (default "Unknown"%string (repository.config_author repo)) now None in
  let h := hash_content (pickle_dumps (PyCommit c)) in
  let r := repository.commit repo now message in
  staged <> [] ->
  branch.current_branch (repository.branch_manager repo) = Some b ->
  branch.branches (repository.branch_manager repo) !! b = Some br ->
  chain (repository.hash_object repo) parent cs ->
  pickle_loads (pickle_dumps (PyCommit c)) = Some (PyCommit c) ->
  no_collision (snd r1) (pickle_dumps (PyCommit c)) ->
  h <> ""%string ->
  length cs < fuel ->
  repository.log fuel repo None = Some (Ok cs) /\
  fst r = Some h /\
  repository.log fuel (snd r) None = Some (Ok (set_hash c h :: cs)) /\
  branch.get_current_branch (repository.branch_manager (snd r)) = Some b /\
  branch.get_current_commit (repository.branch_manager (snd r)) = Some h /\
  (forall n, n <> b ->
     branch.get_branch (repository.branch_manager (snd r)) n =
     branch.get_branch (repository.branch_manager repo) n) /\
  staging.get_staged_files (repository.staging_area (snd r)) = [] /\
  fst (repository.commit (snd r) now message) = None.
Proof.
  cbv zeta. intros Hne Hcur Hbr Hch Hround Hnc Hh Hfuel.
  rewrite (commit_unfold repo now message Hne). cbv zeta.
  assert (branch.get_current_commit (repository.branch_manager repo)
          = Some (branch.commit_hash br)) as Hcc.
  { unfold branch.get_current_commit, branch.get_branch. by rewrite Hcur, Hbr. }
  rewrite Hcc. unfold branch.get_current_branch. rewrite Hcur.
  set (st1 := snd (store_object (repository.hash_object repo) _)) in *.
  set (tree_hash := fst (store_object (repository.hash_object repo) _)) in *.
  set (parent := if String.eqb (branch.commit_hash br) "" then None
                 else Some (branch.commit_hash br)) in *.
  set (author := default "Unknown"%string (repository.config_author repo)) in *.
  set (c := mkCommit tree_hash parent message author now None) in *.
  assert (fst (create_commit st1 now tree_hash parent message author)
          = hash_content (pickle_dumps (PyCommit c))) as Hfst
    by apply store_object_hash.
  pose proof (commit_extra.create_commit_chain st1 now tree_hash parent message author cs
                (commit_extra.chain_kept _ _ _ _ Hch) Hround Hnc) as Hch'.
  cbv zeta in Hch'. rewrite Hfst in *. specialize (Hch' Hh).
  set (h := hash_content (pickle_dumps (PyCommit c))) in *.
  simpl fst. simpl snd.
  assert (branch.update_branch (repository.branch_manager repo) b h
          = (true, branch.mkBranchManager
                     (<[b := branch.update br h]>
                        (branch.branches (repository.branch_manager repo)))
                     (Some b))) as Hupd.
  { unfold branch.update_branch, branch.get_branch. by rewrite Hbr, Hcur. }
  rewrite Hupd. simpl.
  split_and!.
  - unfold repository.log. rewrite Hcc. subst parent.
    destruct (String.eqb (branch.commit_hash br) "").
    + by inversion Hch.
    + apply get_commit_history_no_limit; [done|lia].
  - done.
  - unfold repository.log, branch.get_current_commit, branch.get_branch. simpl.
    rewrite lookup_insert_eq. simpl.
    apply String.eqb_neq in Hh as ->.
    apply get_commit_history_no_limit; [done|simpl; lia].
  - done.
  - unfold branch.get_current_commit, branch.get_branch. simpl.
    by rewrite lookup_insert_eq.
  - intros n Hn. unfold branch.get_branch. simpl. by rewrite lookup_insert_ne.
  - done.
  - done.
Qed.

(** X27.  The snapshot of a commit is the staging area: when the staged
    paths are distinct and none is a proper prefix of another, unpickling
    undoes pickling on the tree and the store holds no colliding payload,
    the tree hash that [commit] stores is still retrievable after the
    commit, and the tree read back from it by [from_dict] gives, for every
    path, the hash that was staged for it; when no staged path begins with
    a slash its [list_all_files] lists exactly the staged paths. *)
Theorem commit_snapshot (repo : repository.Repository) (now message : string) :
  let staged := staging.get_staged_files (repository.staging_area repo) in
  let tree_dict := tree.DirectoryTree_to_dict (tree.build staged) in
  let r1 := store_object (repository.hash_object repo) (PyTreeDict tree_dict) in
  let r := repository.commit repo now message in
  staged <> [] ->
  NoDup (map fst staged) ->
  prefix_free (map fst staged) ->
  pickle_loads (pickle_dumps (PyTreeDict tree_dict)) = Some (PyTreeDict tree_dict) ->
  no_collision (repository.hash_object repo) (pickle_dumps (PyTreeDict tree_dict)) ->
  retrieve_object (repository.hash_object (snd r)) (fst r1) = Ok (PyTreeDict tree_dict) /\
  tree.DirectoryTree_from_dict tree_dict = tree.build staged /\
  (forall q, tree.get_file_hash (tree.DirectoryTree_from_dict tree_dict) q
             = tree.dict_get q staged) /\
  (forall q, tree.get_file_hash (tree.DirectoryTree_from_dict tree_dict)
               (staging.normalize q)
             = staging.get_file_hash (repository.staging_area repo) q) /\
  ((forall p s, p ∈ map fst staged -> p <> String "/" s) ->
   tree.list_all_files (tree.DirectoryTree_from_dict tree_dict) ≡ₚ map fst staged).
Proof.
  cbv zeta. intros Hne Hnd Hpf Hround Hnc.
  rewrite (commit_unfold repo now message Hne). cbv zeta. simpl snd.
  assert (tree.DirectoryTree_from_dict
            (tree.DirectoryTree_to_dict
               (tree.build (staging.get_staged_files (repository.staging_area repo))))
          = tree.build (staging.get_staged_files (repository.staging_area repo)))
    as Hrt.
  { destruct (tree_proofs.build_well_formed _ Hpf) as [Hwf _].
    unfold tree.DirectoryTree_from_dict, tree.DirectoryTree_to_dict.
    rewrite tree_proofs.from_dict_to_dict_well_formed by done.
    by destruct (tree.build _). }
  split_and!.
  - change (repository.hash_object (repository.mkRepository ?st _ _ _)) with st.
    unfold create_commit. cbv zeta.
    rewrite store_extra.retrieve_object_kept by apply store_extra.store_object_exists.
    by apply store_extra.retrieve_object_store_object.
  - done.
  - intros q. rewrite Hrt. by apply tree_extra.get_file_hash_build.
  - intros q. rewrite Hrt. by apply tree_extra.get_file_hash_build.
  - intros Hslash. rewrite Hrt. by apply tree_extra.list_all_files_build.
Qed.

(** X28.  A branch made by [branch] starts where the current branch is:
    when [branch(name)] succeeds, which it does exactly when there is a
    current commit and no branch of that name, a [checkout] of the new
    branch succeeds, [log] on it is what it was before, the store is
    untouched and whatever was staged is dropped; on a fresh repository
    [branch] fails, and a [checkout] of a branch that does not exist
    changes nothing. *)
Theorem branch_then_checkout (repo : repository.Repository) (name : string)
    (fuel : nat) (max_count : option Z) :
  let r1 := repository.create_branch repo name in
  let r2 := repository.checkout (snd r1) name in
  (fst r1 = true <->
   (exists h, branch.get_current_commit (repository.branch_manager repo) = Some h /\
              h <> ""%string) /\
   branch.branch_exists (repository.branch_manager repo) name = false) /\
  (fst r1 = true ->
   fst r2 = true /\
   branch.get_current_branch (repository.branch_manager (snd r2)) = Some name /\
   branch.get_current_commit (repository.branch_manager (snd r2))
     = branch.get_current_commit (repository.branch_manager repo) /\
   repository.log fuel (snd r2) max_count = repository.log fuel repo max_count /\
   repository.hash_object (snd r2) = repository.hash_object repo /\
   staging.get_staged_files (repository.staging_area (snd r2)) = []) /\
  (forall author, fst (repository.create_branch (repository.init author) name) = false) /\
  (branch.branch_exists (repository.branch_manager repo) name = false ->
   repository.checkout repo name = (false, repo)).
Proof.
  cbv zeta. split_and!.
  - unfold repository.create_branch, branch.create_branch, branch.branch_exists.
    destruct (branch.get_current_commit _) as [h|]; simpl.
    + destruct (String.eqb_spec h "") as [->|Hh]; simpl.
      * split; [done|]. by intros [(h & [= <-] & Hh) _].
      * case_bool_decide as Hn; simpl; split; try done; [by intros [_ ?]|].
        intros _. split; [by exists h|done].
    + split; [done|]. by intros [(h & ? & _) _].
  - unfold repository.create_branch, repository.checkout, repository.log,
      branch.create_branch, branch.switch_branch, branch.branch_exists,
      branch.get_current_commit, branch.get_current_branch, branch.get_branch.
    destruct (branch.current_branch (repository.branch_manager repo)) as [b|] eqn:Hb;
      [|done].
    destruct (branch.branches (repository.branch_manager repo) !! b) as [br|] eqn:Hbr;
      [|done].
    destruct (String.eqb_spec (branch.commit_hash br) "") as [Hh|Hh]; [done|].
    case_bool_decide as Hn; simpl; [done|]. intros _.
    rewrite !bool_decide_eq_true_2 by (rewrite lookup_insert_eq; by eexists).
    simpl. rewrite !lookup_insert_eq. simpl.
    by apply String.eqb_neq in Hh as ->.
  - intros author. reflexivity.
  - unfold repository.checkout. by intros ->.
Qed.

End repository.

Lemma repo_staged_no_collision :
  let tree_dict := tree.DirectoryTree_to_dict (tree.build [("a.txt", "h1")]%string) in
  let st := snd (@store_object _ example_repo.codec HashObject_init
                   (PyTreeDict tree_dict)) in
  @no_collision _ example_repo.codec st
    (@pickle_dumps _ example_repo.codec
       (PyCommit (mkCommit "TT00" None "first" "me" "d0" None))).
Proof. cbv zeta. intros content Hc. vm_compute in Hc. discriminate Hc. Qed.

Lemma commit_then_log_witness :
  let r := @repository.commit example_repo.codec example_repo.repo_staged
             "d0" "first" in
  let c := mkCommit "TT00" None "first" "me" "d0" (Some "CfirstCfirst00"%string) in
  @repository.log example_repo.codec 1 example_repo.repo_staged None = Some (Ok []) /\
  fst r = Some "CfirstCfirst00"%string /\
  @repository.log example_repo.codec 1 (snd r) None = Some (Ok [c]) /\
  branch.get_current_commit (repository.branch_manager (snd r))
    = Some "CfirstCfirst00"%string.
Proof.
  cbv zeta.
  assert (staging.get_staged_files (repository.staging_area example_repo.repo_staged)
          <> []) as Hne by (by vm_compute).
  assert (branch.current_branch (repository.branch_manager example_repo.repo_staged)
          = Some "main"%string) as Hcur by reflexivity.
  assert (branch.branches (repository.branch_manager example_repo.repo_staged)
            !! "main"%string = Some (branch.mkBranch "main" "")) as Hbr
    by (by vm_compute).
  assert (@chain example_repo.codec
            (repository.hash_object example_repo.repo_staged) None []) as Hch
    by apply chain_root.
  assert (@hash_content _ example_repo.codec
            (@pickle_dumps _ example_repo.codec
               (PyCommit (mkCommit "TT00" None "first" "me" "d0" None)))
          <> ""%string) as Hh by (by vm_compute).
  assert (length (@nil Commit) < 1) as Hfuel by (simpl; lia).
  destruct (@commit_then_log example_repo.codec example_repo.repo_staged
              "d0" "first" "main" (branch.mkBranch "main" "") [] 1
              Hne Hcur Hbr Hch eq_refl repo_staged_no_collision Hh Hfuel)
    as (H1 & H2 & H3 & _ & H5 & _).
  split_and!; [exact H1|exact H2|exact H3|exact H5].
Defined.

Lemma commit_snapshot_witness :
  let tree_dict := tree.DirectoryTree_to_dict (tree.build [("a.txt", "h1")]%string) in
  let r := @repository.commit example_repo.codec example_repo.repo_staged
             "d0" "first" in
  NoDup (map fst [("a.txt", "h1")]%string) /\
  prefix_free (map fst [("a.txt", "h1")]%string) /\
  @retrieve_object _ example_repo.codec (repository.hash_object (snd r)) "TT00"
    = Ok (PyTreeDict tree_dict) /\
  tree.get_file_hash (tree.DirectoryTree_from_dict tree_dict) "a.txt"
    = Some "h1"%string.
Proof.
  cbv zeta.
  assert (staging.get_staged_files (repository.staging_area example_repo.repo_staged)
          <> []) as Hne by (by vm_compute).
  assert (NoDup (map fst [("a.txt", "h1")]%string)) as Hnd by apply NoDup_singleton.
  assert (prefix_free (map fst [("a.txt", "h1")]%string)) as Hpf.
  { intros p q Hp Hq (rest & Hrest & Heq). simpl in Hp, Hq.
    apply list_elem_of_singleton in Hp as ->.
    apply list_elem_of_singleton in Hq as ->.
    vm_compute in Heq. destruct rest; [done|discriminate Heq]. }
  assert (@no_collision _ example_repo.codec
            (repository.hash_object example_repo.repo_staged)
            (@pickle_dumps _ example_repo.codec
               (PyTreeDict (tree.DirectoryTree_to_dict
                  (tree.build [("a.txt", "h1")]%string))))) as Hnc.
  { intros content Hc. vm_compute in Hc. discriminate Hc. }
  destruct (@commit_snapshot example_repo.codec example_repo.repo_staged
              "d0" "first" Hne Hnd Hpf eq_refl Hnc) as (H1 & _ & H3 & _).
  split_and!; [exact Hnd|exact Hpf|exact H1|exact (H3 "a.txt"%string)].
Defined.

Lemma branch_then_checkout_witness :
  let repo := snd (@repository.commit example_repo.codec example_repo.repo_staged
                     "d0" "first") in
  let r1 := repository.create_branch repo "dev" in
  let r2 := repository.checkout (snd r1) "dev" in
  fst r1 = true /\
  fst r2 = true /\
  branch.get_current_branch (repository.branch_manager (snd r2)) = Some "dev"%string /\
  @repository.log example_repo.codec 1 (snd r2) None
    = @repository.log example_repo.codec 1 repo None.
Proof.
  cbv zeta.
  assert (fst (repository.create_branch
                 (snd (@repository.commit example_repo.codec example_repo.repo_staged
                         "d0" "first")) "dev") = true) as Hok by (by vm_compute).
  destruct (@branch_then_checkout example_repo.codec
              (snd (@repository.commit example_repo.codec example_repo.repo_staged
                      "d0" "first")) "dev" 1 None) as (_ & Hthen & _).
  destruct (Hthen Hok) as (H1 & H2 & _ & H4 & _).
  split_and!; [exact Hok|exact H1|exact H2|exact H4].
Defined.

End repository_extra.
